(** * Sudoku as a constraint satisfaction problem: AC-3 and backtracking

    A shallow embedding of [ac3.py]: the class [SudokuCSP] (domain store,
    neighbour relation, arc consistency, heuristic backtracking search) and
    the function [solve_sudoku], followed by their verification.

    Conventions of the embedding.
    - A Python [int] is a [Z]; a cell [(i, j)] is a pair of [nat].
    - A Python [set] is a duplicate-free list.  For a set of cells the list
      is in insertion order and the order in which Python iterates over it
      is a parameter ([iter_cells]) of the development; a domain (a set of
      small ints) is kept in iteration order, removal keeping the order of
      the remaining values.
    - [self.domains] is a [dict], which iterates in insertion order: an
      association list.  [self.neighbors] is a [defaultdict(set)], only ever
      looked up: a [gmap] whose lookup inserts an empty set at a missing key.
      The [assignment] of the search is a [dict] that is looked up, extended
      and shrunk: a [gmap].
    - Methods run in a state-and-error monad over the object [self]; loops
      that Python leaves unbounded take fuel. *)

From Stdlib Require Import ZArith Lia.
From stdpp Require Import base option list gmap relations.

Local Open Scope Z_scope.
Local Open Scope nat_scope.

(** ** Outcomes and the method monad *)

Inductive exn : Type :=
| IndexError
| KeyError
| ValueError
| StopIteration.

Inductive outcome (A : Type) : Type :=
| Returns (a : A)
| Raises (e : exn)
| OutOfFuel.

Arguments Returns {A} a.
Arguments Raises {A} e.
Arguments OutOfFuel {A}.

Definition M (St A : Type) : Type := St -> outcome (A * St).

Definition ret {St A} (a : A) : M St A := fun s => Returns (a, s).

Definition bind {St A B} (m : M St A) (k : A -> M St B) : M St B :=
  fun s =>
    match m s with
    | Returns (a, s') => k a s'
    | Raises e => Raises e
    | OutOfFuel => OutOfFuel
    end.

Definition raise {St A} (e : exn) : M St A := fun _ => Raises e.

Definition out_of_fuel {St A} : M St A := fun _ => OutOfFuel.

Declare Scope method_scope.
Delimit Scope method_scope with method.
Notation "x <- m ;; k" := (bind m (fun x => k))
  (at level 100, m at next level, right associativity) : method_scope.
Local Open Scope method_scope.

Lemma bind_eq {St A B} (m : M St A) (k : A -> M St B) s :
  bind m k s = match m s with
               | Returns (a, s') => k a s'
               | Raises e => Raises e
               | OutOfFuel => OutOfFuel
               end.
Proof. reflexivity. Qed.

Lemma ret_eq {St A} (a : A) (s : St) : ret a s = Returns (a, s).
Proof. reflexivity. Qed.

(** [for x in l: acc = body(acc, x)] *)
Fixpoint foldM {St A B} (body : B -> A -> M St B) (l : list A) (acc : B) : M St B :=
  match l with
  | [] => ret acc
  | x :: l' => acc' <- body acc x ;; foldM body l' acc'
  end.

Lemma foldM_cons {St A B} (body : B -> A -> M St B) x l acc s :
  foldM body (x :: l) acc s
  = match body acc x s with
    | Returns (acc', s') => foldM body l acc' s'
    | Raises e => Raises e
    | OutOfFuel => OutOfFuel
    end.
Proof. reflexivity. Qed.

(** [[f(x) for x in l]] *)
Fixpoint mapM {St A B} (f : A -> M St B) (l : list A) : M St (list B) :=
  match l with
  | [] => ret []
  | x :: l' => y <- f x ;; ys <- mapM f l' ;; ret (y :: ys)
  end.

(** ** Data *)

Abbreviation cell := (nat * nat)%type.
Abbreviation arc := (cell * cell)%type (only parsing).

(** An insertion-ordered [dict] keyed by cells. *)
Fixpoint dict_get {V} (k : cell) (d : list (cell * V)) : option V :=
  match d with
  | [] => None
  | (k', v) :: d' => if decide (k' = k) then Some v else dict_get k d'
  end.

Fixpoint dict_set {V} (k : cell) (v : V) (d : list (cell * V)) : list (cell * V) :=
  match d with
  | [] => [(k, v)]
  | (k', v') :: d' =>
      if decide (k' = k) then (k', v) :: d' else (k', v') :: dict_set k v d'
  end.

(** [s.add(x)] on a set kept in insertion order. *)
Definition set_add (x : cell) (s : list cell) : list cell :=
  if decide (x ∈ s) then s else s ++ [x].

(** [d[k].add(x)] on a [defaultdict(set)]. *)
Definition defaultdict_add (k x : cell) (d : gmap cell (list cell)) : gmap cell (list cell) :=
  <[k := set_add x (default [] (d !! k))]> d.

Record SudokuCSP : Type := {
  puzzle : list (list Z);
  domains : list (cell * list Z);
  neighbors : gmap cell (list cell)
}.

(** Ghost events of the search: entry into [backtrack] at a nesting depth,
    the variable chosen, a value committed to the assignment, a commitment
    removed. *)
Inductive event : Type :=
| Enter (depth : nat)
| Choose (var : cell)
| Assign (var : cell) (value : Z)
| Undo (var : cell).

(** ** Construction *)

Definition range9 : list nat := seq 0 9.
Arguments range9 : simpl never.

(** [set(range(1, 10))] *)
Definition full_domain : list Z := [1; 2; 3; 4; 5; 6; 7; 8; 9]%Z.

(** [puzzle[i][j]] *)
Definition puzzle_at {St} (p : list (list Z)) (i j : nat) : M St Z :=
  match p !! i with
  | Some row =>
      match row !! j with
      | Some v => ret v
      | None => raise IndexError
      end
  | None => raise IndexError
  end.

(** The state of [initialize_domains] is its local dict [domains]. *)
Definition initialize_domains (p : list (list Z)) : outcome (list (cell * list Z)) :=
  match
    foldM (fun (_ : unit) i =>
      foldM (fun (_ : unit) j =>
        v <- puzzle_at p i j ;;
        if decide (v = 0%Z)
        then fun domains => Returns (tt, dict_set (i, j) full_domain domains)
        else v' <- puzzle_at p i j ;;
             fun domains => Returns (tt, dict_set (i, j) [v'] domains))
        range9 tt)
      range9 tt []
  with
  | Returns (_, domains) => Returns domains
  | Raises e => Raises e
  | OutOfFuel => OutOfFuel
  end.

Definition initialize_neighbors : gmap cell (list cell) :=
  foldl (fun neighbors i =>
    foldl (fun neighbors j =>
      let neighbors :=
        foldl (fun neighbors k =>
          let neighbors :=
            if decide (k ≠ j) then defaultdict_add (i, j) (i, k) neighbors else neighbors in
          if decide (k ≠ i) then defaultdict_add (i, j) (k, j) neighbors else neighbors)
          neighbors range9 in
      let start_row := 3 * (i / 3) in
      let start_col := 3 * (j / 3) in
      foldl (fun neighbors r =>
        foldl (fun neighbors c =>
          if decide ((r, c) ≠ (i, j)) then defaultdict_add (i, j) (r, c) neighbors else neighbors)
          neighbors (seq start_col 3))
        neighbors (seq start_row 3))
      neighbors range9)
    ∅ range9.

(** [SudokuCSP.__init__] *)
Definition new_SudokuCSP (p : list (list Z)) : outcome SudokuCSP :=
  match initialize_domains p with
  | Returns d => Returns {| puzzle := p; domains := d; neighbors := initialize_neighbors |}
  | Raises e => Raises e
  | OutOfFuel => OutOfFuel
  end.

(** ** Access to the object *)

(** [self.domains[c]] *)
Definition get_domain (c : cell) : M SudokuCSP (list Z) :=
  fun self =>
    match dict_get c (domains self) with
    | Some d => Returns (d, self)
    | None => Raises KeyError
    end.

(** [self.domains[c].remove(x)] *)
Definition domain_remove (c : cell) (x : Z) : M SudokuCSP unit :=
  fun self =>
    match dict_get c (domains self) with
    | Some d =>
        if decide (x ∈ d)
        then Returns (tt, {| puzzle := puzzle self;
                             domains := dict_set c (filter (fun y => y ≠ x) d) (domains self);
                             neighbors := neighbors self |})
        else Raises KeyError
    | None => Raises KeyError
    end.

(** [self.neighbors[c]]: a [defaultdict] stores an empty set at a missing key. *)
Definition get_neighbors (c : cell) : M SudokuCSP (list cell) :=
  fun self =>
    match neighbors self !! c with
    | Some ns => Returns (ns, self)
    | None => Returns ([], {| puzzle := puzzle self;
                              domains := domains self;
                              neighbors := <[c := []]> (neighbors self) |})
    end.

Definition constraint_satisfied (x y : Z) : bool := negb (x =? y)%Z.

(** ** Methods *)

Section Methods.

(** The order in which Python iterates over a set of cells. *)
Variable iter_cells : list cell -> list cell.

(** [revise]: the loop runs over a copy of [self.domains[xi]]. *)
Definition revise (xi xj : cell) : M SudokuCSP bool :=
snapshot <- get_domain xi ;;
foldM (fun revised x =>
  dj <- get_domain xj ;;
  if negb (existsb (constraint_satisfied x) dj)
  then _ <- domain_remove xi x ;; ret true
  else ret revised)
  snapshot false.

(** One turn of the [while queue:] loop of [ac3]: [inl] carries the queue
  and the recorded lengths into the next turn, [inr] is what [ac3]
  returns. *)
Definition ac3_body (queue : list arc) (queue_lengths : list Z)
: M SudokuCSP (list arc * list Z + bool * list Z) :=
match queue with
| [] => ret (inr (true, queue_lengths))
| (xi, xj) :: rest =>
    let queue_lengths := queue_lengths ++ [Z.of_nat (length queue)] in
    revised <- revise xi xj ;;
    if revised then
      d <- get_domain xi ;;
      match d with
      | [] => ret (inr (false, queue_lengths))
      | _ :: _ =>
          ns <- get_neighbors xi ;;
          ret (inl (rest ++ map (fun xk => (xk, xi)) (iter_cells (filter (fun c => c ≠ xj) ns)),
                    queue_lengths))
      end
    else ret (inl (rest, queue_lengths))
end.

Fixpoint ac3_loop (fuel : nat) (queue : list arc) (queue_lengths : list Z)
: M SudokuCSP (bool * list Z) :=
match fuel with
| 0 => out_of_fuel
| S fuel' =>
    r <- ac3_body queue queue_lengths ;;
    match r with
    | inl (queue', queue_lengths') => ac3_loop fuel' queue' queue_lengths'
    | inr result => ret result
    end
end.

(** [deque([(xi, xj) for xi in self.domains for xj in self.neighbors[xi]])] *)
Definition initial_queue : M SudokuCSP (list arc) :=
fun self =>
  foldM (fun queue xi =>
    ns <- get_neighbors xi ;;
    ret (queue ++ map (fun xj => (xi, xj)) (iter_cells ns)))
    (map fst (domains self)) [] self.

Definition ac3 (fuel : nat) : M SudokuCSP (bool * list Z) :=
queue <- initial_queue ;;
ac3_loop fuel queue [].

Definition is_solved : M SudokuCSP bool :=
fun self => Returns (forallb (fun domain => length domain =? 1) (map snd (domains self)), self).

(** [next(iter(self.domains[c]))] *)
Definition first_value (c : cell) : M SudokuCSP Z :=
d <- get_domain c ;;
match d with
| x :: _ => ret x
| [] => raise StopIteration
end.

Definition get_solution : M SudokuCSP (list (list Z)) :=
mapM (fun i => mapM (fun j => first_value (i, j)) range9) range9.

(** [min(l, key=...)] on the list of (key, element) pairs: the first
  element whose key is minimal. *)
Fixpoint min_by_key {A} (best : nat * A) (l : list (nat * A)) : A :=
match l with
| [] => snd best
| x :: l' => min_by_key (if fst x <? fst best then x else best) l'
end.

Definition select_unassigned_variable (assignment : gmap cell Z) : M SudokuCSP cell :=
fun self =>
  let unassigned_variables :=
    filter (fun v => assignment !! v = None) (map fst (domains self)) in
  (keyed <- mapM (fun var => d <- get_domain var ;; ret (length d, var)) unassigned_variables ;;
   match keyed with
   | [] => raise ValueError
   | first :: others => ret (min_by_key first others)
   end) self.

Definition is_consistent (var : cell) (value : Z) (assignment : gmap cell Z) : M SudokuCSP bool :=
ns <- get_neighbors var ;;
ret (forallb (fun neighbor => negb (bool_decide (assignment !! neighbor = Some value)))
             (iter_cells ns)).

Definition count_constraints (var : cell) (value : Z) (assignment : gmap cell Z) : M SudokuCSP nat :=
ns <- get_neighbors var ;;
foldM (fun count neighbor =>
  match assignment !! neighbor with
  | None =>
      d <- get_domain neighbor ;;
      ret (count + length (List.filter (fun neighbor_value =>
                                           negb (constraint_satisfied value neighbor_value)) d))
  | Some _ => ret count
  end)
  (iter_cells ns) 0.

(** [list.sort(key=...)] on (key, element) pairs: a stable sort. *)
Fixpoint insert_by_key {A} (x : nat * A) (l : list (nat * A)) : list (nat * A) :=
match l with
| [] => [x]
| y :: l' => if fst x <=? fst y then x :: y :: l' else y :: insert_by_key x l'
end.

Definition sort_by_key {A} (l : list (nat * A)) : list (nat * A) :=
foldr insert_by_key [] l.

Definition least_constraining_values (var : cell) (assignment : gmap cell Z) : M SudokuCSP (list Z) :=
values <- get_domain var ;;
keyed <- mapM (fun value => n <- count_constraints var value assignment ;; ret (n, value)) values ;;
ret (map snd (sort_by_key keyed)).

(** The [for value in ...] loop of [backtrack]; [rec] is the recursive
  call.  The dict [assignment] is shared by all calls, so every call
  hands back its contents next to the result; so is the ghost log of
  events, which is kept newest first. *)
Fixpoint try_values (rec : gmap cell Z -> list event ->
                         M SudokuCSP (option (gmap cell Z) * gmap cell Z * list event))
  (var : cell) (values : list Z) (assignment : gmap cell Z) (log : list event)
: M SudokuCSP (option (gmap cell Z) * gmap cell Z * list event) :=
match values with
| [] => ret (None, assignment, log)
| value :: values' =>
    ok <- is_consistent var value assignment ;;
    if ok then
      r <- rec (<[var := value]> assignment) (Assign var value :: log) ;;
      let '(result, assignment', log') := r in
      match result with
      | Some _ => ret (result, assignment', log')
      | None =>
          match assignment' !! var with
          | Some _ => try_values rec var values' (delete var assignment') (Undo var :: log')
          | None => raise KeyError
          end
      end
    else try_values rec var values' assignment log
end.

Fixpoint backtrack (fuel : nat) (depth : nat) (assignment : gmap cell Z) (log : list event)
: M SudokuCSP (option (gmap cell Z) * gmap cell Z * list event) :=
match fuel with
| 0 => out_of_fuel
| S fuel' =>
    if size assignment =? 81 then ret (Some assignment, assignment, Enter depth :: log)
    else
      var <- select_unassigned_variable assignment ;;
      values <- least_constraining_values var assignment ;;
      try_values (backtrack fuel' (S depth)) var values assignment
                 (Choose var :: Enter depth :: log)
end.

(** The search starts from the empty dict; the log is handed back oldest
  event first. *)
Definition backtracking_search (fuel : nat)
: M SudokuCSP (option (gmap cell Z) * list event) :=
r <- backtrack fuel 0 ∅ [] ;;
let '(result, _, log) := r in
ret (result, reverse log).

(** [[[solution.get((i, j), 0) for j in range(9)] for i in range(9)]] *)
Definition grid_of_assignment (solution : gmap cell Z) : list (list Z) :=
map (fun i => map (fun j => default 0%Z (solution !! (i, j))) range9) range9.

(** [solve_sudoku]: the solved grid or [None], the queue lengths, and the
  ghost trace of the search. *)
Definition solve_sudoku (fuel : nat) (p : list (list Z))
: outcome (option (list (list Z)) * list Z * list event) :=
match new_SudokuCSP p with
| Returns csp =>
    match
      (r <- ac3 fuel ;;
       let '(ac3_result, queue_lengths) := r in
       if ac3_result then
         solved <- is_solved ;;
         if solved then
           solution <- get_solution ;;
           ret (Some solution, queue_lengths, [])
         else
           r <- backtracking_search fuel ;;
           let '(solution, trace) := r in
           match solution with
           | Some a =>
               if size a =? 0 then ret (None, queue_lengths, trace)
               else ret (Some (grid_of_assignment a), queue_lengths, trace)
           | None => ret (None, queue_lengths, trace)
           end
       else ret (None, queue_lengths, [])) csp
    with
    | Returns (result, _) => Returns result
    | Raises e => Raises e
    | OutOfFuel => OutOfFuel
    end
| Raises e => Raises e
| OutOfFuel => OutOfFuel
end.

End Methods.

Arguments ac3_body : simpl never.
Arguments revise : simpl never.

Definition puzzle_ac3_solution : list (list Z) :=
  [ [5; 1; 7; 6; 0; 0; 0; 3; 4];
    [2; 8; 9; 0; 0; 4; 0; 0; 0];
    [3; 4; 6; 2; 0; 5; 0; 9; 0];
    [6; 0; 2; 0; 0; 0; 0; 1; 0];
    [0; 3; 8; 0; 0; 6; 0; 4; 7];
    [0; 0; 0; 0; 0; 0; 0; 0; 0];
    [0; 9; 0; 0; 0; 0; 0; 7; 8];
    [7; 0; 3; 4; 0; 0; 5; 6; 0];
    [0; 0; 0; 0; 0; 0; 0; 0; 0] ]%Z.

Definition puzzle_no_solution : list (list Z) :=
  [ [5; 3; 4; 6; 7; 8; 9; 1; 2];
    [6; 7; 2; 1; 9; 5; 3; 4; 8];
    [1; 9; 8; 3; 4; 0; 5; 6; 7];
    [8; 5; 9; 7; 6; 2; 4; 0; 3];
    [4; 2; 6; 8; 5; 3; 7; 9; 1];
    [7; 1; 3; 9; 2; 4; 8; 5; 6];
    [9; 6; 1; 5; 3; 7; 2; 8; 4];
    [2; 8; 7; 4; 1; 9; 6; 3; 5];
    [3; 4; 5; 2; 8; 6; 1; 7; 9] ]%Z.

Definition puzzle5 : list (list Z) :=
  [ [8; 0; 0; 0; 0; 0; 0; 0; 0];
    [0; 0; 3; 6; 0; 0; 0; 0; 0];
    [0; 7; 0; 0; 9; 0; 2; 0; 0];
    [0; 5; 0; 0; 0; 7; 0; 0; 0];
    [0; 0; 0; 0; 4; 5; 7; 0; 0];
    [0; 0; 0; 1; 0; 0; 0; 3; 0];
    [0; 0; 1; 0; 0; 0; 0; 6; 8];
    [0; 0; 8; 5; 0; 0; 0; 1; 0];
    [0; 9; 0; 0; 0; 0; 4; 0; 0] ]%Z.

Definition puzzle_backtrack : list (list Z) :=
  [ [0; 0; 0; 0; 0; 0; 2; 0; 0];
    [0; 0; 0; 6; 0; 0; 0; 0; 3];
    [0; 7; 4; 0; 8; 0; 0; 0; 0];
    [0; 0; 0; 0; 0; 3; 0; 0; 2];
    [0; 8; 0; 0; 4; 0; 0; 1; 0];
    [6; 0; 0; 5; 0; 0; 0; 0; 0];
    [0; 0; 0; 0; 0; 0; 0; 0; 0];
    [5; 0; 0; 0; 0; 9; 0; 0; 0];
    [0; 0; 8; 0; 0; 0; 0; 0; 0] ]%Z.

(** ** The grid and the neighbour relation *)

(** The keys of [self.domains], in the order [initialize_domains] inserts
    them.  This table and the next are sealed: proofs use them through the
    lemmas below and never unfold them. *)
Definition all_cells_def : list cell :=
  flat_map (fun i => map (fun j => (i, j)) range9) range9.
Definition all_cells_aux : seal (@all_cells_def). Proof. by eexists. Qed.
Definition all_cells : list cell := all_cells_aux.(unseal).
Definition all_cells_unseal : all_cells = all_cells_def := all_cells_aux.(seal_eq).

(** The set [self.neighbors[c]] as [initialize_neighbors] builds it. *)
Definition nbrs_def (c : cell) : list cell := default [] (initialize_neighbors !! c).
Definition nbrs_aux : seal (@nbrs_def). Proof. by eexists. Qed.
Definition nbrs : cell → list cell := nbrs_aux.(unseal).
Definition nbrs_unseal : nbrs = nbrs_def := nbrs_aux.(seal_eq).

(** Two different cells that share a row, a column or a 3x3 block. *)
Definition related (c c' : cell) : Prop :=
  c ≠ c' ∧ (c.1 = c'.1 ∨ c.2 = c'.2 ∨ (c.1 / 3 = c'.1 / 3 ∧ c.2 / 3 = c'.2 / 3)).

Global Instance related_dec c c' : Decision (related c c').
Proof. unfold related. apply _. Defined.

Lemma related_sym c c' : related c c' → related c' c.
Proof. intros [Hne H]. split; [congruence|]. destruct H as [->|[->|[-> ->]]]; auto. Qed.

Lemma elem_of_all_cells i j : (i, j) ∈ all_cells ↔ i < 9 ∧ j < 9.
Proof.
  rewrite all_cells_unseal. unfold all_cells_def, range9.
  rewrite list_elem_of_In, in_flat_map. split.
  - intros (i' & Hi & Hj). apply in_map_iff in Hj as (j' & Heq & Hj).
    apply in_seq in Hi, Hj. simplify_eq. lia.
  - intros [Hi Hj]. exists i. split; [apply in_seq; lia|].
    apply in_map_iff. exists j. split; [done|apply in_seq; lia].
Qed.

Lemma NoDup_all_cells : NoDup all_cells.
Proof. rewrite all_cells_unseal. apply (bool_decide_unpack _). by vm_compute. Qed.

Lemma length_all_cells : length all_cells = 81.
Proof. by rewrite all_cells_unseal. Qed.

Lemma neighbors_table :
  Forall (fun c =>
    initialize_neighbors !! c = Some (nbrs c) ∧
    NoDup (nbrs c) ∧
    length (nbrs c) = 20 ∧
    Forall (fun c' => c' ∈ all_cells) (nbrs c) ∧
    Forall (fun c' => c' ∈ nbrs c ↔ related c c') all_cells) all_cells.
Proof.
  rewrite nbrs_unseal, all_cells_unseal. apply (bool_decide_unpack _). by vm_compute.
Qed.

Lemma dom_initialize_neighbors c : is_Some (initialize_neighbors !! c) → c ∈ all_cells.
Proof.
  intros Hc. apply elem_of_dom in Hc. revert Hc.
  assert (dom initialize_neighbors = list_to_set all_cells) as ->
    by (rewrite all_cells_unseal; apply (bool_decide_unpack _); by vm_compute).
  apply elem_of_list_to_set.
Qed.

Section NeighborFacts.
Context (c : cell) (Hc : c ∈ all_cells).

Lemma nbrs_lookup : initialize_neighbors !! c = Some (nbrs c).
Proof. pose proof neighbors_table as H. rewrite Forall_forall in H. by apply H. Qed.

Lemma nbrs_NoDup : NoDup (nbrs c).
Proof. pose proof neighbors_table as H. rewrite Forall_forall in H. by apply H. Qed.

Lemma nbrs_length : length (nbrs c) = 20.
Proof. pose proof neighbors_table as H. rewrite Forall_forall in H. by apply H. Qed.

Lemma nbrs_in_grid c' : c' ∈ nbrs c → c' ∈ all_cells.
Proof.
  pose proof neighbors_table as H. rewrite Forall_forall in H.
  destruct (H c Hc) as (_ & _ & _ & H' & _). rewrite Forall_forall in H'. apply H'.
Qed.

Lemma nbrs_related c' : c' ∈ all_cells → c' ∈ nbrs c ↔ related c c'.
Proof.
  pose proof neighbors_table as H. rewrite Forall_forall in H.
  destruct (H c Hc) as (_ & _ & _ & _ & H'). rewrite Forall_forall in H'. apply H'.
Qed.

Lemma nbrs_irrefl : c ∉ nbrs c.
Proof. intros H. apply nbrs_related in H; [|done]. by destruct H. Qed.
End NeighborFacts.

Lemma nbrs_sym c c' : c ∈ all_cells → c' ∈ nbrs c → c ∈ nbrs c'.
Proof.
  intros Hc Hc'. pose proof (nbrs_in_grid c Hc c' Hc') as Hg.
  apply nbrs_related; [done..|]. apply related_sym. by apply nbrs_related.
Qed.

(** ** The insertion-ordered dict *)

Lemma dict_get_set {V} k k' (v : V) d :
  dict_get k (dict_set k' v d) = if decide (k = k') then Some v else dict_get k d.
Proof.
  induction d as [|[k0 v0] d IH]; simpl.
  - repeat case_decide; congruence.
  - repeat (case_decide; simpl); try congruence.
Qed.

Lemma dict_set_keys {V} k (v : V) d : k ∈ map fst d → map fst (dict_set k v d) = map fst d.
Proof.
  induction d as [|[k0 v0] d IH]; simpl; intros Hk.
  - by apply elem_of_nil in Hk.
  - case_decide; simpl; [done|]. f_equal. apply IH.
    apply elem_of_cons in Hk as [?|?]; congruence.
Qed.

Lemma dict_set_set {V} k (v v' : V) d : dict_set k v' (dict_set k v d) = dict_set k v' d.
Proof.
  induction d as [|[k0 v0] d IH]; simpl.
  - by rewrite decide_True.
  - case_decide; simpl; case_decide; try congruence.
Qed.

Lemma dict_get_is_Some {V} k (d : list (cell * V)) : is_Some (dict_get k d) ↔ k ∈ map fst d.
Proof.
  induction d as [|[k0 v0] d IH]; simpl.
  - rewrite elem_of_nil. split; [by intros [? ?]|done].
  - rewrite elem_of_cons. case_decide; subst.
    + split; eauto.
    + rewrite IH. split; [by right|]. by intros [?|?].
Qed.

Lemma dict_set_fresh {V} k (v : V) d : k ∉ map fst d → dict_set k v d = d ++ [(k, v)].
Proof.
  induction d as [|[k0 v0] d IH]; simpl; [done|].
  rewrite not_elem_of_cons. intros [Hne Hk]. rewrite decide_False by done. by rewrite IH.
Qed.

Lemma dict_get_tabulate {V} (f : cell → V) (l : list cell) k :
  dict_get k (map (fun c => (c, f c)) l) = if decide (k ∈ l) then Some (f k) else None.
Proof.
  induction l as [|c l IH]; simpl; [done|].
  destruct (decide (c = k)) as [->|Hne].
  - by rewrite decide_True by left.
  - rewrite IH. destruct (decide (k ∈ l)).
    + by rewrite decide_True by by right.
    + rewrite decide_False; [done|]. by intros [?|?]%elem_of_cons.
Qed.

(** ** Views of the object *)

(** The domain of a cell ([self.domains[c]], empty where the key is absent). *)
Definition dom_of (self : SudokuCSP) (c : cell) : list Z :=
  default [] (dict_get c (domains self)).

Definition set_dom (self : SudokuCSP) (c : cell) (d : list Z) : SudokuCSP :=
  {| puzzle := puzzle self;
     domains := dict_set c d (domains self);
     neighbors := neighbors self |}.

(** The objects that [__init__] builds and [ac3] maintains. *)
Record csp_wf (self : SudokuCSP) : Prop := {
  wf_keys : map fst (domains self) = all_cells;
  wf_NoDup : ∀ c, NoDup (dom_of self c);
  wf_neighbors : neighbors self = initialize_neighbors
}.

Lemma dom_of_set_dom self c d c' :
  dom_of (set_dom self c d) c' = if decide (c' = c) then d else dom_of self c'.
Proof. unfold dom_of, set_dom. simpl. rewrite dict_get_set. by case_decide. Qed.

Lemma set_dom_set_dom self c d d' : set_dom (set_dom self c d) c d' = set_dom self c d'.
Proof. unfold set_dom. simpl. by rewrite dict_set_set. Qed.

Lemma set_dom_wf self c d : csp_wf self → c ∈ all_cells → NoDup d → csp_wf (set_dom self c d).
Proof.
  intros [Hk Hn Hnb] Hc Hd. split; simpl.
  - rewrite dict_set_keys; [done|]. by rewrite Hk.
  - intros c'. rewrite dom_of_set_dom. by case_decide.
  - done.
Qed.

Lemma get_domain_wf self c :
  csp_wf self → c ∈ all_cells → get_domain c self = Returns (dom_of self c, self).
Proof.
  intros [Hk _ _] Hc. unfold get_domain, dom_of.
  destruct (dict_get c (domains self)) eqn:E; [done|].
  rewrite <-Hk in Hc. apply dict_get_is_Some in Hc as [? ?]. congruence.
Qed.

Lemma get_neighbors_wf self c :
  csp_wf self → c ∈ all_cells → get_neighbors c self = Returns (nbrs c, self).
Proof.
  intros [_ _ Hn] Hc. unfold get_neighbors. by rewrite Hn, nbrs_lookup.
Qed.

Lemma domain_remove_wf self c x :
  csp_wf self → c ∈ all_cells → x ∈ dom_of self c →
  domain_remove c x self
  = Returns (tt, set_dom self c (filter (fun y => y ≠ x) (dom_of self c))).
Proof.
  intros [Hk _ _] Hc Hx. unfold domain_remove, dom_of in *.
  destruct (dict_get c (domains self)) eqn:E; simpl in *.
  - by rewrite decide_True.
  - by apply elem_of_nil in Hx.
Qed.

(** ** [__init__] *)

(** A grid of nine rows of nine entries. *)
Definition shape9 (p : list (list Z)) : Prop :=
  length p = 9 ∧ Forall (fun row => length row = 9) p.

(** The entry of a grid at a cell ([0] outside the grid). *)
Definition grid_value (p : list (list Z)) (c : cell) : Z :=
  default 0%Z (p !! c.1 ≫= fun row => row !! c.2).

(** The domain that [initialize_domains] gives a cell holding [v]. *)
Definition initial_domain (v : Z) : list Z :=
  if decide (v = 0%Z) then full_domain else [v].

Lemma puzzle_at_shape9 {St} p i j (s : St) :
  shape9 p → i < 9 → j < 9 → puzzle_at p i j s = Returns (grid_value p (i, j), s).
Proof.
  intros [Hlen Hrows] Hi Hj. unfold puzzle_at, grid_value. simpl.
  destruct (p !! i) as [row|] eqn:Hrow.
  - simpl. rewrite Forall_forall in Hrows.
    assert (length row = 9) as Hr by (apply Hrows; by eapply list_elem_of_lookup_2).
    destruct (row !! j) eqn:Hv; [done|]. apply lookup_ge_None in Hv. lia.
  - apply lookup_ge_None in Hrow. lia.
Qed.

Section InitializeDomains.
Context (p : list (list Z)) (Hp : shape9 p).

Let entry (c : cell) : cell * list Z := (c, initial_domain (grid_value p c)).

Lemma initialize_domains_row i js : ∀ d,
  i < 9 → Forall (fun j => j < 9) js →
  NoDup (map fst d ++ map (fun j => (i, j)) js) →
  foldM (fun (_ : unit) j =>
      v <- puzzle_at p i j ;;
      if decide (v = 0%Z)
      then fun domains => Returns (tt, dict_set (i, j) full_domain domains)
      else v' <- puzzle_at p i j ;;
           fun domains => Returns (tt, dict_set (i, j) [v'] domains))
    js tt d
  = Returns (tt, d ++ map (fun j => entry (i, j)) js).
Proof.
  induction js as [|j js IH]; intros d Hi Hjs Hnd; simpl.
  - by rewrite app_nil_r.
  - apply Forall_cons in Hjs as [Hj Hjs].
    assert ((i, j) ∉ map fst d) as Hfresh.
    { apply NoDup_app in Hnd as (_ & Hd & _). intros Hin. apply (Hd _ Hin). left. }
    assert (NoDup ((map fst d ++ [(i, j)]) ++ map (fun j => (i, j)) js)) as Hnd'.
    { by rewrite <-app_assoc. }
    rewrite !bind_eq, puzzle_at_shape9 by done.
    unfold entry at 1, initial_domain. case_decide.
    + rewrite dict_set_fresh by done. rewrite IH; [|done|done|by rewrite map_app].
      by rewrite <-app_assoc.
    + rewrite bind_eq, puzzle_at_shape9 by done.
      rewrite dict_set_fresh by done. rewrite IH; [|done|done|by rewrite map_app].
      by rewrite <-app_assoc.
Qed.

Lemma initialize_domains_rows rows : ∀ d,
  Forall (fun i => i < 9) rows →
  NoDup (map fst d ++ flat_map (fun i => map (fun j => (i, j)) range9) rows) →
  foldM (fun (_ : unit) i =>
    foldM (fun (_ : unit) j =>
      v <- puzzle_at p i j ;;
      if decide (v = 0%Z)
      then fun domains => Returns (tt, dict_set (i, j) full_domain domains)
      else v' <- puzzle_at p i j ;;
           fun domains => Returns (tt, dict_set (i, j) [v'] domains))
      range9 tt)
    rows tt d
  = Returns (tt, d ++ map entry (flat_map (fun i => map (fun j => (i, j)) range9) rows)).
Proof.
  induction rows as [|i rows IH]; intros d Hrows Hnd.
  - simpl. by rewrite app_nil_r.
  - apply Forall_cons in Hrows as [Hi Hrows].
    change (flat_map ?f (i :: rows)) with (f i ++ flat_map f rows) in *.
    rewrite foldM_cons, initialize_domains_row; [|done| |].
    + rewrite IH; [|done|].
      * by rewrite map_app, map_map, app_assoc.
      * by rewrite map_app, map_map, <-app_assoc.
    + apply Forall_forall. intros j Hj%list_elem_of_In%in_seq. lia.
    + rewrite app_assoc in Hnd. by apply NoDup_app in Hnd as (? & _ & _).
Qed.

Lemma initialize_domains_shape9 : initialize_domains p = Returns (map entry all_cells).
Proof.
  unfold initialize_domains.
  pose proof (initialize_domains_rows range9 []) as Hrows.
  fold all_cells_def in Hrows. rewrite <-all_cells_unseal in Hrows.
  rewrite Hrows; [done| |].
  - apply Forall_forall. intros j Hj%list_elem_of_In%in_seq. lia.
  - apply NoDup_all_cells.
Qed.

Lemma new_SudokuCSP_shape9 :
  new_SudokuCSP p
  = Returns {| puzzle := p; domains := map entry all_cells; neighbors := initialize_neighbors |}.
Proof. unfold new_SudokuCSP. by rewrite initialize_domains_shape9. Qed.
End InitializeDomains.

(** What [__init__] builds from a well-shaped grid. *)
Lemma new_SudokuCSP_spec p self :
  shape9 p → new_SudokuCSP p = Returns self →
  csp_wf self ∧ puzzle self = p ∧
  ∀ c, c ∈ all_cells → dom_of self c = initial_domain (grid_value p c).
Proof.
  intros Hp Hnew. rewrite new_SudokuCSP_shape9 in Hnew by done. simplify_eq.
  assert (∀ c, dom_of {| puzzle := p;
                         domains := map (fun c => (c, initial_domain (grid_value p c))) all_cells;
                         neighbors := initialize_neighbors |} c
               = if decide (c ∈ all_cells) then initial_domain (grid_value p c) else []) as Hdom.
  { intros c. unfold dom_of. simpl. rewrite dict_get_tabulate. by case_decide. }
  split_and!; [split; simpl| |].
  - rewrite map_map. simpl. apply map_id.
  - intros c. rewrite Hdom. case_decide; [|constructor].
    unfold initial_domain. case_decide.
    + apply (bool_decide_unpack _). by vm_compute.
    + apply NoDup_singleton.
  - done.
  - done.
  - intros c Hc. by rewrite Hdom, decide_True.
Qed.

(** ** [revise] *)

Lemma constraint_satisfied_spec x y : constraint_satisfied x y = true ↔ x ≠ y.
Proof. unfold constraint_satisfied. rewrite negb_true_iff. apply Z.eqb_neq. Qed.

(** A value of [xi] is supported when [xj] can take a different value. *)
Definition supported (dj : list Z) (x : Z) : bool := existsb (constraint_satisfied x) dj.

Lemma supported_spec dj x : supported dj x = true ↔ ∃ y, y ∈ dj ∧ x ≠ y.
Proof.
  unfold supported. rewrite existsb_exists. split.
  - intros (y & Hy & Hc). exists y. by rewrite list_elem_of_In, <-constraint_satisfied_spec.
  - intros (y & Hy & Hc). exists y. by rewrite <-list_elem_of_In, constraint_satisfied_spec.
Qed.

(** What [revise xi xj] leaves of the domain [di] of [xi]. *)
Definition revised_domain (di dj : list Z) : list Z := List.filter (supported dj) di.

Lemma elem_of_revised_domain di dj x :
  x ∈ revised_domain di dj ↔ x ∈ di ∧ supported dj x = true.
Proof. unfold revised_domain. by rewrite !list_elem_of_In, filter_In. Qed.

Lemma revised_domain_NoDup di dj : NoDup di → NoDup (revised_domain di dj).
Proof. rewrite !NoDup_ListNoDup. apply List.NoDup_filter. Qed.

Lemma revised_domain_length di dj : length (revised_domain di dj) ≤ length di.
Proof. apply List.filter_length_le. Qed.

Lemma revised_domain_id di dj : forallb (supported dj) di = true → revised_domain di dj = di.
Proof.
  unfold revised_domain. induction di as [|x di IH]; simpl; [done|].
  intros [Hx Hd]%andb_true_iff. rewrite Hx. f_equal. auto.
Qed.

Lemma revised_domain_shrinks di dj :
  forallb (supported dj) di = false → length (revised_domain di dj) < length di.
Proof.
  unfold revised_domain. induction di as [|x di IH]; simpl; [done|].
  destruct (supported dj x); simpl.
  - intros H. apply IH in H. lia.
  - intros _. pose proof (List.filter_length_le (supported dj) di). lia.
Qed.

Lemma filter_ne_not_elem `{EqDecision A} (x : A) (l : list A) : x ∉ l → filter (fun y => y ≠ x) l = l.
Proof.
  induction l as [|y l IH]; [done|]. rewrite not_elem_of_cons. intros [Hne Hl].
  rewrite filter_cons_True by congruence. by rewrite IH.
Qed.

Lemma filter_ne_middle (x : Z) (pre post : list Z) :
  NoDup (pre ++ x :: post) → filter (fun y => y ≠ x) (pre ++ x :: post) = pre ++ post.
Proof.
  intros Hnd. apply NoDup_app in Hnd as (_ & Hx & Hpost).
  apply NoDup_cons in Hpost as [Hpost _].
  rewrite filter_app, filter_cons_False by naive_solver.
  rewrite !filter_ne_not_elem; [done|done|].
  intros Hin. apply (Hx x Hin). left.
Qed.

Section Revise.
Context (xi xj : cell) (Hxi : xi ∈ all_cells) (Hxj : xj ∈ all_cells) (Hne : xi ≠ xj).

(** The loop of [revise], after the values in [pre] and before those in [post]. *)
Lemma revise_loop post : ∀ pre self revised,
  csp_wf self →
  dom_of self xi = pre ++ post →
  foldM (fun revised x =>
    dj <- get_domain xj ;;
    if negb (existsb (constraint_satisfied x) dj)
    then _ <- domain_remove xi x ;; ret true
    else ret revised) post revised self
  = Returns (revised || negb (forallb (supported (dom_of self xj)) post),
             if forallb (supported (dom_of self xj)) post then self
             else set_dom self xi (pre ++ revised_domain post (dom_of self xj))).
Proof.
  induction post as [|x post IH]; intros pre self revised Hwf Hdom; simpl.
  - unfold ret. by rewrite orb_false_r.
  - rewrite !bind_eq, get_domain_wf by done.
    fold (supported (dom_of self xj) x).
    destruct (supported (dom_of self xj) x) eqn:Hx; simpl.
    + rewrite (IH (pre ++ [x])); [|done|by rewrite <-app_assoc].
      unfold revised_domain. simpl. by rewrite <-app_assoc.
    + pose proof (wf_NoDup _ Hwf xi) as Hnd. rewrite Hdom in Hnd.
      rewrite bind_eq, domain_remove_wf; [|done..|rewrite Hdom, elem_of_app; right; left].
      rewrite Hdom, filter_ne_middle by done.
      assert (NoDup (pre ++ post)) as Hnd'.
      { apply NoDup_app in Hnd as (? & Hx' & [? ?]%NoDup_cons).
        apply NoDup_app. split_and!; [done| |done].
        intros y ? ?. apply (Hx' y); [done|by right]. }
      rewrite ret_eq.
      rewrite (IH pre); [| by apply set_dom_wf | by rewrite dom_of_set_dom, decide_True].
      rewrite dom_of_set_dom, decide_False by done. f_equal. f_equal.
      { by rewrite orb_true_r. }
      destruct (forallb (supported (dom_of self xj)) post) eqn:Hall.
      * by rewrite revised_domain_id.
      * by rewrite set_dom_set_dom.
Qed.

(** [revise] prunes the unsupported values of [xi] and reports whether it
    removed any; it touches nothing when there is none to remove. *)
Lemma revise_wf self :
  csp_wf self →
  revise xi xj self
  = if forallb (supported (dom_of self xj)) (dom_of self xi)
    then Returns (false, self)
    else Returns (true, set_dom self xi (revised_domain (dom_of self xi) (dom_of self xj))).
Proof.
  intros Hwf. unfold revise. rewrite bind_eq, get_domain_wf by done.
  rewrite (revise_loop _ []) by done. simpl.
  by destruct (forallb _ _).
Qed.
End Revise.

(** ** The loop of [ac3] *)

(** The arcs that [ac3] ever holds: a cell of the grid and one of its neighbours. *)
Definition valid_arc (a : arc) : Prop := a.1 ∈ all_cells ∧ a.2 ∈ nbrs a.1.

(** The loop state: the queue, the lengths recorded so far, the object. *)
Abbreviation ac3_state := (list arc * list Z * SudokuCSP)%type (only parsing).

Definition ac3_inv (st : ac3_state) : Prop := csp_wf st.2 ∧ Forall valid_arc st.1.1.

Lemma filter_ne_length (xj : cell) (l : list cell) :
  NoDup l → xj ∈ l → S (length (filter (fun c => c ≠ xj) l)) = length l.
Proof.
  induction l as [|y l IH]; intros Hnd Hin; [by apply elem_of_nil in Hin|].
  apply NoDup_cons in Hnd as [Hy Hnd]. destruct (decide (y = xj)) as [->|Hne].
  - rewrite filter_cons_False by naive_solver. by rewrite filter_ne_not_elem.
  - rewrite filter_cons_True by done. simpl. f_equal. apply IH; [done|].
    apply elem_of_cons in Hin as [?|?]; congruence.
Qed.

Lemma revised_domain_sublist di dj : revised_domain di dj `sublist_of` di.
Proof.
  unfold revised_domain. induction di as [|x di IH]; simpl; [done|].
  destruct (supported dj x); by constructor.
Qed.

Lemma forallb_supported di dj :
  forallb (supported dj) di = true ↔ ∀ x, x ∈ di → ∃ y, y ∈ dj ∧ x ≠ y.
Proof.
  rewrite forallb_forall. setoid_rewrite <-list_elem_of_In.
  by setoid_rewrite supported_spec.
Qed.

(** The number of values left in the store. *)
Definition total (self : SudokuCSP) : nat :=
  sum_list (map (fun c => length (dom_of self c)) all_cells).

Lemma sum_list_update (f g : cell → nat) (l : list cell) x :
  NoDup l → x ∈ l → (∀ c, c ≠ x → g c = f c) →
  sum_list (map g l) + f x = sum_list (map f l) + g x.
Proof.
  intros Hnd Hx Hfg. induction l as [|y l IH]; [by apply elem_of_nil in Hx|].
  apply NoDup_cons in Hnd as [Hy Hnd]. simpl.
  destruct (decide (y = x)) as [->|Hne].
  - assert (map g l = map f l) as ->; [|lia].
    apply map_ext_in. intros c Hc%list_elem_of_In. apply Hfg. by intros ->.
  - rewrite (Hfg y Hne). apply elem_of_cons in Hx as [?|Hx]; [congruence|].
    specialize (IH Hnd Hx). lia.
Qed.

Lemma total_set_dom self xi d :
  xi ∈ all_cells → total (set_dom self xi d) + length (dom_of self xi) = total self + length d.
Proof.
  intros Hxi. unfold total.
  rewrite (sum_list_update (fun c => length (dom_of self c))
             (fun c => length (dom_of (set_dom self xi d) c)) all_cells xi);
    [|apply NoDup_all_cells|done|].
  - by rewrite dom_of_set_dom, decide_True.
  - intros c Hc. by rewrite dom_of_set_dom, decide_False.
Qed.

(** An arc is consistent when every value of its first cell is supported. *)
Definition arc_consistent (self : SudokuCSP) (a : arc) : Prop :=
  ∀ x, x ∈ dom_of self a.1 → ∃ y, y ∈ dom_of self a.2 ∧ x ≠ y.

(** A candidate solution: a value per cell, different on neighbours ... *)
Definition proper (σ : cell → Z) : Prop :=
  ∀ c c', c ∈ all_cells → c' ∈ nbrs c → σ c ≠ σ c'.

(** ... and taken from the domains of the store. *)
Definition within (σ : cell → Z) (self : SudokuCSP) : Prop :=
  ∀ c, c ∈ all_cells → σ c ∈ dom_of self c.

Definition nonempty (self : SudokuCSP) : Prop :=
  ∀ c, c ∈ all_cells → dom_of self c ≠ [].

Section AC3.
Context (iter_cells : list cell → list cell).
Context (iter_cells_perm : ∀ s, iter_cells s ≡ₚ s).

(** The arcs that a successful pruning of [xi] against [xj] puts back. *)
Definition requeued (xi xj : cell) : list arc :=
  map (fun xk => (xk, xi)) (iter_cells (filter (fun c => c ≠ xj) (nbrs xi))).

Lemma elem_of_requeued xi xj a :
  a ∈ requeued xi xj ↔ a.2 = xi ∧ a.1 ∈ nbrs xi ∧ a.1 ≠ xj.
Proof.
  unfold requeued. rewrite list_elem_of_fmap. split.
  - intros (xk & -> & Hxk). rewrite iter_cells_perm in Hxk.
    apply list_elem_of_filter in Hxk. naive_solver.
  - intros (<- & Hn & Hne). exists a.1. split; [by destruct a|].
    rewrite iter_cells_perm. by apply list_elem_of_filter.
Qed.

Lemma requeued_length xi xj : xi ∈ all_cells → xj ∈ nbrs xi → length (requeued xi xj) = 19.
Proof.
  intros Hxi Hxj. unfold requeued. rewrite length_map, iter_cells_perm.
  pose proof (filter_ne_length xj (nbrs xi) (nbrs_NoDup xi Hxi) Hxj) as H.
  rewrite nbrs_length in H by done. lia.
Qed.

Lemma requeued_valid xi xj : xi ∈ all_cells → Forall valid_arc (requeued xi xj).
Proof.
  intros Hxi. apply Forall_forall. intros [xk xi'] (Heq & Hn & _)%elem_of_requeued.
  simpl in *. subst. split; simpl; [by eapply nbrs_in_grid|by apply nbrs_sym].
Qed.

(** One turn of the loop on an object as [ac3] maintains it. *)
Lemma ac3_body_wf self xi xj rest queue_lengths :
  csp_wf self → xi ∈ all_cells → xj ∈ nbrs xi →
  ac3_body iter_cells ((xi, xj) :: rest) queue_lengths self
  = let lengths := queue_lengths ++ [Z.of_nat (S (length rest))] in
    if forallb (supported (dom_of self xj)) (dom_of self xi)
    then Returns (inl (rest, lengths), self)
    else
      let d := revised_domain (dom_of self xi) (dom_of self xj) in
      match d with
      | [] => Returns (inr (false, lengths), set_dom self xi d)
      | _ :: _ => Returns (inl (rest ++ requeued xi xj, lengths), set_dom self xi d)
      end.
Proof.
  intros Hwf Hxi Hxj.
  assert (xj ∈ all_cells) as Hxj' by by eapply nbrs_in_grid.
  assert (xi ≠ xj) as Hne by (intros ->; by eapply nbrs_irrefl).
  unfold ac3_body. rewrite bind_eq, revise_wf by done.
  destruct (forallb _ _) eqn:Hall; [done|].
  pose proof (wf_NoDup _ Hwf xi) as Hnd.
  assert (csp_wf (set_dom self xi (revised_domain (dom_of self xi) (dom_of self xj)))) as Hwf'
    by by apply set_dom_wf, revised_domain_NoDup.
  rewrite bind_eq, get_domain_wf by done.
  rewrite dom_of_set_dom, decide_True by done. simpl.
  destruct (revised_domain _ _) eqn:Hd; [done|].
  rewrite bind_eq, get_neighbors_wf by done. done.
Qed.

(** A turn of the loop that goes on to the next one. *)
Definition ac3_step (st st' : ac3_state) : Prop :=
  ac3_body iter_cells st.1.1 st.1.2 st.2 = Returns (inl st'.1, st'.2).

Lemma ac3_step_inv st st' : ac3_inv st → ac3_step st st' → ac3_inv st'.
Proof.
  destruct st as [[q ls] s], st' as [[q' ls'] s']. unfold ac3_inv, ac3_step. simpl.
  intros [Hwf Hq] Hstep. destruct q as [|[xi xj] rest]; [done|].
  apply Forall_cons in Hq as [[Hxi Hxj] Hrest]. simpl in *.
  rewrite ac3_body_wf in Hstep by done. simpl in Hstep.
  destruct (forallb _ _); [by simplify_eq|].
  destruct (revised_domain _ _) eqn:Hd; simplify_eq. split.
  - apply set_dom_wf; [done..|]. rewrite <-Hd. apply revised_domain_NoDup, Hwf.
  - apply Forall_app. split; [done|by apply requeued_valid].
Qed.

(** An invariant of the turns holds at the turn that returns. *)
Lemma ac3_loop_ind (P : ac3_state → Prop) fuel : ∀ queue queue_lengths self result self',
  (∀ st st', P st → ac3_step st st' → P st') →
  P (queue, queue_lengths, self) →
  ac3_loop iter_cells fuel queue queue_lengths self = Returns (result, self') →
  ∃ st, P st ∧ rtc ac3_step (queue, queue_lengths, self) st ∧
        ac3_body iter_cells st.1.1 st.1.2 st.2 = Returns (inr result, self').
Proof.
  induction fuel as [|fuel IH]; intros q ls s r s' HP H0 Hrun; [done|].
  simpl in Hrun. rewrite bind_eq in Hrun.
  destruct (ac3_body iter_cells q ls s) as [[[[q1 ls1]|r1] s1]| |] eqn:Hbody; [| |done..].
  - assert (ac3_step (q, ls, s) (q1, ls1, s1)) as Hstep by done.
    destruct (IH q1 ls1 s1 r s' HP (HP _ _ H0 Hstep) Hrun) as (st & ? & ? & ?).
    exists st. split_and!; [done| |done]. by eapply rtc_l.
  - rewrite ret_eq in Hrun. simplify_eq. by exists (q, ls, s).
Qed.

Lemma ac3_loop_fuel_mono fuel : ∀ fuel' queue queue_lengths self r,
  fuel ≤ fuel' →
  ac3_loop iter_cells fuel queue queue_lengths self = Returns r →
  ac3_loop iter_cells fuel' queue queue_lengths self = Returns r.
Proof.
  induction fuel as [|fuel IH]; intros fuel' q ls s r Hle Hrun; [done|].
  destruct fuel' as [|fuel']; [lia|]. simpl in *. rewrite bind_eq in *.
  destruct (ac3_body iter_cells q ls s) as [[[[q1 ls1]|r1] s1]| |]; [|done..].
  apply IH; [lia|done].
Qed.

(** The two ways a turn goes on: nothing pruned, or [xi] pruned to a
    non-empty domain and the arcs into [xi] put back. *)
Lemma ac3_step_cases queue queue_lengths self st' :
  ac3_inv (queue, queue_lengths, self) →
  ac3_step (queue, queue_lengths, self) st' →
  ∃ xi xj rest,
    queue = (xi, xj) :: rest ∧ xi ∈ all_cells ∧ xj ∈ nbrs xi ∧ xj ∈ all_cells ∧ xi ≠ xj ∧
    st'.1.2 = queue_lengths ++ [Z.of_nat (length queue)] ∧
    ((forallb (supported (dom_of self xj)) (dom_of self xi) = true ∧
      st'.1.1 = rest ∧ st'.2 = self) ∨
     (forallb (supported (dom_of self xj)) (dom_of self xi) = false ∧
      revised_domain (dom_of self xi) (dom_of self xj) ≠ [] ∧
      st'.1.1 = rest ++ requeued xi xj ∧
      st'.2 = set_dom self xi (revised_domain (dom_of self xi) (dom_of self xj)))).
Proof.
  destruct st' as [[q' ls'] s']. unfold ac3_inv, ac3_step. simpl.
  intros [Hwf Hq] Hstep. destruct queue as [|[xi xj] rest].
  { unfold ac3_body in Hstep. by rewrite ret_eq in Hstep. }
  apply Forall_cons in Hq as [[Hxi Hxj] Hrest]. simpl in Hxi, Hxj.
  rewrite ac3_body_wf in Hstep by done. simpl in Hstep.
  exists xi, xj, rest.
  assert (xj ∈ all_cells) by by eapply nbrs_in_grid.
  assert (xi ≠ xj) by (intros ->; by eapply nbrs_irrefl).
  destruct (forallb _ _).
  - simplify_eq. split_and!; try done. by left.
  - destruct (revised_domain _ _) eqn:Hd; simplify_eq.
    split_and!; try done. by right.
Qed.

(** The two ways the loop ends: the queue is empty, or [xi] was pruned
    to the empty domain. *)
Lemma ac3_final_cases queue queue_lengths self result self' :
  ac3_inv (queue, queue_lengths, self) →
  ac3_body iter_cells queue queue_lengths self = Returns (inr result, self') →
  (queue = [] ∧ result = (true, queue_lengths) ∧ self' = self) ∨
  (∃ xi xj rest,
    queue = (xi, xj) :: rest ∧ xi ∈ all_cells ∧ xj ∈ nbrs xi ∧
    revised_domain (dom_of self xi) (dom_of self xj) = [] ∧
    dom_of self xi ≠ [] ∧
    result = (false, queue_lengths ++ [Z.of_nat (length queue)]) ∧
    self' = set_dom self xi []).
Proof.
  unfold ac3_inv. simpl. intros [Hwf Hq] Hbody. destruct queue as [|[xi xj] rest].
  { unfold ac3_body in Hbody. rewrite ret_eq in Hbody. simplify_eq. by left. }
  apply Forall_cons in Hq as [[Hxi Hxj] Hrest]. simpl in Hxi, Hxj.
  rewrite ac3_body_wf in Hbody by done. simpl in Hbody.
  destruct (forallb _ _) eqn:Hall; [by simplify_eq|].
  destruct (revised_domain _ _) eqn:Hd; simplify_eq.
  right. exists xi, xj, rest. split_and!; try done.
  intros Hnil. by rewrite Hnil in Hall.
Qed.

(** *** Invariants of the loop *)

(** Domains only lose values. *)
Lemma ac3_step_shrinks st st' c :
  ac3_inv st → ac3_step st st' → dom_of st'.2 c `sublist_of` dom_of st.2 c.
Proof.
  destruct st as [[q ls] s], st' as [[q' ls'] s']. intros Hinv Hstep.
  destruct (ac3_step_cases _ _ _ _ Hinv Hstep)
    as (xi & xj & rest & -> & Hxi & Hxj & Hxj' & Hne & Hls & [(Hall & Hq & ->)|(Hall & Hd & Hq & ->)]);
    simpl; [done|].
  rewrite dom_of_set_dom. case_decide; [subst|done]. apply revised_domain_sublist.
Qed.

Lemma ac3_steps_shrink st st' :
  ac3_inv st → rtc ac3_step st st' →
  ac3_inv st' ∧ ∀ c, dom_of st'.2 c `sublist_of` dom_of st.2 c.
Proof.
  intros Hinv Hsteps. induction Hsteps as [st|st st1 st2 Hstep Hsteps IH]; [done|].
  destruct (IH (ac3_step_inv _ _ Hinv Hstep)) as [Hinv2 Hsub]. split; [done|].
  intros c. etrans; [apply Hsub|]. by apply ac3_step_shrinks.
Qed.

(** Every arc is waiting in the queue or consistent. *)
Definition pending_inv (st : ac3_state) : Prop :=
  ∀ a, valid_arc a → a ∈ st.1.1 ∨ arc_consistent st.2 a.

Lemma ac3_step_pending st st' :
  ac3_inv st → pending_inv st → ac3_step st st' → pending_inv st'.
Proof.
  destruct st as [[q ls] s], st' as [[q' ls'] s']. intros Hinv Hpend Hstep.
  destruct (ac3_step_cases _ _ _ _ Hinv Hstep)
    as (xi & xj & rest & -> & Hxi & Hxj & Hxj' & Hne & Hls & [(Hall & Hq & Hs)|(Hall & Hd & Hq & Hs)]);
    intros [a1 a2] Ha; rewrite Hq, Hs; simpl.
  - destruct (Hpend _ Ha) as [[?|?]%elem_of_cons|?]; simpl in *; simplify_eq; auto.
    right. exact (proj1 (forallb_supported _ _) Hall).
  - destruct Ha as [Ha1 Ha2]. simpl in Ha1, Ha2.
    assert (a2 ∈ all_cells) as Ha2' by by eapply nbrs_in_grid.
    assert (a1 ≠ a2) as Ha12 by (intros ->; by eapply nbrs_irrefl).
    unfold arc_consistent. simpl. rewrite !dom_of_set_dom.
    destruct (decide ((a1, a2) = (xi, xj))) as [?|Hneq]; simplify_eq.
    { right. rewrite decide_True, decide_False by done.
      intros x [_ Hx]%elem_of_revised_domain. by apply supported_spec. }
    destruct (Hpend (a1, a2)) as [[?|?]%elem_of_cons|Hcons]; [done|done| |].
    { left. apply elem_of_app. by left. }
    unfold arc_consistent in Hcons. simpl in Hcons.
    destruct (decide (a2 = xi)) as [->|Hne2].
    + rewrite decide_False by done.
      destruct (decide (a1 = xj)) as [->|Hne1].
      * right. intros y Hy. destruct (Hcons y Hy) as (x & Hx & Hxy).
        exists x. split; [|done]. apply elem_of_revised_domain. split; [done|].
        apply supported_spec. eauto.
      * left. apply elem_of_app. right. apply elem_of_requeued. simpl.
        split_and!; [done| |done]. by apply nbrs_sym.
    + right. case_decide; subst.
      * intros x [Hx _]%elem_of_revised_domain. auto.
      * done.
Qed.

(** A candidate solution within the domains stays within them. *)
Lemma ac3_step_within σ st st' :
  proper σ → ac3_inv st → within σ st.2 → ac3_step st st' → within σ st'.2.
Proof.
  destruct st as [[q ls] s], st' as [[q' ls'] s']. intros Hσ Hinv Hin Hstep.
  destruct (ac3_step_cases _ _ _ _ Hinv Hstep)
    as (xi & xj & rest & -> & Hxi & Hxj & Hxj' & Hne & Hls & [(Hall & Hq & ->)|(Hall & Hd & Hq & ->)]);
    [done|].
  intros c Hc. simpl. rewrite dom_of_set_dom. case_decide; [subst|by apply Hin].
  apply elem_of_revised_domain. split; [by apply Hin|].
  apply supported_spec. exists (σ xj). split; [by apply Hin|by apply Hσ].
Qed.

Lemma ac3_step_nonempty st st' :
  ac3_inv st → nonempty st.2 → ac3_step st st' → nonempty st'.2.
Proof.
  destruct st as [[q ls] s], st' as [[q' ls'] s']. intros Hinv Hin Hstep.
  destruct (ac3_step_cases _ _ _ _ Hinv Hstep)
    as (xi & xj & rest & -> & Hxi & Hxj & Hxj' & Hne & Hls & [(Hall & Hq & ->)|(Hall & Hd & Hq & ->)]);
    [done|].
  intros c Hc. simpl. rewrite dom_of_set_dom. case_decide; [done|by apply Hin].
Qed.

(** Each turn takes an arc off the queue; a pruning turn puts 19 back and
    takes at least one value out of the store. *)
Lemma ac3_step_measure st st' :
  ac3_inv st → ac3_step st st' →
  (length st'.1.1 + 1 = length st.1.1 ∧ total st'.2 = total st.2) ∨
  (length st'.1.1 = length st.1.1 + 18 ∧ total st'.2 < total st.2).
Proof.
  destruct st as [[q ls] s], st' as [[q' ls'] s']. intros Hinv Hstep.
  destruct (ac3_step_cases _ _ _ _ Hinv Hstep)
    as (xi & xj & rest & -> & Hxi & Hxj & Hxj' & Hne & Hls & [(Hall & Hq & Hs)|(Hall & Hd & Hq & Hs)]);
    rewrite Hq, Hs; simpl.
  - left. lia.
  - right. rewrite length_app, requeued_length by done. split; [lia|].
    pose proof (total_set_dom s xi (revised_domain (dom_of s xi) (dom_of s xj)) Hxi).
    pose proof (revised_domain_shrinks _ _ Hall). lia.
Qed.

(** The loop returns within [length queue + 20 * total] turns. *)
Lemma ac3_loop_terminates fuel : ∀ queue queue_lengths self,
  ac3_inv (queue, queue_lengths, self) →
  length queue + 20 * total self < fuel →
  ∃ result self', ac3_loop iter_cells fuel queue queue_lengths self = Returns (result, self').
Proof.
  induction fuel as [|fuel IH]; intros q ls s Hinv Hfuel; [lia|].
  simpl. rewrite bind_eq.
  destruct (ac3_body iter_cells q ls s) as [[[[q1 ls1]|r1] s1]| |] eqn:Hbody.
  - assert (ac3_step (q, ls, s) (q1, ls1, s1)) as Hstep by done.
    apply IH; [by eapply ac3_step_inv|].
    destruct (ac3_step_measure _ _ Hinv Hstep) as [[? ?]|[? ?]]; simpl in *; lia.
  - rewrite ret_eq. eauto.
  - destruct Hinv as [Hwf Hq]. simpl in *. destruct q as [|[xi xj] rest].
    + unfold ac3_body in Hbody. by rewrite ret_eq in Hbody.
    + apply Forall_cons in Hq as [[Hxi Hxj] _].
      rewrite ac3_body_wf in Hbody by done. simpl in Hbody.
      by repeat case_match.
  - destruct Hinv as [Hwf Hq]. simpl in *. destruct q as [|[xi xj] rest].
    + unfold ac3_body in Hbody. by rewrite ret_eq in Hbody.
    + apply Forall_cons in Hq as [[Hxi Hxj] _].
      rewrite ac3_body_wf in Hbody by done. simpl in Hbody.
      by repeat case_match.
Qed.

(** *** [ac3] *)

(** The queue that [ac3] starts from: every arc of the constraint graph. *)
Definition all_arcs : list arc :=
  flat_map (fun xi => map (fun xj => (xi, xj)) (iter_cells (nbrs xi))) all_cells.

Lemma initial_queue_wf self :
  csp_wf self → initial_queue iter_cells self = Returns (all_arcs, self).
Proof.
  intros Hwf. unfold initial_queue, all_arcs. rewrite (wf_keys _ Hwf).
  change (flat_map ?f all_cells) with ([] ++ flat_map f all_cells) at 1.
  assert (Forall (fun c => c ∈ all_cells) all_cells) as Hall by by apply Forall_forall.
  revert Hall. generalize (@nil arc). generalize all_cells at 2 3 4.
  intros l. induction l as [|xi l IH]; intros acc Hl.
  - simpl. by rewrite app_nil_r.
  - apply Forall_cons in Hl as [Hxi Hl].
    rewrite foldM_cons, bind_eq, get_neighbors_wf, ret_eq by done.
    rewrite IH by done. simpl. by rewrite <-app_assoc.
Qed.

Lemma elem_of_all_arcs a : a ∈ all_arcs ↔ valid_arc a.
Proof.
  unfold all_arcs, valid_arc. rewrite list_elem_of_In, in_flat_map.
  setoid_rewrite in_map_iff. setoid_rewrite <-list_elem_of_In.
  setoid_rewrite iter_cells_perm. destruct a as [a1 a2]. simpl. split.
  - intros (xi & Hxi & xj & ? & Hxj). by simplify_eq.
  - intros [? ?]. exists a1. split; [done|]. by exists a2.
Qed.

Lemma all_arcs_length : length all_arcs = 1620.
Proof.
  unfold all_arcs. change 1620 with (20 * 81). rewrite <-length_all_cells.
  assert (Forall (fun c => c ∈ all_cells) all_cells) as Hall by by apply Forall_forall.
  revert Hall. generalize all_cells at 2 3 4. intros l.
  induction l as [|xi l IH]; intros Hl; [done|].
  apply Forall_cons in Hl as [Hxi Hl]. simpl.
  rewrite length_app, length_map, iter_cells_perm, nbrs_length, IH by done. lia.
Qed.

(** What a run of [ac3] that returns has done. *)
Lemma ac3_spec fuel self result lengths self' :
  csp_wf self →
  ac3 iter_cells fuel self = Returns ((result, lengths), self') →
  csp_wf self' ∧ puzzle self' = puzzle self ∧
  (∀ c, dom_of self' c `sublist_of` dom_of self c) ∧
  (∀ σ, proper σ → within σ self → result = true ∧ within σ self') ∧
  (result = true →
    (∀ a, valid_arc a → arc_consistent self' a) ∧ (nonempty self → nonempty self')).
Proof.
  intros Hwf Hrun. unfold ac3 in Hrun.
  rewrite bind_eq, initial_queue_wf in Hrun by done.
  pose (P := fun st : ac3_state =>
    ac3_inv st ∧ pending_inv st ∧ puzzle st.2 = puzzle self ∧
    (∀ c, dom_of st.2 c `sublist_of` dom_of self c) ∧
    (∀ σ, proper σ → within σ self → within σ st.2) ∧
    (nonempty self → nonempty st.2)).
  destruct (ac3_loop_ind P fuel all_arcs [] self (result, lengths) self')
    as ([[q ls] s] & HP & _ & Hlast); [| |done|].
  { intros st st' (Hinv & Hpend & Hpz & Hsub & Hin & Hne) Hstep. split_and!.
    - by eapply ac3_step_inv.
    - by eapply ac3_step_pending.
    - destruct st as [[q0 ls0] s0], st' as [[q1 ls1] s1].
      destruct (ac3_step_cases _ _ _ _ Hinv Hstep)
        as (? & ? & ? & _ & _ & _ & _ & _ & _ & [(_ & _ & Hs)|(_ & _ & _ & Hs)]);
        simpl in *; by rewrite Hs.
    - intros c. etrans; [by eapply ac3_step_shrinks|done].
    - intros σ Hσ Hσin. eapply ac3_step_within; eauto.
    - intros Hn. eapply ac3_step_nonempty; eauto. }
  { split_and!; try done.
    - split; [done|]. simpl. apply Forall_forall. intros a. apply elem_of_all_arcs.
    - intros a Ha. left. by apply elem_of_all_arcs. }
  destruct HP as (Hinv & Hpend & Hpz & Hsub & Hin & Hne). simpl in *.
  destruct (ac3_final_cases _ _ _ _ _ Hinv Hlast)
    as [(-> & ? & ->)|(xi & xj & rest & -> & Hxi & Hxj & Hd & Hdi & ? & ->)]; simplify_eq.
  - split_and!; try done.
    + by destruct Hinv.
    + intros σ Hσ Hσin. split; [done|]. by apply Hin.
    + intros _. split; [|done]. intros a Ha.
      destruct (Hpend a Ha) as [H%elem_of_nil|H]; done.
  - destruct Hinv as [Hwf' _]. simpl in Hwf'. split_and!; try done.
    + apply set_dom_wf; [done..|constructor].
    + intros c. rewrite dom_of_set_dom. case_decide; [apply sublist_nil_l|done].
    + intros σ Hσ Hσin. exfalso.
      assert (σ xi ∈ revised_domain (dom_of s xi) (dom_of s xj)) as Hx.
      { apply elem_of_revised_domain. split; [by apply Hin|].
        apply supported_spec. exists (σ xj). split; [|by apply Hσ].
        apply Hin; [done..|]. by eapply nbrs_in_grid. }
      rewrite Hd in Hx. by apply elem_of_nil in Hx.
Qed.

(** [ac3] returns when given enough fuel. *)
Lemma ac3_terminates fuel self :
  csp_wf self → 1620 + 20 * total self < fuel →
  ∃ result lengths self', ac3 iter_cells fuel self = Returns ((result, lengths), self').
Proof.
  intros Hwf Hfuel. unfold ac3. rewrite bind_eq, initial_queue_wf by done.
  destruct (ac3_loop_terminates fuel all_arcs [] self) as ([r ls] & s' & Hrun).
  - split; [done|]. simpl. apply Forall_forall. intros a. apply elem_of_all_arcs.
  - by rewrite all_arcs_length.
  - eauto.
Qed.

Lemma ac3_fuel_mono fuel fuel' self r :
  fuel ≤ fuel' → ac3 iter_cells fuel self = Returns r → ac3 iter_cells fuel' self = Returns r.
Proof.
  unfold ac3. rewrite !bind_eq. intros Hle.
  destruct (initial_queue iter_cells self) as [[q s]| |]; [|done..].
  by apply ac3_loop_fuel_mono.
Qed.

End AC3.

(** ** The methods of the search *)

Lemma foldM_pure {St A B} (body : B → A → M St B) (h : B → A → B) (l : list A) s : ∀ acc,
  (∀ acc x, x ∈ l → body acc x s = Returns (h acc x, s)) →
  foldM body l acc s = Returns (foldl h acc l, s).
Proof.
  induction l as [|x l IH]; intros acc Hbody; [done|].
  rewrite foldM_cons, Hbody by left. simpl. apply IH. intros ???. apply Hbody. by right.
Qed.

Lemma mapM_pure {St A B} (f : A → M St B) (g : A → B) (l : list A) s :
  (∀ x, x ∈ l → f x s = Returns (g x, s)) →
  mapM f l s = Returns (map g l, s).
Proof.
  induction l as [|x l IH]; intros Hf; [done|].
  simpl. rewrite bind_eq, Hf by left. rewrite bind_eq, IH; [done|].
  intros ??. apply Hf. by right.
Qed.

Lemma min_by_key_elem_of {A} (l : list (nat * A)) : ∀ best,
  min_by_key best l ∈ map snd (best :: l).
Proof.
  induction l as [|x l IH]; intros best; simpl; [left|].
  specialize (IH (if fst x <? fst best then x else best)).
  destruct (fst x <? fst best); simpl in IH.
  - by right.
  - apply elem_of_cons in IH as [->|?]; [left|]. by do 2 right.
Qed.

Lemma insert_by_key_perm {A} (x : nat * A) l : insert_by_key x l ≡ₚ x :: l.
Proof.
  induction l as [|y l IH]; simpl; [done|].
  destruct (fst x <=? fst y); [done|]. by rewrite IH, Permutation_swap.
Qed.

Lemma sort_by_key_perm {A} (l : list (nat * A)) : sort_by_key l ≡ₚ l.
Proof.
  unfold sort_by_key. induction l as [|x l IH]; simpl; [done|].
  by rewrite insert_by_key_perm, IH.
Qed.

(** The variables that [select_unassigned_variable] chooses from. *)
Definition unassigned (assignment : gmap cell Z) : list cell :=
  filter (fun v => assignment !! v = None) all_cells.

(** Its choice: the first unassigned cell with the fewest values left. *)
Definition mrv (self : SudokuCSP) (assignment : gmap cell Z) : option cell :=
  match map (fun var => (length (dom_of self var), var)) (unassigned assignment) with
  | [] => None
  | first :: others => Some (min_by_key first others)
  end.

Lemma mrv_Some self assignment var :
  mrv self assignment = Some var → var ∈ all_cells ∧ assignment !! var = None.
Proof.
  unfold mrv. destruct (map _ _) as [|first others] eqn:Hmap; [done|].
  intros [= <-]. pose proof (min_by_key_elem_of others first) as Hin.
  rewrite <-Hmap, map_map in Hin. simpl in Hin. rewrite map_id in Hin.
  by apply list_elem_of_filter in Hin as [? ?].
Qed.

Lemma mrv_None self assignment :
  mrv self assignment = None → ∀ c, c ∈ all_cells → is_Some (assignment !! c).
Proof.
  unfold mrv. destruct (map _ _) as [|first others] eqn:Hmap; [|done].
  intros _ c Hc. apply map_eq_nil in Hmap.
  destruct (assignment !! c) eqn:E; [done|].
  assert (c ∈ unassigned assignment) as Hin by by apply list_elem_of_filter.
  rewrite Hmap in Hin. by apply elem_of_nil in Hin.
Qed.

Section SearchMethods.
Context (iter_cells : list cell → list cell).
Context (iter_cells_perm : ∀ s, iter_cells s ≡ₚ s).

Lemma select_unassigned_variable_wf self assignment :
  csp_wf self →
  select_unassigned_variable assignment self
  = match mrv self assignment with
    | Some var => Returns (var, self)
    | None => Raises ValueError
    end.
Proof.
  intros Hwf. unfold select_unassigned_variable, mrv.
  rewrite (wf_keys _ Hwf). fold (unassigned assignment).
  rewrite bind_eq.
  rewrite (mapM_pure _ (fun var => (length (dom_of self var), var))).
  - by destruct (map _ _).
  - intros var [_ Hvar]%list_elem_of_filter. by rewrite bind_eq, get_domain_wf.
Qed.

(** Whether no neighbour of [var] is assigned [value]. *)
Definition consistent_with (assignment : gmap cell Z) (var : cell) (value : Z) : bool :=
  forallb (fun neighbor => negb (bool_decide (assignment !! neighbor = Some value)))
          (iter_cells (nbrs var)).

Lemma is_consistent_wf self var value assignment :
  csp_wf self → var ∈ all_cells →
  is_consistent iter_cells var value assignment self
  = Returns (consistent_with assignment var value, self).
Proof. intros Hwf Hvar. unfold is_consistent. by rewrite bind_eq, get_neighbors_wf. Qed.

Lemma consistent_with_spec assignment var value :
  consistent_with assignment var value = true
  ↔ ∀ c, c ∈ nbrs var → assignment !! c ≠ Some value.
Proof.
  unfold consistent_with. rewrite forallb_forall.
  setoid_rewrite <-list_elem_of_In. setoid_rewrite iter_cells_perm.
  setoid_rewrite negb_true_iff. by setoid_rewrite bool_decide_eq_false.
Qed.

(** The count that [count_constraints] returns. *)
Definition count_of (self : SudokuCSP) (var : cell) (value : Z) (assignment : gmap cell Z) : nat :=
  foldl (fun count neighbor =>
    match assignment !! neighbor with
    | None =>
        count + length (List.filter (fun neighbor_value =>
                                       negb (constraint_satisfied value neighbor_value))
                                    (dom_of self neighbor))
    | Some _ => count
    end) 0 (iter_cells (nbrs var)).

Lemma count_constraints_wf self var value assignment :
  csp_wf self → var ∈ all_cells →
  count_constraints iter_cells var value assignment self
  = Returns (count_of self var value assignment, self).
Proof.
  intros Hwf Hvar. unfold count_constraints, count_of.
  rewrite bind_eq, get_neighbors_wf by done.
  apply foldM_pure. intros count neighbor Hn. rewrite iter_cells_perm in Hn.
  destruct (assignment !! neighbor); [done|].
  rewrite bind_eq, get_domain_wf; [done..|]. by eapply nbrs_in_grid.
Qed.

(** The values that [least_constraining_values] returns, in its order. *)
Definition lcv (self : SudokuCSP) (var : cell) (assignment : gmap cell Z) : list Z :=
  map snd (sort_by_key (map (fun value => (count_of self var value assignment, value))
                            (dom_of self var))).

Lemma least_constraining_values_wf self var assignment :
  csp_wf self → var ∈ all_cells →
  least_constraining_values iter_cells var assignment self
  = Returns (lcv self var assignment, self).
Proof.
  intros Hwf Hvar. unfold least_constraining_values, lcv.
  rewrite bind_eq, get_domain_wf by done.
  rewrite bind_eq.
  rewrite (mapM_pure _ (fun value => (count_of self var value assignment, value))); [done|].
  intros value _. by rewrite bind_eq, count_constraints_wf.
Qed.

Lemma lcv_perm self var assignment : lcv self var assignment ≡ₚ dom_of self var.
Proof.
  unfold lcv. rewrite sort_by_key_perm, map_map. simpl. by rewrite map_id.
Qed.

End SearchMethods.

(** ** The search *)

(** A partial assignment as the search builds it: cells of the grid, values
    of their domains, no two neighbours with the same value. *)
Definition consistent_assignment (self : SudokuCSP) (assignment : gmap cell Z) : Prop :=
  ∀ c v, assignment !! c = Some v →
    c ∈ all_cells ∧ v ∈ dom_of self c ∧ ∀ c', c' ∈ nbrs c → assignment !! c' ≠ Some v.

(** The candidate solution [σ] agrees with the assignment. *)
Definition extends (σ : cell → Z) (assignment : gmap cell Z) : Prop :=
  ∀ c v, assignment !! c = Some v → σ c = v.

Definition event_ok (e : event) : Prop :=
  match e with
  | Enter depth => depth ≤ 81
  | _ => True
  end.

Lemma size_assignment_le (assignment : gmap cell Z) :
  (∀ c, is_Some (assignment !! c) → c ∈ all_cells) → size assignment ≤ 81.
Proof.
  intros Hkeys. rewrite <-size_dom, <-length_all_cells.
  rewrite <-(size_list_to_set (C := gset cell)) by apply NoDup_all_cells.
  apply subseteq_size. intros c Hc%elem_of_dom. apply elem_of_list_to_set. auto.
Qed.

Lemma size_assignment_full (assignment : gmap cell Z) :
  (∀ c, is_Some (assignment !! c) → c ∈ all_cells) →
  (∀ c, c ∈ all_cells → is_Some (assignment !! c)) →
  size assignment = 81.
Proof.
  intros Hkeys Hall. rewrite <-size_dom, <-length_all_cells.
  rewrite <-(size_list_to_set (C := gset cell)) by apply NoDup_all_cells.
  f_equal. apply set_eq. intros c. rewrite elem_of_dom, elem_of_list_to_set. split; auto.
Qed.

Lemma size_assignment_81 (assignment : gmap cell Z) c :
  (∀ c, is_Some (assignment !! c) → c ∈ all_cells) →
  size assignment = 81 → c ∈ all_cells → is_Some (assignment !! c).
Proof.
  intros Hkeys Hsize Hc. apply elem_of_dom.
  assert (dom assignment ≡ list_to_set all_cells) as ->.
  { apply set_subseteq_size_equiv.
    - intros c' Hc'%elem_of_dom. apply elem_of_list_to_set. auto.
    - rewrite size_dom, size_list_to_set, length_all_cells by apply NoDup_all_cells. lia. }
  by apply elem_of_list_to_set.
Qed.

Lemma consistent_assignment_keys self assignment c :
  consistent_assignment self assignment → is_Some (assignment !! c) → c ∈ all_cells.
Proof. intros Hc [v Hv]. by destruct (Hc c v Hv). Qed.

Lemma consistent_assignment_empty self : consistent_assignment self ∅.
Proof. intros c v. by rewrite lookup_empty. Qed.

Lemma consistent_assignment_insert self assignment var value :
  consistent_assignment self assignment →
  var ∈ all_cells → value ∈ dom_of self var →
  (∀ c, c ∈ nbrs var → assignment !! c ≠ Some value) →
  consistent_assignment self (<[var := value]> assignment).
Proof.
  intros Ha Hvar Hvalue Hnb c v. rewrite lookup_insert. case_decide as Hc.
  - intros [= <-]. subst c. split_and!; [done..|].
    intros c' Hc'. rewrite lookup_insert_ne; [by apply Hnb|].
    intros ->. by eapply nbrs_irrefl.
  - intros Hcv. destruct (Ha c v Hcv) as (Hin & Hdom & Hn). split_and!; [done..|].
    intros c' Hc'. rewrite lookup_insert. case_decide; [subst c'|by apply Hn].
    intros [= ->]. eapply Hnb; [|done]. by apply nbrs_sym.
Qed.

Section Search.
Context (iter_cells : list cell → list cell).
Context (iter_cells_perm : ∀ s, iter_cells s ≡ₚ s).
Context (self : SudokuCSP) (Hwf : csp_wf self).

Local Abbreviation result := (option (gmap cell Z) * gmap cell Z * list event)%type.

Lemma try_values_cons (rec : gmap cell Z → list event → M SudokuCSP result)
    var value values assignment log :
  var ∈ all_cells →
  try_values iter_cells rec var (value :: values) assignment log self
  = if consistent_with iter_cells assignment var value then
      match rec (<[var := value]> assignment) (Assign var value :: log) self with
      | Returns ((Some r, assignment', log'), self') =>
          Returns ((Some r, assignment', log'), self')
      | Returns ((None, assignment', log'), self') =>
          match assignment' !! var with
          | Some _ =>
              try_values iter_cells rec var values (delete var assignment')
                         (Undo var :: log') self'
          | None => Raises KeyError
          end
      | Raises e => Raises e
      | OutOfFuel => OutOfFuel
      end
    else try_values iter_cells rec var values assignment log self.
Proof.
  intros Hvar. simpl. rewrite bind_eq, is_consistent_wf by done.
  destruct (consistent_with _ _ _ _); [|done]. rewrite bind_eq.
  destruct (rec _ _ _) as [[[[[r|] a'] log'] s']| |]; try done.
  by destruct (a' !! var).
Qed.

Lemma backtrack_S fuel depth assignment log :
  backtrack iter_cells (S fuel) depth assignment log self
  = if size assignment =? 81 then Returns ((Some assignment, assignment, Enter depth :: log), self)
    else
      match mrv self assignment with
      | Some var =>
          try_values iter_cells (backtrack iter_cells fuel (S depth)) var
                     (lcv iter_cells self var assignment) assignment
                     (Choose var :: Enter depth :: log) self
      | None => Raises ValueError
      end.
Proof.
  simpl. destruct (size assignment =? 81); [done|].
  rewrite bind_eq, select_unassigned_variable_wf by done.
  destruct (mrv self assignment) as [var|] eqn:Hmrv; [|done].
  apply mrv_Some in Hmrv as [Hvar _].
  by rewrite bind_eq, least_constraining_values_wf.
Qed.

(** *** The frame of the search

    A call that returns leaves the object as it was; it hands back the
    full assignment it returns, or the assignment it was given. *)
Definition frame_ok (assignment : gmap cell Z) (log : list event)
    (out : outcome (result * SudokuCSP)) : Prop :=
  match out with
  | Returns ((r, assignment', log'), self') =>
      self' = self ∧ (∃ new, log' = new ++ log) ∧
      match r with
      | Some full => full = assignment' ∧ size full = 81
      | None => assignment' = assignment
      end
  | _ => True
  end.

Lemma try_values_frame (rec : gmap cell Z → list event → M SudokuCSP result)
    var values assignment :
  (∀ a log, frame_ok a log (rec a log self)) →
  var ∈ all_cells → assignment !! var = None →
  ∀ log, frame_ok assignment log (try_values iter_cells rec var values assignment log self).
Proof.
  intros Hrec Hvar Hnone. induction values as [|value values IH]; intros log.
  { simpl. split_and!; try done. by exists []. }
  rewrite try_values_cons by done. destruct (consistent_with _ _ _ _); [|apply IH].
  specialize (Hrec (<[var := value]> assignment) (Assign var value :: log)).
  destruct (rec _ _ _) as [[[[[r|] a'] log'] s']| |]; try done.
  - destruct Hrec as (-> & (new & ->) & -> & Hr). split_and!; try done.
    exists (new ++ [Assign var value]). by rewrite <-app_assoc.
  - destruct Hrec as (-> & (new & ->) & ->).
    rewrite lookup_insert_eq, delete_insert_id by done.
    specialize (IH (Undo var :: new ++ Assign var value :: log)).
    destruct (try_values _ _ _ _ _ _ _) as [[[[r a'] log'] s']| |]; try done.
    destruct IH as (-> & (new' & ->) & Hr). split_and!; try done.
    exists (new' ++ Undo var :: new ++ [Assign var value]).
    rewrite <-!app_assoc. simpl. by rewrite <-app_assoc.
Qed.

Lemma backtrack_frame fuel : ∀ depth assignment log,
  frame_ok assignment (Enter depth :: log)
           (backtrack iter_cells fuel depth assignment log self).
Proof.
  induction fuel as [|fuel IH]; intros depth assignment log; [done|].
  rewrite backtrack_S. destruct (size assignment =? 81) eqn:Hsize.
  - simpl. split_and!; try done; [by exists []|]. by apply Nat.eqb_eq.
  - destruct (mrv self assignment) as [var|] eqn:Hmrv; [|done].
    apply mrv_Some in Hmrv as [Hvar Hnone].
    pose proof (try_values_frame (backtrack iter_cells fuel (S depth)) var
                  (lcv iter_cells self var assignment) assignment) as Hloop.
    specialize (Hloop) with (log := Choose var :: Enter depth :: log).
    destruct (try_values _ _ _ _ _ _ _) as [[[[r a'] log'] s']| |]; try done.
    destruct Hloop as (-> & (new & ->) & Hr); try done.
    + intros a log1. specialize (IH (S depth) a log1).
      destruct (backtrack _ _ _ _ _ _) as [[[[r1 a1] log1'] s1]| |]; try done.
      destruct IH as (-> & (new & ->) & Hr). split_and!; try done.
      exists (new ++ [Enter (S depth)]). by rewrite <-app_assoc.
    + split_and!; try done. exists (new ++ [Choose var]). by rewrite <-app_assoc.
Qed.

(** *** Soundness, completeness and termination of the search *)
Definition search_ok (assignment : gmap cell Z) (log : list event)
    (out : outcome (result * SudokuCSP)) (exhausted : (cell → Z) → Prop) : Prop :=
  match out with
  | Returns ((r, assignment', log'), self') =>
      self' = self ∧
      (∃ new, log' = new ++ log ∧ Forall event_ok new) ∧
      match r with
      | Some full =>
          full = assignment' ∧ size full = 81 ∧
          consistent_assignment self full ∧ assignment ⊆ full
      | None =>
          assignment' = assignment ∧
          ∀ σ, proper σ → within σ self → extends σ assignment → exhausted σ
      end
  | _ => False
  end.

Lemma try_values_total (rec : gmap cell Z → list event → M SudokuCSP result)
    var values assignment :
  (∀ value log, consistent_assignment self (<[var := value]> assignment) →
     search_ok (<[var := value]> assignment) log
               (rec (<[var := value]> assignment) log self) (fun _ => False)) →
  var ∈ all_cells → assignment !! var = None →
  consistent_assignment self assignment →
  (∀ v, v ∈ values → v ∈ dom_of self var) →
  ∀ log, search_ok assignment log
           (try_values iter_cells rec var values assignment log self)
           (fun σ => σ var ∉ values).
Proof.
  intros Hrec Hvar Hnone Ha. induction values as [|value values IH]; intros Hvalues log.
  { simpl. split_and!; try done.
    - by exists [].
    - intros. apply not_elem_of_nil. }
  assert (∀ v, v ∈ values → v ∈ dom_of self var) as Hvalues'
    by (intros; apply Hvalues; by right).
  rewrite try_values_cons by done.
  destruct (consistent_with _ _ _ _) eqn:Hcons.
  - rewrite consistent_with_spec in Hcons by done.
    assert (consistent_assignment self (<[var := value]> assignment)) as Ha1.
    { apply consistent_assignment_insert; try done. apply Hvalues. left. }
    specialize (Hrec value (Assign var value :: log) Ha1).
    destruct (rec _ _ _) as [[[[[r|] a'] log'] s']| |]; try done.
    + destruct Hrec as (-> & (new & -> & Hnew) & -> & Hsize & Hfull & Hsub).
      split_and!; try done.
      * exists (new ++ [Assign var value]). rewrite <-app_assoc. split; [done|].
        apply Forall_app. split; [done|]. by repeat constructor.
      * etrans; [|done]. by apply insert_subseteq.
    + destruct Hrec as (-> & (new & -> & Hnew) & -> & Hno).
      rewrite lookup_insert_eq, delete_insert_id by done.
      specialize (IH Hvalues' (Undo var :: new ++ Assign var value :: log)).
      destruct (try_values _ _ _ _ _ _ _) as [[[[r a'] log'] s']| |]; try done.
      destruct IH as (-> & (new' & -> & Hnew') & Hr). split_and!; try done.
      * exists (new' ++ Undo var :: new ++ [Assign var value]).
        split; [by rewrite <-!app_assoc; simpl; rewrite <-app_assoc|].
        apply Forall_app. split; [done|]. constructor; [done|].
        apply Forall_app. split; [done|]. by repeat constructor.
      * destruct r as [full|]; [done|]. destruct Hr as [-> Hr]. split; [done|].
        intros σ Hσ Hin Hext. apply not_elem_of_cons. split; [|by apply Hr].
        intros Heq. apply (Hno σ Hσ Hin). intros c v. rewrite lookup_insert.
        case_decide; [|by apply Hext]. intros [= <-]. by subst.
  - specialize (IH Hvalues' log).
    destruct (try_values _ _ _ _ _ _ _) as [[[[r a'] log'] s']| |]; try done.
    destruct IH as (-> & Hlog & Hr). split_and!; try done.
    destruct r as [full|]; [done|]. destruct Hr as [-> Hr]. split; [done|].
    intros σ Hσ Hin Hext. apply not_elem_of_cons. split; [|by apply Hr].
    intros Heq. apply not_true_iff_false in Hcons. apply Hcons.
    apply consistent_with_spec; [done|]. intros c Hc Hcv.
    apply Hext in Hcv. apply (Hσ var c); [done..|]. congruence.
Qed.

Lemma backtrack_total fuel : ∀ depth assignment log,
  consistent_assignment self assignment →
  depth = size assignment → 81 < fuel + size assignment →
  search_ok assignment log (backtrack iter_cells fuel depth assignment log self)
            (fun _ => False).
Proof.
  induction fuel as [|fuel IH]; intros depth assignment log Ha Hdepth Hfuel.
  { pose proof (size_assignment_le assignment (fun c => consistent_assignment_keys _ _ c Ha)).
    simpl in Hfuel. lia. }
  pose proof (size_assignment_le assignment (fun c => consistent_assignment_keys _ _ c Ha)) as Hle.
  rewrite backtrack_S. destruct (size assignment =? 81) eqn:Hsize.
  { apply Nat.eqb_eq in Hsize. simpl. split_and!; try done.
    exists [Enter depth]. split; [done|]. constructor; [simpl; lia|constructor]. }
  apply Nat.eqb_neq in Hsize.
  destruct (mrv self assignment) as [var|] eqn:Hmrv.
  - apply mrv_Some in Hmrv as [Hvar Hnone].
    pose proof (try_values_total (backtrack iter_cells fuel (S depth)) var
                  (lcv iter_cells self var assignment) assignment) as Hloop.
    specialize (Hloop) with (log := Choose var :: Enter depth :: log).
    destruct (try_values _ _ _ _ _ _ _) as [[[[r a'] log'] s']| |].
    + destruct Hloop as (-> & (new & -> & Hnew) & Hr); try done.
      { intros value log1 Ha1. apply IH; [done| |].
        - rewrite map_size_insert_None by done. lia.
        - rewrite map_size_insert_None by done. lia. }
      { intros v Hv. by rewrite lcv_perm in Hv. }
      split_and!; try done.
      * exists (new ++ [Choose var; Enter depth]). rewrite <-app_assoc. split; [done|].
        apply Forall_app. split; [done|].
        constructor; [done|]. constructor; [simpl; lia|constructor].
      * destruct r as [full|]; [done|]. destruct Hr as [-> Hr]. split; [done|].
        intros σ Hσ Hin Hext. apply (Hr σ Hσ Hin Hext).
        rewrite lcv_perm by done. by apply Hin.
    + apply Hloop; try done.
      { intros value log1 Ha1. apply IH; [done| |].
        - rewrite map_size_insert_None by done. lia.
        - rewrite map_size_insert_None by done. lia. }
      { intros v Hv. by rewrite lcv_perm in Hv. }
    + apply Hloop; try done.
      { intros value log1 Ha1. apply IH; [done| |].
        - rewrite map_size_insert_None by done. lia.
        - rewrite map_size_insert_None by done. lia. }
      { intros v Hv. by rewrite lcv_perm in Hv. }
  - exfalso. apply Hsize. apply size_assignment_full.
    + intros c. by eapply consistent_assignment_keys.
    + by apply (mrv_None self).
Qed.

End Search.

(** More fuel does not change what the search returns. *)
Lemma try_values_fuel_mono (iter_cells : list cell → list cell)
    (rec rec' : gmap cell Z → list event →
                M SudokuCSP (option (gmap cell Z) * gmap cell Z * list event))
    var values :
  (∀ a log s x, rec a log s = Returns x → rec' a log s = Returns x) →
  ∀ assignment log s x,
    try_values iter_cells rec var values assignment log s = Returns x →
    try_values iter_cells rec' var values assignment log s = Returns x.
Proof.
  intros Hrec. induction values as [|value values IH]; intros a log s x; [done|].
  simpl. rewrite !bind_eq.
  destruct (is_consistent _ _ _ _ _) as [[[] s1]| |]; try done; [|apply IH].
  rewrite !bind_eq.
  destruct (rec _ _ _) as [[[[r a'] log'] s']| |] eqn:Hr; try done.
  rewrite (Hrec _ _ _ _ Hr). destruct r; [done|].
  destruct (a' !! var); [apply IH|done].
Qed.

Lemma backtrack_fuel_mono (iter_cells : list cell → list cell) fuel : ∀ fuel' depth assignment log s x,
  fuel ≤ fuel' →
  backtrack iter_cells fuel depth assignment log s = Returns x →
  backtrack iter_cells fuel' depth assignment log s = Returns x.
Proof.
  induction fuel as [|fuel IH]; intros fuel' depth a log s x Hle; [done|].
  destruct fuel' as [|fuel']; [lia|]. simpl.
  destruct (size a =? 81); [done|]. rewrite !bind_eq.
  destruct (select_unassigned_variable _ _) as [[var s1]| |]; try done.
  rewrite !bind_eq.
  destruct (least_constraining_values _ _ _ _) as [[values s2]| |]; try done.
  apply try_values_fuel_mono. intros ????. apply IH. lia.
Qed.

(** ** Sudoku grids *)

Definition row_cells (i : nat) : list cell := map (fun j => (i, j)) range9.
Definition col_cells (j : nat) : list cell := map (fun i => (i, j)) range9.
Definition block_cells (b : nat) : list cell :=
  flat_map (fun r => map (fun c => (3 * (b / 3) + r, 3 * (b mod 3) + c)) (seq 0 3)) (seq 0 3).

(** The 27 rows, columns and blocks. *)
Definition units : list (list cell) :=
  map row_cells range9 ++ map col_cells range9 ++ map block_cells range9.

(** Each of the values 1 to 9 occurs exactly once in [l]. *)
Definition each_once (l : list Z) : Prop :=
  Forall (fun v => length (filter (fun x => x = v) l) = 1) full_domain.

(** A solved grid: every row, column and block holds each of 1..9 once. *)
Definition valid_grid (g : list (list Z)) : Prop :=
  shape9 g ∧
  ∀ k, k < 9 →
    each_once (map (grid_value g) (row_cells k)) ∧
    each_once (map (grid_value g) (col_cells k)) ∧
    each_once (map (grid_value g) (block_cells k)).

(** Every clue of [p] is still there in [g]. *)
Definition keeps_clues (p g : list (list Z)) : Prop :=
  ∀ i j, i < 9 → j < 9 →
    grid_value p (i, j) ≠ 0%Z → grid_value g (i, j) = grid_value p (i, j).

Definition completion (p g : list (list Z)) : Prop := valid_grid g ∧ keeps_clues p g.

(** An input grid: nine rows of nine entries, each 0 (empty) or a clue 1..9. *)
Definition sudoku_grid (p : list (list Z)) : Prop :=
  shape9 p ∧ ∀ i j, i < 9 → j < 9 → (0 ≤ grid_value p (i, j) ≤ 9)%Z.

Lemma elem_of_units u :
  u ∈ units ↔ ∃ k, k < 9 ∧ (u = row_cells k ∨ u = col_cells k ∨ u = block_cells k).
Proof.
  unfold units. rewrite !elem_of_app, !list_elem_of_fmap. unfold range9.
  setoid_rewrite elem_of_seq. split.
  - intros [(k & -> & ?)|[(k & -> & ?)|(k & -> & ?)]]; exists k; (split; [lia|auto]).
  - intros (k & ? & [-> | [-> | ->]]); [left|right; left|right; right]; exists k; (split; [done|lia]).
Qed.

Lemma valid_grid_units g :
  valid_grid g ↔ shape9 g ∧ ∀ u, u ∈ units → each_once (map (grid_value g) u).
Proof.
  unfold valid_grid. split; intros [Hs H]; (split; [done|]).
  - intros u (k & Hk & [-> | [-> | ->]])%elem_of_units; by apply H.
  - intros k Hk. split_and!; apply H, elem_of_units; exists k; auto.
Qed.

Lemma units_table :
  Forall (fun u =>
    length u = 9 ∧ NoDup u ∧
    Forall (fun c => c ∈ all_cells ∧ Forall (fun c' => c = c' ∨ c' ∈ nbrs c) u) u) units.
Proof.
  rewrite nbrs_unseal, all_cells_unseal. apply (bool_decide_unpack _). by vm_compute.
Qed.

Lemma share_unit_table :
  Forall (fun c => Forall (fun c' => Exists (fun u => c ∈ u ∧ c' ∈ u) units) (nbrs c)) all_cells.
Proof.
  rewrite nbrs_unseal, all_cells_unseal. apply (bool_decide_unpack _). by vm_compute.
Qed.

Lemma elem_of_full_domain x : x ∈ full_domain ↔ (1 ≤ x ≤ 9)%Z.
Proof.
  unfold full_domain. rewrite !elem_of_cons, elem_of_nil. lia.
Qed.

Lemma each_once_full_domain : each_once full_domain.
Proof. apply (bool_decide_unpack _). by vm_compute. Qed.

Lemma each_once_perm l k : l ≡ₚ k → each_once l → each_once k.
Proof.
  intros Hperm Hl. unfold each_once in *. eapply Forall_impl; [exact Hl|].
  intros v. simpl. by rewrite Hperm.
Qed.

Lemma each_once_intro l :
  NoDup l → length l = 9 → (∀ x, x ∈ l → x ∈ full_domain) → each_once l.
Proof.
  intros Hnd Hlen Hin. apply (each_once_perm full_domain); [|apply each_once_full_domain].
  symmetry. apply submseteq_length_Permutation; [by apply NoDup_submseteq|].
  by rewrite Hlen.
Qed.

Lemma each_once_elim l :
  each_once l → length l = 9 → NoDup l ∧ ∀ x, x ∈ l → x ∈ full_domain.
Proof.
  intros Honce Hlen.
  assert (full_domain ≡ₚ l) as Hperm.
  { apply submseteq_length_Permutation; [|by rewrite Hlen].
    apply NoDup_submseteq; [apply (bool_decide_unpack _); by vm_compute|].
    intros v Hv. unfold each_once in Honce. rewrite Forall_forall in Honce.
    specialize (Honce v Hv). destruct (filter _ l) as [|y ?] eqn:Hf; [done|].
    assert (y ∈ filter (fun x => x = v) l) as Hy by (rewrite Hf; left).
    by apply list_elem_of_filter in Hy as [-> ?]. }
  split.
  - rewrite <-Hperm. apply (bool_decide_unpack _). by vm_compute.
  - intros x. by rewrite Hperm.
Qed.

Lemma elem_of_initial_domain v x :
  x ∈ initial_domain v ↔ if decide (v = 0%Z) then (1 ≤ x ≤ 9)%Z else x = v.
Proof.
  unfold initial_domain. case_decide; [apply elem_of_full_domain|apply list_elem_of_singleton].
Qed.

(** A grid that takes its values from the initial domains and differs on
    neighbours completes the puzzle ... *)
Lemma completion_intro p g :
  sudoku_grid p → shape9 g →
  (∀ c, c ∈ all_cells → grid_value g c ∈ initial_domain (grid_value p c)) →
  proper (grid_value g) →
  completion p g.
Proof.
  intros [Hp Hrange'] Hg Hdom Hproper.
  assert (∀ c, c ∈ all_cells → (0 ≤ grid_value p c ≤ 9)%Z) as Hrange.
  { intros [i j] [? ?]%elem_of_all_cells. by apply Hrange'. }
  split.
  - apply valid_grid_units. split; [done|]. intros u Hu.
    pose proof units_table as Htab. rewrite Forall_forall in Htab.
    destruct (Htab u Hu) as (Hlen & Hnd & Hcells). rewrite Forall_forall in Hcells.
    apply each_once_intro.
    + apply NoDup_fmap_2_strong; [|done]. intros c c' Hc Hc' Heq.
      destruct (Hcells c Hc) as [Hcg Hnb]. rewrite Forall_forall in Hnb.
      destruct (Hnb c' Hc') as [?|Hn]; [done|]. by destruct (Hproper c c' Hcg Hn).
    + by rewrite length_map.
    + intros x (c & -> & Hc)%list_elem_of_fmap. destruct (Hcells c Hc) as [Hcg _].
      specialize (Hdom c Hcg). specialize (Hrange c Hcg).
      apply elem_of_initial_domain in Hdom. apply elem_of_full_domain.
      case_decide; lia.
  - intros i j Hi Hj Hclue.
    assert ((i, j) ∈ all_cells) as Hc by by apply elem_of_all_cells.
    specialize (Hdom _ Hc). apply elem_of_initial_domain in Hdom.
    by rewrite decide_False in Hdom.
Qed.

(** ... and every completion is such a grid. *)
Lemma completion_elim p g :
  completion p g →
  shape9 g ∧
  (∀ c, c ∈ all_cells → grid_value g c ∈ initial_domain (grid_value p c)) ∧
  proper (grid_value g) ∧
  (∀ c, c ∈ all_cells → (1 ≤ grid_value g c ≤ 9)%Z).
Proof.
  intros [Hvalid Hclues]. apply valid_grid_units in Hvalid as [Hg Hunits].
  assert (∀ u, u ∈ units →
            NoDup (map (grid_value g) u) ∧
            ∀ c, c ∈ u → grid_value g c ∈ full_domain) as Hu.
  { intros u Hu. pose proof units_table as Htab. rewrite Forall_forall in Htab.
    destruct (Htab u Hu) as (Hlen & _ & _).
    destruct (each_once_elim _ (Hunits u Hu)) as [Hnd Hin]; [by rewrite length_map|].
    split; [done|]. intros c Hc. apply Hin, list_elem_of_fmap. eauto. }
  pose proof share_unit_table as Hshare. rewrite Forall_forall in Hshare.
  assert (∀ c, c ∈ all_cells → (1 ≤ grid_value g c ≤ 9)%Z) as Hrange.
  { intros c Hc.
    assert (c ∈ row_cells c.1) as Hrow.
    { destruct c as [i j]. apply elem_of_all_cells in Hc as [? ?].
      apply list_elem_of_fmap. exists j. split; [done|]. apply elem_of_seq. lia. }
    apply elem_of_full_domain. eapply Hu; [|done]. apply elem_of_units.
    exists c.1. split; [|auto]. destruct c. by apply elem_of_all_cells in Hc as [? ?]. }
  split_and!; [done| | |done].
  - intros c Hc. apply elem_of_initial_domain. case_decide as Hz; [by apply Hrange|].
    destruct c as [i j]. apply elem_of_all_cells in Hc as [? ?]. by apply Hclues.
  - intros c c' Hc Hc' Heq. specialize (Hshare c Hc). rewrite Forall_forall in Hshare.
    apply Hshare in Hc' as Hex. apply Exists_exists in Hex as (u & Hu' & Hcu & Hc'u).
    destruct (Hu u Hu') as [Hnd _].
    assert (c = c') as <-; [|by eapply nbrs_irrefl].
    clear -Hnd Hcu Hc'u Heq. induction u as [|x u IH]; [by apply elem_of_nil in Hcu|].
    simpl in Hnd. apply NoDup_cons in Hnd as [Hx Hnd].
    apply elem_of_cons in Hcu as [->|Hcu], Hc'u as [->|Hc'u]; auto.
    + destruct Hx. rewrite Heq. apply list_elem_of_fmap. eauto.
    + destruct Hx. rewrite <-Heq. apply list_elem_of_fmap. eauto.
Qed.

(** ** Reading a grid off the object *)

(** The grid that holds [σ c] at every cell [c]. *)
Definition grid_of (σ : cell → Z) : list (list Z) :=
  map (fun i => map (fun j => σ (i, j)) range9) range9.

Lemma shape9_grid_of σ : shape9 (grid_of σ).
Proof.
  split; [done|]. apply Forall_forall. intros row (i & -> & _)%list_elem_of_fmap. done.
Qed.

Lemma grid_value_grid_of σ c : c ∈ all_cells → grid_value (grid_of σ) c = σ c.
Proof.
  destruct c as [i j]. intros [Hi Hj]%elem_of_all_cells.
  unfold grid_value, grid_of, range9. cbn [fst snd].
  rewrite list_lookup_fmap, lookup_seq_lt by done. cbn [fmap option_fmap option_map mbind option_bind].
  by rewrite list_lookup_fmap, lookup_seq_lt by done.
Qed.

Lemma grid_of_grid_value g : shape9 g → grid_of (grid_value g) = g.
Proof.
  intros [Hlen Hrows]. apply list_eq. intros i. unfold grid_of, range9.
  rewrite list_lookup_fmap. destruct (decide (i < 9)) as [Hi|Hi].
  - rewrite lookup_seq_lt by done. cbn [fmap option_fmap option_map].
    destruct (g !! i) as [row|] eqn:Hrow; [|apply lookup_ge_None in Hrow; lia].
    f_equal. rewrite Forall_forall in Hrows.
    assert (length row = 9) as Hr by (apply Hrows; by eapply list_elem_of_lookup_2).
    apply list_eq. intros j. rewrite list_lookup_fmap.
    destruct (decide (j < 9)) as [Hj|Hj].
    + rewrite lookup_seq_lt by done. simpl. unfold grid_value. simpl. rewrite Hrow. simpl.
      destruct (row !! j) eqn:Hv; [done|]. apply lookup_ge_None in Hv. lia.
    + rewrite (proj2 (lookup_ge_None (seq 0 9) j)) by (rewrite length_seq; lia).
      symmetry. apply lookup_ge_None. lia.
  - rewrite (proj2 (lookup_ge_None (seq 0 9) i)) by (rewrite length_seq; lia).
    symmetry. apply lookup_ge_None. lia.
Qed.

(** Two well-shaped grids with the same entries are the same grid. *)
Lemma grid_ext g g' :
  shape9 g → shape9 g' → (∀ c, c ∈ all_cells → grid_value g c = grid_value g' c) → g = g'.
Proof.
  intros Hg Hg' Heq. rewrite <-(grid_of_grid_value g), <-(grid_of_grid_value g') by done.
  unfold grid_of, range9. apply map_ext_in. intros i Hi%in_seq.
  apply map_ext_in. intros j Hj%in_seq. apply Heq, elem_of_all_cells. lia.
Qed.

Lemma grid_of_assignment_eq a : grid_of_assignment a = grid_of (fun c => default 0%Z (a !! c)).
Proof. reflexivity. Qed.

Lemma dict_get_Some_elem_of {V} k (v : V) d : dict_get k d = Some v → (k, v) ∈ d.
Proof.
  induction d as [|[k0 v0] d IH]; simpl; [done|]. case_decide.
  - intros [= ->]. subst. left.
  - intros H'. right. auto.
Qed.

Lemma is_solved_true self :
  csp_wf self →
  forallb (fun domain => length domain =? 1) (map snd (domains self)) = true →
  ∀ c, c ∈ all_cells → length (dom_of self c) = 1.
Proof.
  intros Hwf Hall c Hc. rewrite forallb_forall in Hall.
  rewrite <-(wf_keys _ Hwf) in Hc. apply dict_get_is_Some in Hc as [d Hd].
  unfold dom_of. rewrite Hd. simpl. apply Nat.eqb_eq, Hall, list_elem_of_In.
  apply list_elem_of_fmap. exists (c, d). split; [done|]. by apply dict_get_Some_elem_of.
Qed.

Lemma get_solution_wf self :
  csp_wf self → nonempty self →
  get_solution self = Returns (grid_of (fun c => default 0%Z (head (dom_of self c))), self).
Proof.
  intros Hwf Hne. unfold get_solution, grid_of.
  apply mapM_pure. intros i Hi. apply mapM_pure. intros j Hj.
  unfold range9 in Hi, Hj. apply elem_of_seq in Hi, Hj.
  assert ((i, j) ∈ all_cells) as Hc by (apply elem_of_all_cells; lia).
  unfold first_value. rewrite bind_eq, get_domain_wf by done.
  specialize (Hne _ Hc). by destruct (dom_of self (i, j)).
Qed.

(** [solve_sudoku] on the object that [__init__] builds. *)
Lemma solve_sudoku_eq (iter_cells : list cell → list cell) fuel p csp :
  new_SudokuCSP p = Returns csp →
  solve_sudoku iter_cells fuel p
  = match ac3 iter_cells fuel csp with
    | Returns ((true, queue_lengths), csp1) =>
        if forallb (fun domain => length domain =? 1) (map snd (domains csp1)) then
          match get_solution csp1 with
          | Returns (solution, _) => Returns (Some solution, queue_lengths, [])
          | Raises e => Raises e
          | OutOfFuel => OutOfFuel
          end
        else
          match backtrack iter_cells fuel 0 ∅ [] csp1 with
          | Returns ((Some a, _, log), _) =>
              Returns (if size a =? 0 then None else Some (grid_of_assignment a),
                       queue_lengths, reverse log)
          | Returns ((None, _, log), _) => Returns (None, queue_lengths, reverse log)
          | Raises e => Raises e
          | OutOfFuel => OutOfFuel
          end
    | Returns ((false, queue_lengths), _) => Returns (None, queue_lengths, [])
    | Raises e => Raises e
    | OutOfFuel => OutOfFuel
    end.
Proof.
  intros Hnew. unfold solve_sudoku. rewrite Hnew, bind_eq.
  destruct (ac3 iter_cells fuel csp) as [[[[] ls] csp1]| |]; try done.
  rewrite bind_eq. unfold is_solved.
  destruct (forallb _ _).
  - rewrite bind_eq. by destruct (get_solution csp1) as [[? ?]| |].
  - unfold backtracking_search. rewrite !bind_eq.
    destruct (backtrack _ _ _ _ _ _) as [[[[[a|] a'] log] s']| |]; try done.
    rewrite ret_eq. by destruct (size a =? 0).
Qed.

(** ** [solve_sudoku] *)

(** Fuel that is enough for every 9x9 grid: the 1620 arcs of the initial
    queue, 20 turns for each of the at most 729 values, and one. *)
Definition enough_fuel : nat := 1620 + 20 * 729 + 1.

Lemma sum_list_bound (f : cell → nat) (l : list cell) n :
  (∀ c, c ∈ l → f c ≤ n) → sum_list (map f l) ≤ n * length l.
Proof.
  induction l as [|c l IH]; intros Hf; simpl; [lia|].
  assert (f c ≤ n) by (apply Hf; left).
  assert (sum_list (map f l) ≤ n * length l) by (apply IH; intros; apply Hf; by right). lia.
Qed.

Lemma initial_domain_length v : 1 ≤ length (initial_domain v) ≤ 9.
Proof. unfold initial_domain. case_decide; simpl; lia. Qed.

Lemma initial_domain_nonzero v x : x ∈ initial_domain v → x ≠ 0%Z.
Proof. intros Hx%elem_of_initial_domain. case_decide; lia. Qed.

(** The object that [__init__] builds from a well-shaped grid. *)
Lemma new_SudokuCSP_facts p :
  shape9 p →
  ∃ csp, new_SudokuCSP p = Returns csp ∧ csp_wf csp ∧ puzzle csp = p ∧
         (∀ c, c ∈ all_cells → dom_of csp c = initial_domain (grid_value p c)) ∧
         nonempty csp ∧ total csp ≤ 729.
Proof.
  intros Hp. eexists. split; [by apply new_SudokuCSP_shape9|].
  destruct (new_SudokuCSP_spec p _ Hp (new_SudokuCSP_shape9 p Hp)) as (Hwf & Hpz & Hdom).
  split_and!; try done.
  - intros c Hc. rewrite Hdom by done. intros Hnil.
    pose proof (initial_domain_length (grid_value p c)) as Hl. rewrite Hnil in Hl. simpl in Hl. lia.
  - unfold total. change 729 with (9 * 81). rewrite <-length_all_cells.
    apply sum_list_bound. intros c Hc. rewrite Hdom by done. apply initial_domain_length.
Qed.

Section Solve.
Context (iter_cells : list cell → list cell).
Context (iter_cells_perm : ∀ s, iter_cells s ≡ₚ s).

(** What a search from the empty assignment that returns has done. *)
Lemma backtrack_returns fuel self r :
  csp_wf self →
  backtrack iter_cells fuel 0 ∅ [] self = Returns r →
  search_ok self ∅ [] (Returns r) (fun _ => False).
Proof.
  intros Hwf Hrun.
  apply (backtrack_fuel_mono iter_cells fuel (fuel + 82)) in Hrun; [|lia].
  rewrite <-Hrun. apply (backtrack_total iter_cells iter_cells_perm self Hwf).
  - apply consistent_assignment_empty.
  - by rewrite map_size_empty.
  - rewrite map_size_empty. lia.
Qed.

(** A search from the empty assignment returns when it has fuel for 82 calls. *)
Lemma backtrack_terminates fuel self :
  csp_wf self → 82 ≤ fuel →
  ∃ r, backtrack iter_cells fuel 0 ∅ [] self = Returns r.
Proof.
  intros Hwf Hfuel.
  pose proof (backtrack_total iter_cells iter_cells_perm self Hwf fuel 0 ∅ []
                (consistent_assignment_empty self) eq_refl) as Hok.
  rewrite map_size_empty in Hok. specialize (Hok ltac:(lia)).
  destruct (backtrack _ _ _ _ _ _) as [r| |]; [eauto|done..].
Qed.

(** A full consistent assignment, read as a grid. *)
Lemma full_assignment_grid self a :
  csp_wf self → consistent_assignment self a → size a = 81 →
  (∀ c, c ∈ all_cells → grid_value (grid_of_assignment a) c ∈ dom_of self c) ∧
  proper (grid_value (grid_of_assignment a)).
Proof.
  intros Hwf Ha Hsize.
  assert (∀ c, c ∈ all_cells →
            ∃ v, a !! c = Some v ∧ grid_value (grid_of_assignment a) c = v) as Hval.
  { intros c Hc.
    destruct (size_assignment_81 a c (fun c => consistent_assignment_keys _ _ c Ha) Hsize Hc)
      as [v Hv].
    exists v. split; [done|]. by rewrite grid_of_assignment_eq, grid_value_grid_of, Hv. }
  split.
  - intros c Hc. destruct (Hval c Hc) as (v & Hv & ->). by destruct (Ha c v Hv) as (_ & ? & _).
  - intros c c' Hc Hc'. destruct (Hval c Hc) as (v & Hv & ->).
    destruct (Hval c' (nbrs_in_grid c Hc c' Hc')) as (v' & Hv' & ->).
    destruct (Ha c v Hv) as (_ & _ & Hn). intros ->. by apply (Hn c' Hc').
Qed.

(** The grid of a store that is arc consistent and all singletons. *)
Lemma singleton_store_grid self :
  csp_wf self →
  (∀ a, valid_arc a → arc_consistent self a) →
  (∀ c, c ∈ all_cells → length (dom_of self c) = 1) →
  let g := grid_of (fun c => default 0%Z (head (dom_of self c))) in
  (∀ c, c ∈ all_cells → dom_of self c = [grid_value g c]) ∧ proper (grid_value g).
Proof.
  intros Hwf Hcons Hone g.
  assert (∀ c, c ∈ all_cells → dom_of self c = [grid_value g c]) as Hdom.
  { intros c Hc. unfold g. rewrite grid_value_grid_of by done.
    specialize (Hone c Hc). by destruct (dom_of self c) as [|x [|??]]. }
  split; [done|]. intros c c' Hc Hc' Heq.
  destruct (Hcons (c, c') (conj Hc Hc') (grid_value g c)) as (y & Hy & Hne).
  - simpl. rewrite (Hdom c Hc). left.
  - simpl in Hy. rewrite (Hdom c') in Hy by by eapply nbrs_in_grid.
    apply list_elem_of_singleton in Hy. congruence.
Qed.

(** Soundness: a grid that [solve_sudoku] returns takes its values from
    the initial domains and differs on neighbours. *)
Lemma solve_sudoku_sound fuel p g lengths trace :
  shape9 p →
  solve_sudoku iter_cells fuel p = Returns (Some g, lengths, trace) →
  shape9 g ∧
  (∀ c, c ∈ all_cells → grid_value g c ∈ initial_domain (grid_value p c)) ∧
  proper (grid_value g).
Proof.
  intros Hp Hrun.
  destruct (new_SudokuCSP_facts p Hp) as (s0 & Hnew & Hwf0 & _ & Hdom0 & Hne0 & _).
  rewrite (solve_sudoku_eq _ _ _ _ Hnew) in Hrun.
  destruct (ac3 iter_cells fuel s0) as [[[[] ls] s1]| |] eqn:Hac3; try done.
  destruct (ac3_spec _ iter_cells_perm _ _ _ _ _ Hwf0 Hac3)
    as (Hwf1 & _ & Hsub & _ & Htrue).
  destruct (Htrue eq_refl) as [Hcons Hne1]. specialize (Hne1 Hne0).
  assert (∀ c x, c ∈ all_cells → x ∈ dom_of s1 c → x ∈ initial_domain (grid_value p c)) as Hin.
  { intros c x Hc Hx. rewrite <-Hdom0 by done. eapply elem_of_sublist; [done|apply Hsub]. }
  destruct (forallb _ _) eqn:Hsolved.
  - rewrite get_solution_wf in Hrun by done. simplify_eq.
    destruct (singleton_store_grid s1 Hwf1 Hcons (is_solved_true s1 Hwf1 Hsolved))
      as [Hdom Hproper].
    split_and!; [apply shape9_grid_of| |done].
    intros c Hc. apply Hin; [done|]. rewrite (Hdom c Hc). left.
  - destruct (backtrack _ _ _ _ _ _) as [[[[[a|] a'] log] s']| |] eqn:Hbt; try done.
    destruct (size a =? 0); simplify_eq.
    pose proof (backtrack_returns _ _ _ Hwf1 Hbt) as (_ & _ & _ & Hsize & Ha & _).
    destruct (full_assignment_grid s1 a Hwf1 Ha Hsize) as [Hdom Hproper].
    split_and!; [apply (shape9_grid_of (fun c => default 0%Z (a !! c)))| |done].
    intros c Hc. by apply Hin, Hdom.
Qed.

(** Completeness: on a grid that has a completion, [solve_sudoku] returns
    a grid when given enough fuel. *)
Lemma solve_sudoku_complete fuel p g :
  shape9 p → completion p g → enough_fuel ≤ fuel →
  ∃ g' lengths trace, solve_sudoku iter_cells fuel p = Returns (Some g', lengths, trace).
Proof.
  intros Hp Hg Hfuel.
  destruct (completion_elim p g Hg) as (Hshape & Hdom & Hproper & _).
  destruct (new_SudokuCSP_facts p Hp) as (s0 & Hnew & Hwf0 & _ & Hdom0 & Hne0 & Htotal).
  rewrite (solve_sudoku_eq _ _ _ _ Hnew).
  destruct (ac3_terminates iter_cells iter_cells_perm fuel s0 Hwf0) as (r & ls & s1 & Hac3).
  { unfold enough_fuel in Hfuel. lia. }
  rewrite Hac3.
  destruct (ac3_spec _ iter_cells_perm _ _ _ _ _ Hwf0 Hac3)
    as (Hwf1 & _ & Hsub & Hsol & Htrue).
  destruct (Hsol (grid_value g) Hproper) as [-> Hin1].
  { intros c Hc. rewrite Hdom0 by done. by apply Hdom. }
  destruct (Htrue eq_refl) as [Hcons Hne1]. specialize (Hne1 Hne0).
  destruct (forallb _ _) eqn:Hsolved.
  - rewrite get_solution_wf by done. eauto.
  - destruct (backtrack_terminates fuel s1 Hwf1) as [[[[[a|] a'] log] s'] Hbt].
    { unfold enough_fuel in Hfuel. lia. }
    + rewrite Hbt.
      pose proof (backtrack_returns _ _ _ Hwf1 Hbt) as (_ & _ & _ & Hsize & _).
      rewrite Hsize. simpl. eauto.
    + pose proof (backtrack_returns _ _ _ Hwf1 Hbt) as (_ & _ & _ & Hno).
      destruct (Hno (grid_value g) Hproper Hin1). intros c v. by rewrite lookup_empty.
Qed.

(** [solve_sudoku] returns on every well-shaped grid when given enough fuel. *)
Lemma solve_sudoku_total fuel p :
  shape9 p → enough_fuel ≤ fuel →
  ∃ res lengths trace, solve_sudoku iter_cells fuel p = Returns (res, lengths, trace).
Proof.
  intros Hp Hfuel.
  destruct (new_SudokuCSP_facts p Hp) as (s0 & Hnew & Hwf0 & _ & Hdom0 & Hne0 & Htotal).
  rewrite (solve_sudoku_eq _ _ _ _ Hnew).
  destruct (ac3_terminates iter_cells iter_cells_perm fuel s0 Hwf0) as (r & ls & s1 & Hac3).
  { unfold enough_fuel in Hfuel. lia. }
  rewrite Hac3.
  destruct (ac3_spec _ iter_cells_perm _ _ _ _ _ Hwf0 Hac3)
    as (Hwf1 & _ & Hsub & Hsol & Htrue).
  destruct r; [|eauto].
  destruct (Htrue eq_refl) as [Hcons Hne1]. specialize (Hne1 Hne0).
  destruct (forallb _ _) eqn:Hsolved.
  - rewrite get_solution_wf by done. eauto.
  - destruct (backtrack_terminates fuel s1 Hwf1) as [[[[[a|] a'] log] s'] Hbt].
    { unfold enough_fuel in Hfuel. lia. }
    + rewrite Hbt. eauto.
    + rewrite Hbt. eauto.
Qed.

(** A store in which every arc is consistent is left alone by the loop. *)
Lemma ac3_loop_consistent self queue : ∀ fuel lengths,
  csp_wf self → (∀ a, valid_arc a → arc_consistent self a) →
  Forall valid_arc queue → length queue < fuel →
  ∃ lengths', ac3_loop iter_cells fuel queue lengths self = Returns ((true, lengths'), self).
Proof.
  induction queue as [|[xi xj] rest IH]; intros fuel lengths Hwf Hcons Hq Hfuel.
  - destruct fuel; [simpl in Hfuel; lia|]. simpl. rewrite bind_eq. unfold ac3_body.
    rewrite ret_eq. eauto.
  - destruct fuel; [simpl in Hfuel; lia|]. apply Forall_cons in Hq as [[Hxi Hxj] Hq].
    simpl in Hxi, Hxj, Hfuel. cbn [ac3_loop]. rewrite bind_eq, ac3_body_wf by done.
    pose proof (proj2 (forallb_supported _ _) (Hcons (xi, xj) (conj Hxi Hxj))) as Hall.
    simpl in Hall. cbn zeta. rewrite Hall. apply IH; try done. lia.
Qed.

End Solve.

Lemma solve_sudoku_fuel_mono (iter_cells : list cell → list cell) fuel fuel' p r :
  fuel ≤ fuel' →
  solve_sudoku iter_cells fuel p = Returns r → solve_sudoku iter_cells fuel' p = Returns r.
Proof.
  intros Hle. destruct (new_SudokuCSP p) as [csp| |] eqn:Hnew.
  - rewrite !(solve_sudoku_eq _ _ _ _ Hnew).
    destruct (ac3 iter_cells fuel csp) as [[[b ls] s1]| |] eqn:Hac3; try done.
    rewrite (ac3_fuel_mono _ _ _ _ _ Hle Hac3). destruct b; [|done].
    destruct (forallb _ _); [done|].
    destruct (backtrack iter_cells fuel _ _ _ _) as [x| |] eqn:Hbt; try done.
    by rewrite (backtrack_fuel_mono _ _ _ _ _ _ _ _ Hle Hbt).
  - unfold solve_sudoku. by rewrite Hnew.
  - unfold solve_sudoku. by rewrite Hnew.
Qed.

(** ** The size of the worklist *)

(** The bound on the queue: its 1620 initial arcs, and 18 more for each of
    the at most 648 values that can be pruned while every domain keeps one. *)
Definition queue_bound : nat := 1620 + 18 * 648.

Lemma sum_list_lower (f : cell → nat) (l : list cell) :
  (∀ c, c ∈ l → 1 ≤ f c) → length l ≤ sum_list (map f l).
Proof.
  induction l as [|c l IH]; intros Hf; simpl; [lia|].
  assert (1 ≤ f c) by (apply Hf; left).
  assert (length l ≤ sum_list (map f l)) by (apply IH; intros; apply Hf; by right). lia.
Qed.

Lemma total_nonempty self : nonempty self → 81 ≤ total self.
Proof.
  intros Hne. unfold total. rewrite <-length_all_cells. apply sum_list_lower.
  intros c Hc. specialize (Hne c Hc). destruct (dom_of self c); [done|simpl; lia].
Qed.

Section Bounds.
Context (iter_cells : list cell → list cell).
Context (iter_cells_perm : ∀ s, iter_cells s ≡ₚ s).

Definition bound_inv (st : ac3_state) : Prop :=
  ac3_inv st ∧ nonempty st.2 ∧
  length st.1.1 + 18 * total st.2 ≤ 1620 + 18 * 729 ∧
  Forall (fun n => (n ≤ Z.of_nat queue_bound)%Z) st.1.2.

Lemma bound_inv_length st : bound_inv st → length st.1.1 ≤ queue_bound.
Proof.
  intros (_ & Hne & Hpot & _). apply total_nonempty in Hne. unfold queue_bound. lia.
Qed.

Lemma bound_inv_init csp :
  csp_wf csp → nonempty csp → total csp ≤ 729 → bound_inv (all_arcs iter_cells, [], csp).
Proof.
  intros Hwf Hne Htotal. split_and!; simpl; try done.
  - split; [done|]. simpl. apply Forall_forall. intros a. by apply elem_of_all_arcs.
  - rewrite all_arcs_length by done. lia.
Qed.

Lemma bound_inv_step st st' : bound_inv st → ac3_step iter_cells st st' → bound_inv st'.
Proof.
  intros Hb Hstep. pose proof (bound_inv_length st Hb) as Hlen.
  destruct Hb as (Hinv & Hne & Hpot & Hls). split_and!.
  - by eapply ac3_step_inv.
  - by eapply ac3_step_nonempty.
  - destruct (ac3_step_measure _ iter_cells_perm _ _ Hinv Hstep) as [[? ?]|[? ?]]; lia.
  - destruct st as [[q ls] s], st' as [[q' ls'] s'].
    destruct (ac3_step_cases _ _ _ _ _ Hinv Hstep)
      as (? & ? & ? & _ & _ & _ & _ & _ & Hls' & _). simpl in *. rewrite Hls'.
    apply Forall_app. split; [done|]. constructor; [lia|constructor].
Qed.

Lemma bound_inv_steps st st' : bound_inv st → rtc (ac3_step iter_cells) st st' → bound_inv st'.
Proof. intros Hb Hsteps. induction Hsteps; eauto using bound_inv_step. Qed.

(** The lengths that a run of [ac3] records. *)
Lemma ac3_lengths_bound fuel csp r lengths csp' :
  csp_wf csp → nonempty csp → total csp ≤ 729 →
  ac3 iter_cells fuel csp = Returns ((r, lengths), csp') →
  Forall (fun n => (n ≤ Z.of_nat queue_bound)%Z) lengths.
Proof.
  intros Hwf Hne Htotal Hrun. unfold ac3 in Hrun.
  rewrite bind_eq, initial_queue_wf in Hrun by done.
  destruct (ac3_loop_ind iter_cells bound_inv fuel (all_arcs iter_cells) [] csp
              (r, lengths) csp')
    as ([[q ls] s] & Hb & _ & Hlast); [apply bound_inv_step|by apply bound_inv_init|done|].
  pose proof (bound_inv_length _ Hb) as Hlen.
  destruct Hb as (Hinv & _ & _ & Hls). simpl in *.
  destruct (ac3_final_cases _ _ _ _ _ _ Hinv Hlast)
    as [(-> & ? & ->)|(xi & xj & rest & -> & _ & _ & _ & _ & ? & ->)]; simplify_eq; [done|].
  apply Forall_app. split; [done|]. constructor; [lia|constructor].
Qed.
End Bounds.

(** ** The iteration order only matters on the neighbour sets *)

Section IterationOrder.
Context (iter1 iter2 : list cell → list cell).
Context (iter1_perm : ∀ s, iter1 s ≡ₚ s) (iter2_perm : ∀ s, iter2 s ≡ₚ s).
Context (agree_nbrs : ∀ c, c ∈ all_cells → iter1 (nbrs c) = iter2 (nbrs c)).
Context (agree_diff : ∀ c xj, c ∈ all_cells →
           iter1 (filter (fun c' => c' ≠ xj) (nbrs c)) = iter2 (filter (fun c' => c' ≠ xj) (nbrs c))).

Lemma all_arcs_ext : all_arcs iter1 = all_arcs iter2.
Proof.
  unfold all_arcs.
  assert (Forall (fun c => c ∈ all_cells) all_cells) as Hall by by apply Forall_forall.
  revert Hall. generalize all_cells at 2 3 4. intros l.
  induction l as [|xi l IH]; intros Hl; [done|].
  apply Forall_cons in Hl as [Hxi Hl]. simpl. by rewrite agree_nbrs, IH.
Qed.

Lemma ac3_loop_ext fuel : ∀ queue lengths self,
  ac3_inv (queue, lengths, self) →
  ac3_loop iter1 fuel queue lengths self = ac3_loop iter2 fuel queue lengths self.
Proof.
  induction fuel as [|fuel IH]; intros q ls s Hinv; [done|].
  cbn [ac3_loop]. rewrite !bind_eq.
  assert (ac3_body iter1 q ls s = ac3_body iter2 q ls s) as Hbody.
  { destruct Hinv as [Hwf Hq]. simpl in *. destruct q as [|[xi xj] rest]; [done|].
    apply Forall_cons in Hq as [[Hxi Hxj] Hq]. simpl in Hxi, Hxj.
    rewrite !ac3_body_wf by done. unfold requeued. by rewrite agree_diff. }
  rewrite <-Hbody.
  destruct (ac3_body iter1 q ls s) as [[[[q1 ls1]|r1] s1]| |] eqn:Hb; try done.
  apply IH. by apply (ac3_step_inv iter1 iter1_perm (q, ls, s) (q1, ls1, s1)).
Qed.

Lemma ac3_ext fuel self : csp_wf self → ac3 iter1 fuel self = ac3 iter2 fuel self.
Proof.
  intros Hwf. unfold ac3. rewrite !bind_eq, !initial_queue_wf by done.
  rewrite <-all_arcs_ext. apply ac3_loop_ext. split; [done|]. simpl.
  apply Forall_forall. intros a. by apply elem_of_all_arcs.
Qed.

Lemma lcv_ext self var a : var ∈ all_cells → lcv iter1 self var a = lcv iter2 self var a.
Proof. intros Hvar. unfold lcv, count_of. by rewrite agree_nbrs. Qed.

Lemma try_values_ext (self : SudokuCSP)
    (rec1 rec2 : gmap cell Z → list event →
                 M SudokuCSP (option (gmap cell Z) * gmap cell Z * list event))
    (var : cell) (values : list Z) :
  csp_wf self → var ∈ all_cells →
  (∀ a log, rec1 a log self = rec2 a log self) →
  (∀ a log, frame_ok self a log (rec1 a log self)) →
  ∀ a log, try_values iter1 rec1 var values a log self
           = try_values iter2 rec2 var values a log self.
Proof.
  intros Hwf Hvar Hrec Hframe. induction values as [|value values IH]; intros a0 log; [done|].
  rewrite !try_values_cons by done. unfold consistent_with. rewrite <-agree_nbrs by done.
  destruct (forallb _ _); [|apply IH].
  rewrite <-Hrec. specialize (Hframe (<[var := value]> a0) (Assign var value :: log)).
  destruct (rec1 _ _ _) as [[[[[r|] a'] log'] s']| |]; try done.
  destruct Hframe as (-> & _ & _). destruct (a' !! var); [apply IH|done].
Qed.

Lemma backtrack_ext (self : SudokuCSP) fuel : ∀ depth a log,
  csp_wf self →
  backtrack iter1 fuel depth a log self = backtrack iter2 fuel depth a log self.
Proof.
  induction fuel as [|fuel IH]; intros depth a log Hwf; [done|].
  rewrite !backtrack_S by done. destruct (size a =? 81); [done|].
  destruct (mrv self a) as [var|] eqn:Hmrv; [|done].
  apply mrv_Some in Hmrv as [Hvar _]. rewrite <-lcv_ext by done.
  apply try_values_ext; try done.
  - intros. by apply IH.
  - intros a1 log1.
    pose proof (backtrack_frame iter1 iter1_perm self Hwf fuel (S depth) a1 log1) as Hf.
    destruct (backtrack _ _ _ _ _ _) as [[[[r a'] log'] s']| |]; try done.
    destruct Hf as (-> & (new & ->) & Hr). split_and!; try done.
    exists (new ++ [Enter (S depth)]). by rewrite <-app_assoc.
Qed.

Lemma solve_sudoku_ext fuel p :
  shape9 p → solve_sudoku iter1 fuel p = solve_sudoku iter2 fuel p.
Proof.
  intros Hp.
  destruct (new_SudokuCSP_facts p Hp) as (s0 & Hnew & Hwf0 & _).
  rewrite !(solve_sudoku_eq _ _ _ _ Hnew), <-ac3_ext by done.
  destruct (ac3 iter1 fuel s0) as [[[[] ls] s1]| |] eqn:Hac3; try done.
  destruct (ac3_spec _ iter1_perm _ _ _ _ _ Hwf0 Hac3) as (Hwf1 & _).
  by rewrite <-backtrack_ext.
Qed.
End IterationOrder.

(** ** Puzzles that propagation alone solves *)

(** When [solve_sudoku] returns a grid and the search has logged nothing,
    the grid is the only completion of the puzzle. *)
Lemma propagation_solved_unique (iter_cells : list cell → list cell) fuel p g lengths :
  (∀ s, iter_cells s ≡ₚ s) → shape9 p →
  solve_sudoku iter_cells fuel p = Returns (Some g, lengths, []) →
  ∀ g', completion p g' → g' = g.
Proof.
  intros Hperm Hp Hrun g' Hg'.
  destruct (completion_elim p g' Hg') as (Hshape & Hdom & Hproper & _).
  destruct (new_SudokuCSP_facts p Hp) as (s0 & Hnew & Hwf0 & _ & Hdom0 & Hne0 & _).
  rewrite (solve_sudoku_eq _ _ _ _ Hnew) in Hrun.
  destruct (ac3 iter_cells fuel s0) as [[[[] ls] s1]| |] eqn:Hac3; try done.
  destruct (ac3_spec _ Hperm _ _ _ _ _ Hwf0 Hac3) as (Hwf1 & _ & Hsub & Hsol & Htrue).
  destruct (Htrue eq_refl) as [Hcons Hne1]. specialize (Hne1 Hne0).
  destruct (Hsol (grid_value g') Hproper) as [_ Hin1].
  { intros c Hc. rewrite Hdom0 by done. by apply Hdom. }
  destruct (forallb _ _) eqn:Hsolved.
  - rewrite get_solution_wf in Hrun by done. simplify_eq.
    destruct (singleton_store_grid s1 Hwf1 Hcons (is_solved_true s1 Hwf1 Hsolved))
      as [Hsingle _].
    apply grid_ext; [done|apply shape9_grid_of|]. intros c Hc.
    specialize (Hin1 c Hc). rewrite (Hsingle c Hc) in Hin1.
    by apply list_elem_of_singleton in Hin1.
  - pose proof (backtrack_frame iter_cells Hperm s1 Hwf1 fuel 0 ∅ []) as Hframe.
    destruct (backtrack _ _ _ _ _ _) as [[[[[a|] a'] log] s']| |]; try done.
    destruct Hframe as (_ & (new & ->) & _).
    destruct (size a =? 0); simplify_eq.
    assert (length (reverse (new ++ [Enter 0])) = 0) as Hlen by by rewrite H0.
    rewrite length_reverse, length_app in Hlen. simpl in Hlen. lia.
Qed.

(** ** Checking concrete grids and reading concrete runs *)

Definition sudoku_grid_check (p : list (list Z)) : bool :=
  bool_decide (shape9 p ∧ Forall (fun c => (0 ≤ grid_value p c ≤ 9)%Z) all_cells_def).

Lemma sudoku_grid_check_true p : sudoku_grid_check p = true → sudoku_grid p.
Proof.
  intros [Hp Hall]%bool_decide_eq_true. split; [done|].
  intros i j Hi Hj. rewrite <-all_cells_unseal, Forall_forall in Hall.
  by apply Hall, elem_of_all_cells.
Qed.

Lemma shape9_check p : bool_decide (shape9 p) = true → shape9 p.
Proof. apply bool_decide_eq_true. Qed.

(** What a run returned (a default where it did not return). *)
Definition returned {A} (default : A) (o : outcome A) : A :=
  match o with
  | Returns a => a
  | _ => default
  end.

(** The iteration order that follows the insertion order. *)
Definition insertion_order (s : list cell) : list cell := s.

Lemma insertion_order_perm s : insertion_order s ≡ₚ s.
Proof. done. Qed.

(** A solved grid with its first cell blanked, and the solved grid. *)
Definition puzzle_one_blank : list (list Z) :=
  [ [0; 3; 4; 6; 7; 8; 9; 1; 2];
    [6; 7; 2; 1; 9; 5; 3; 4; 8];
    [1; 9; 8; 3; 4; 2; 5; 6; 7];
    [8; 5; 9; 7; 6; 1; 4; 2; 3];
    [4; 2; 6; 8; 5; 3; 7; 9; 1];
    [7; 1; 3; 9; 2; 4; 8; 5; 6];
    [9; 6; 1; 5; 3; 7; 2; 8; 4];
    [2; 8; 7; 4; 1; 9; 6; 3; 5];
    [3; 4; 5; 2; 8; 6; 1; 7; 9] ]%Z.

Definition solved_one_blank : list (list Z) :=
  [ [5; 3; 4; 6; 7; 8; 9; 1; 2];
    [6; 7; 2; 1; 9; 5; 3; 4; 8];
    [1; 9; 8; 3; 4; 2; 5; 6; 7];
    [8; 5; 9; 7; 6; 1; 4; 2; 3];
    [4; 2; 6; 8; 5; 3; 7; 9; 1];
    [7; 1; 3; 9; 2; 4; 8; 5; 6];
    [9; 6; 1; 5; 3; 7; 2; 8; 4];
    [2; 8; 7; 4; 1; 9; 6; 3; 5];
    [3; 4; 5; 2; 8; 6; 1; 7; 9] ]%Z.

(** The empty grid, which only the search can fill. *)
Definition puzzle_empty : list (list Z) := replicate 9 (replicate 9 0%Z).

(** A grid with two 5s in row 0. *)
Definition puzzle_two_fives : list (list Z) :=
  [5; 5; 0; 0; 0; 0; 0; 0; 0]%Z :: replicate 8 (replicate 9 0%Z).

(** ** The claims *)

Lemma solve_sudoku_completion (iter_cells : list cell → list cell) fuel p g lengths trace :
  (∀ s, iter_cells s ≡ₚ s) → sudoku_grid p →
  solve_sudoku iter_cells fuel p = Returns (Some g, lengths, trace) →
  completion p g.
Proof.
  intros Hperm Hp Hrun.
  destruct (solve_sudoku_sound iter_cells Hperm fuel p g lengths trace (proj1 Hp) Hrun)
    as (Hshape & Hdom & Hproper).
  by apply completion_intro.
Qed.

(** C1: whenever [solve_sudoku] returns a grid for a 9x9 input grid (entries
    0 for empty, 1..9 for clues), every row, every column and every 3x3
    block of the returned grid holds each of 1..9 exactly once, and every
    cell that held a clue in the input holds the same value in the output. *)
Theorem C1_returned_grid_is_valid
    (iter_cells : list cell → list cell) fuel p g lengths trace :
  (∀ s, iter_cells s ≡ₚ s) →
  sudoku_grid p →
  solve_sudoku iter_cells fuel p = Returns (Some g, lengths, trace) →
  valid_grid g ∧ keeps_clues p g.
Proof. intros Hperm Hp Hrun. by apply (solve_sudoku_completion iter_cells fuel p g lengths trace). Qed.

Definition run_lengths (o : outcome (option (list (list Z)) * list Z * list event)) : list Z :=
  match o with
  | Returns (_, lengths, _) => lengths
  | _ => []
  end.

Definition run_trace (o : outcome (option (list (list Z)) * list Z * list event)) : list event :=
  match o with
  | Returns (_, _, trace) => trace
  | _ => []
  end.

Lemma C1_witness :
  valid_grid solved_one_blank ∧ keeps_clues puzzle_one_blank solved_one_blank.
Proof.
  apply (C1_returned_grid_is_valid insertion_order enough_fuel puzzle_one_blank
           solved_one_blank
           (run_lengths (solve_sudoku insertion_order enough_fuel puzzle_one_blank))
           (run_trace (solve_sudoku insertion_order enough_fuel puzzle_one_blank))).
  - apply insertion_order_perm.
  - apply sudoku_grid_check_true. vm_compute. reflexivity.
  - vm_compute. reflexivity.
Defined.

(** C2: on a 9x9 grid that has exactly one valid completion, [solve_sudoku]
    (given enough fuel) returns that completion, not [None]. *)
Theorem C2_unique_completion_is_returned
    (iter_cells : list cell → list cell) fuel p g :
  (∀ s, iter_cells s ≡ₚ s) →
  shape9 p →
  completion p g →
  (∀ g', completion p g' → g' = g) →
  enough_fuel ≤ fuel →
  ∃ lengths trace, solve_sudoku iter_cells fuel p = Returns (Some g, lengths, trace).
Proof.
  intros Hperm Hp Hg Hunique Hfuel.
  destruct (solve_sudoku_complete iter_cells Hperm fuel p g Hp Hg Hfuel)
    as (g' & lengths & trace & Hrun).
  exists lengths, trace. rewrite Hrun. assert (g' = g) as ->; [|done]. apply Hunique.
  apply (solve_sudoku_completion iter_cells fuel p g' lengths trace); [done| |done].
  split; [done|]. intros i j Hi Hj.
  assert ((i, j) ∈ all_cells) as Hc by by apply elem_of_all_cells.
  destruct (completion_elim p g Hg) as (_ & Hdom & _ & Hrange).
  specialize (Hdom _ Hc). specialize (Hrange _ Hc).
  apply elem_of_initial_domain in Hdom. case_decide; lia.
Qed.

Lemma C2_witness :
  ∃ lengths trace,
    solve_sudoku insertion_order enough_fuel puzzle_one_blank
    = Returns (Some solved_one_blank, lengths, trace).
Proof.
  assert (solve_sudoku insertion_order enough_fuel puzzle_one_blank
          = Returns (Some solved_one_blank,
                     run_lengths (solve_sudoku insertion_order enough_fuel puzzle_one_blank),
                     [])) as Hrun by (vm_compute; reflexivity).
  apply (C2_unique_completion_is_returned insertion_order enough_fuel puzzle_one_blank
           solved_one_blank).
  - apply insertion_order_perm.
  - apply shape9_check. vm_compute. reflexivity.
  - eapply solve_sudoku_completion; [apply insertion_order_perm| |exact Hrun].
    apply sudoku_grid_check_true. vm_compute. reflexivity.
  - eapply propagation_solved_unique; [apply insertion_order_perm| |exact Hrun].
    apply shape9_check. vm_compute. reflexivity.
  - apply Nat.le_refl.
Defined.

(** Two neighbours that hold the same clue make [ac3] fail. *)
Lemma equal_clues_fail (iter_cells : list cell → list cell) fuel p c c' :
  (∀ s, iter_cells s ≡ₚ s) → shape9 p →
  c ∈ all_cells → c' ∈ nbrs c →
  grid_value p c ≠ 0%Z → grid_value p c = grid_value p c' →
  enough_fuel ≤ fuel →
  ∃ csp lengths csp1,
    new_SudokuCSP p = Returns csp ∧
    ac3 iter_cells fuel csp = Returns ((false, lengths), csp1).
Proof.
  intros Hperm Hp Hc Hc' Hclue Heq Hfuel.
  destruct (new_SudokuCSP_facts p Hp) as (s0 & Hnew & Hwf0 & _ & Hdom0 & Hne0 & Htotal).
  destruct (ac3_terminates iter_cells Hperm fuel s0 Hwf0) as (r & ls & s1 & Hac3).
  { unfold enough_fuel in Hfuel. lia. }
  exists s0, ls, s1. split; [done|]. destruct r; [exfalso|done].
  destruct (ac3_spec _ Hperm _ _ _ _ _ Hwf0 Hac3) as (Hwf1 & _ & Hsub & _ & Htrue).
  destruct (Htrue eq_refl) as [Hcons Hne1]. specialize (Hne1 Hne0).
  assert (c' ∈ all_cells) as Hcg by by eapply nbrs_in_grid.
  assert (∀ x, x ∈ dom_of s1 c → x = grid_value p c) as Hx.
  { intros x Hin. eapply elem_of_sublist in Hin; [|apply Hsub].
    rewrite Hdom0 in Hin by done. apply elem_of_initial_domain in Hin.
    by rewrite decide_False in Hin. }
  assert (∀ y, y ∈ dom_of s1 c' → y = grid_value p c) as Hy.
  { intros y Hin. eapply elem_of_sublist in Hin; [|apply Hsub].
    rewrite Hdom0 in Hin by done. apply elem_of_initial_domain in Hin.
    rewrite decide_False in Hin by congruence. congruence. }
  specialize (Hne1 c Hc). destruct (dom_of s1 c) as [|x d] eqn:Hd; [done|].
  destruct (Hcons (c, c') (conj Hc Hc') x) as (y & Hyin & Hne).
  { simpl. rewrite Hd. left. }
  simpl in Hyin. rewrite (Hx x), (Hy y Hyin) in Hne; [done|left].
Qed.

Lemma solve_sudoku_ac3_failed (iter_cells : list cell → list cell) fuel p csp lengths csp1 :
  new_SudokuCSP p = Returns csp →
  ac3 iter_cells fuel csp = Returns ((false, lengths), csp1) →
  solve_sudoku iter_cells fuel p = Returns (None, lengths, []).
Proof. intros Hnew Hac3. by rewrite (solve_sudoku_eq _ _ _ _ Hnew), Hac3. Qed.

(** C3: (1) when a [revise] call empties the domain of a cell, the loop of
    [ac3] returns failure at once, whatever arcs are left in the queue, with
    one more recorded length and the object as that [revise] left it;
    (2) whenever [ac3] returns failure, [solve_sudoku] returns [None] and the
    trace of the search is empty; (3) every call of [backtrack] that returns
    logs its entry, so an empty trace means the search was never entered;
    (4) on a grid with two equal clues in one row, [ac3] returns failure and
    [solve_sudoku] returns [None] with an empty search trace. *)
Theorem C3_ac3_failure_stops_everything (iter_cells : list cell → list cell) :
  (∀ s, iter_cells s ≡ₚ s) →
  (∀ fuel self self1 xi xj rest lengths,
     revise xi xj self = Returns (true, self1) →
     get_domain xi self1 = Returns ([], self1) →
     ac3_loop iter_cells (S fuel) ((xi, xj) :: rest) lengths self
     = Returns ((false, lengths ++ [Z.of_nat (S (length rest))]), self1)) ∧
  (∀ fuel p csp lengths csp1,
     new_SudokuCSP p = Returns csp →
     ac3 iter_cells fuel csp = Returns ((false, lengths), csp1) →
     solve_sudoku iter_cells fuel p = Returns (None, lengths, [])) ∧
  (∀ fuel depth assignment log self result assignment' log' self',
     csp_wf self →
     backtrack iter_cells fuel depth assignment log self
     = Returns ((result, assignment', log'), self') →
     Enter depth ∈ log') ∧
  (∀ fuel p i j1 j2,
     shape9 p → i < 9 → j1 < 9 → j2 < 9 → j1 ≠ j2 →
     grid_value p (i, j1) ≠ 0%Z → grid_value p (i, j1) = grid_value p (i, j2) →
     enough_fuel ≤ fuel →
     ∃ csp lengths csp1,
       new_SudokuCSP p = Returns csp ∧
       ac3 iter_cells fuel csp = Returns ((false, lengths), csp1) ∧
       solve_sudoku iter_cells fuel p = Returns (None, lengths, [])).
Proof.
  intros Hperm. split_and!.
  - intros fuel self self1 xi xj rest lengths Hrev Hdom.
    cbn [ac3_loop]. unfold ac3_body. by rewrite !bind_eq, Hrev, bind_eq, Hdom.
  - intros fuel p csp lengths csp1. apply solve_sudoku_ac3_failed.
  - intros fuel depth a log self r a' log' self' Hwf Hrun.
    pose proof (backtrack_frame iter_cells Hperm self Hwf fuel depth a log) as Hframe.
    rewrite Hrun in Hframe. destruct Hframe as (_ & (new & ->) & _).
    apply elem_of_app. right. left.
  - intros fuel p i j1 j2 Hp Hi Hj1 Hj2 Hne Hclue Heq Hfuel.
    assert ((i, j1) ∈ all_cells) as Hc1 by by apply elem_of_all_cells.
    assert ((i, j2) ∈ all_cells) as Hc2 by by apply elem_of_all_cells.
    destruct (equal_clues_fail iter_cells fuel p (i, j1) (i, j2))
      as (csp & lengths & csp1 & Hnew & Hac3); try done.
    { apply nbrs_related; [done..|]. split; [congruence|]. by left. }
    exists csp, lengths, csp1. split_and!; [done..|].
    by apply (solve_sudoku_ac3_failed iter_cells fuel p csp lengths csp1).
Qed.

Lemma C3_witness :
  ∃ lengths, solve_sudoku insertion_order enough_fuel puzzle_two_fives
             = Returns (None, lengths, []).
Proof.
  destruct (C3_ac3_failure_stops_everything insertion_order insertion_order_perm)
    as (_ & _ & _ & Hrow).
  destruct (Hrow enough_fuel puzzle_two_fives 0 0 1)
    as (csp & lengths & csp1 & _ & _ & Hrun).
  - apply shape9_check. vm_compute. reflexivity.
  - lia.
  - lia.
  - lia.
  - lia.
  - vm_compute. discriminate.
  - vm_compute. reflexivity.
  - apply Nat.le_refl.
  - by exists lengths.
Defined.

(** C4, as stated, fails: the worklist holds more than 1620 arcs.  On the
    solved grid with its first cell blanked the first turn prunes the blank
    cell against a clue and puts 19 arcs back behind the 1619 that are left,
    so the length recorded at the second turn is 1638. *)
Lemma C4_counterexample :
  ¬ (∀ (iter_cells : list cell → list cell) fuel p res lengths trace,
       (∀ s, iter_cells s ≡ₚ s) → sudoku_grid p →
       solve_sudoku iter_cells fuel p = Returns (res, lengths, trace) →
       Forall (fun n => (n ≤ 1620)%Z) lengths).
Proof.
  intros H.
  assert (solve_sudoku insertion_order enough_fuel puzzle_one_blank
          = Returns (Some solved_one_blank,
                     run_lengths (solve_sudoku insertion_order enough_fuel puzzle_one_blank),
                     [])) as Hrun by (vm_compute; reflexivity).
  specialize (H insertion_order enough_fuel puzzle_one_blank _ _ _ insertion_order_perm
                (sudoku_grid_check_true puzzle_one_blank eq_refl) Hrun).
  rewrite Forall_forall in H. specialize (H 1638%Z).
  assert (1638%Z ∈ run_lengths (solve_sudoku insertion_order enough_fuel puzzle_one_blank))
    as Hin by (apply (bool_decide_unpack _); vm_compute; exact I).
  specialize (H Hin). lia.
Qed.

(** C4, amended: the worklist starts with 81 x 20 = 1620 arcs and never holds
    more than [queue_bound] = 1620 + 18 x 648 = 13284 arcs, at every turn of the loop of
    [ac3] and in every length that [solve_sudoku] reports; and every call of
    [backtrack] is nested in at most 81 others (the top-level call has depth
    0, a call at depth [d] works on an assignment of [d] cells). *)
Theorem C4_worklist_and_depth_bounds (iter_cells : list cell → list cell) p :
  (∀ s, iter_cells s ≡ₚ s) →
  shape9 p →
  (∀ csp queue csp' st,
     new_SudokuCSP p = Returns csp →
     initial_queue iter_cells csp = Returns (queue, csp') →
     rtc (ac3_step iter_cells) (queue, [], csp') st →
     length queue = 1620 ∧ length st.1.1 ≤ queue_bound) ∧
  (∀ fuel res lengths trace,
     solve_sudoku iter_cells fuel p = Returns (res, lengths, trace) →
     Forall (fun n => (n ≤ 13284)%Z) lengths ∧
     Forall (fun e => match e with Enter depth => depth ≤ 81 | _ => True end) trace).
Proof.
  intros Hperm Hp.
  destruct (new_SudokuCSP_facts p Hp) as (s0 & Hnew & Hwf0 & _ & _ & Hne0 & Htotal).
  assert (Z.of_nat queue_bound = 13284%Z) as HZ by reflexivity.
  split.
  - intros csp queue csp' st Hnew' Hq Hsteps.
    assert (csp = s0) as -> by congruence.
    rewrite initial_queue_wf in Hq by done. simplify_eq.
    split; [by apply all_arcs_length|].
    apply (bound_inv_length st).
    eapply bound_inv_steps; [done| |done]. by apply bound_inv_init.
  - intros fuel res lengths trace Hrun.
    rewrite (solve_sudoku_eq _ _ _ _ Hnew) in Hrun.
    destruct (ac3 iter_cells fuel s0) as [[[b ls] s1]| |] eqn:Hac3; try done.
    pose proof (ac3_lengths_bound iter_cells Hperm fuel s0 b ls s1 Hwf0 Hne0 Htotal Hac3)
      as Hls.
    rewrite HZ in Hls.
    destruct (ac3_spec _ Hperm _ _ _ _ _ Hwf0 Hac3) as (Hwf1 & _).
    destruct b; [|by simplify_eq].
    destruct (forallb _ _).
    { destruct (get_solution s1) as [[? ?]| |]; by simplify_eq. }
    destruct (backtrack _ _ _ _ _ _) as [[[[r a'] log] s']| |] eqn:Hbt; try done.
    pose proof (backtrack_returns iter_cells Hperm _ _ _ Hwf1 Hbt)
      as (_ & (new & -> & Hnew') & _).
    rewrite app_nil_r in Hrun.
    assert (Forall (fun e => match e with Enter depth => depth ≤ 81 | _ => True end)
                   (reverse new)) as Htrace by by apply Forall_reverse.
    destruct r as [a|]; [destruct (size a =? 0)|]; by simplify_eq.
Qed.

Lemma C4_witness :
  Forall (fun n => (n ≤ 13284)%Z)
         (run_lengths (solve_sudoku insertion_order enough_fuel puzzle_empty)) ∧
  Forall (fun e => match e with Enter depth => depth ≤ 81 | _ => True end)
         (run_trace (solve_sudoku insertion_order enough_fuel puzzle_empty)).
Proof.
  destruct (C4_worklist_and_depth_bounds insertion_order puzzle_empty insertion_order_perm)
    as [_ Hrun].
  - apply shape9_check. vm_compute. reflexivity.
  - apply (Hrun enough_fuel
             (fst (fst (returned (None, [], []) (solve_sudoku insertion_order enough_fuel puzzle_empty))))).
    vm_compute. reflexivity.
Defined.

(** Concrete states for the examples below: the object built from
    [puzzle_one_blank], the queue [ac3] starts from, and the loop state
    after the first turn. *)
Definition empty_csp : SudokuCSP := {| puzzle := []; domains := []; neighbors := ∅ |}.

Definition csp_one_blank : SudokuCSP := returned empty_csp (new_SudokuCSP puzzle_one_blank).

Definition queue_one_blank : list arc :=
  fst (returned ([], empty_csp) (initial_queue insertion_order csp_one_blank)).

Definition second_state : ac3_state :=
  match ac3_body insertion_order queue_one_blank [] csp_one_blank with
  | Returns (inl x, s) => (x, s)
  | _ => ([], [], empty_csp)
  end.

Lemma csp_one_blank_wf : csp_wf csp_one_blank.
Proof.
  apply (new_SudokuCSP_spec puzzle_one_blank).
  - apply shape9_check. vm_compute. reflexivity.
  - vm_compute. reflexivity.
Qed.

(** C5: across one run of [ac3], the domain of every cell at any turn is a
    sublist (so a subset, and no longer) of its domain at every earlier turn,
    and so is its domain in the object that [ac3] leaves when it returns. *)
Theorem C5_domains_only_shrink
    (iter_cells : list cell → list cell) self queue self0 st1 st2 c :
  (∀ s, iter_cells s ≡ₚ s) →
  csp_wf self →
  initial_queue iter_cells self = Returns (queue, self0) →
  rtc (ac3_step iter_cells) (queue, [], self0) st1 →
  rtc (ac3_step iter_cells) st1 st2 →
  dom_of st2.2 c `sublist_of` dom_of st1.2 c ∧
  (∀ x, x ∈ dom_of st2.2 c → x ∈ dom_of st1.2 c) ∧
  length (dom_of st2.2 c) ≤ length (dom_of st1.2 c) ∧
  (∀ result self',
     ac3_body iter_cells st2.1.1 st2.1.2 st2.2 = Returns (inr result, self') →
     dom_of self' c `sublist_of` dom_of st1.2 c).
Proof.
  intros Hperm Hwf Hq Hsteps1 Hsteps2.
  rewrite initial_queue_wf in Hq by done. simplify_eq.
  assert (ac3_inv (all_arcs iter_cells, [], self0)) as Hinv0.
  { split; [done|]. simpl. apply Forall_forall. intros a. by apply elem_of_all_arcs. }
  destruct (ac3_steps_shrink iter_cells Hperm _ _ Hinv0 Hsteps1) as [Hinv1 _].
  destruct (ac3_steps_shrink iter_cells Hperm _ _ Hinv1 Hsteps2) as [Hinv2 Hsub].
  split_and!.
  - apply Hsub.
  - intros x Hx. eapply elem_of_sublist; [done|apply Hsub].
  - apply sublist_length, Hsub.
  - intros result self' Hlast. destruct st2 as [[q2 ls2] s2].
    destruct (ac3_final_cases _ _ _ _ _ _ Hinv2 Hlast)
      as [(_ & _ & ->)|(xi & xj & rest & _ & _ & _ & _ & _ & _ & ->)]; [apply Hsub|].
    rewrite dom_of_set_dom. case_decide; [apply sublist_nil_l|apply Hsub].
Qed.

Lemma C5_witness :
  dom_of second_state.2 (0, 0) `sublist_of` dom_of csp_one_blank (0, 0) ∧
  length (dom_of second_state.2 (0, 0)) = 8 ∧ length (dom_of csp_one_blank (0, 0)) = 9.
Proof.
  destruct (C5_domains_only_shrink insertion_order csp_one_blank queue_one_blank csp_one_blank
              (queue_one_blank, [], csp_one_blank) second_state (0, 0))
    as (Hsub & _).
  - apply insertion_order_perm.
  - apply csp_one_blank_wf.
  - vm_compute. reflexivity.
  - apply rtc_refl.
  - apply rtc_once. unfold ac3_step. vm_compute. reflexivity.
  - split; [exact Hsub|]. split; vm_compute; reflexivity.
Defined.

(** C6: when [ac3] returns success, a second run on the object it leaves
    returns success again and leaves that object as it is: no domain, nor
    anything else in the object, changes. *)
Theorem C6_ac3_fixed_point
    (iter_cells : list cell → list cell) fuel self lengths self' :
  (∀ s, iter_cells s ≡ₚ s) →
  csp_wf self →
  ac3 iter_cells fuel self = Returns ((true, lengths), self') →
  (∀ fuel', 1620 < fuel' →
     ∃ lengths', ac3 iter_cells fuel' self' = Returns ((true, lengths'), self')) ∧
  (∀ fuel' result lengths' self'',
     ac3 iter_cells fuel' self' = Returns ((result, lengths'), self'') →
     result = true ∧ self'' = self' ∧ ∀ c, dom_of self'' c = dom_of self' c).
Proof.
  intros Hperm Hwf Hrun.
  destruct (ac3_spec _ Hperm _ _ _ _ _ Hwf Hrun) as (Hwf' & _ & _ & _ & Htrue).
  destruct (Htrue eq_refl) as [Hcons _].
  assert (∀ fuel', 1620 < fuel' →
            ∃ lengths', ac3 iter_cells fuel' self' = Returns ((true, lengths'), self')) as Hagain.
  { intros fuel' Hfuel. unfold ac3. rewrite bind_eq, initial_queue_wf by done.
    apply ac3_loop_consistent; try done.
    - apply Forall_forall. intros a. by apply elem_of_all_arcs.
    - by rewrite all_arcs_length. }
  split; [done|]. intros fuel' result lengths' self'' Hrun'.
  destruct (Hagain (fuel' + 1621)) as [lengths2 Hrun2]; [lia|].
  apply (ac3_fuel_mono iter_cells fuel' (fuel' + 1621)) in Hrun'; [|lia].
  rewrite Hrun2 in Hrun'. by simplify_eq.
Qed.

Definition csp_one_blank_ac3 : SudokuCSP :=
  snd (returned ((true, []), empty_csp) (ac3 insertion_order enough_fuel csp_one_blank)).

Lemma C6_witness :
  ∃ lengths', ac3 insertion_order enough_fuel csp_one_blank_ac3
              = Returns ((true, lengths'), csp_one_blank_ac3).
Proof.
  destruct (C6_ac3_fixed_point insertion_order enough_fuel csp_one_blank
              (snd (fst (returned ((true, []), empty_csp)
                                  (ac3 insertion_order enough_fuel csp_one_blank))))
              csp_one_blank_ac3)
    as [Hagain _].
  - apply insertion_order_perm.
  - apply csp_one_blank_wf.
  - vm_compute. reflexivity.
  - apply Hagain. unfold enough_fuel. lia.
Defined.

(** C8: (1) a call of [backtrack] that returns hands back either a full
    assignment (81 entries, the shared dict itself) or [None], and [None]
    only when the assignment it was given is not full, in which case the
    dict is back to what it was given; (2) with fuel for 82 calls the
    top-level call returns (it raises nothing), and an assignment it returns
    covers exactly the 81 cells; (3) a grid that [solve_sudoku] returns has
    nine rows of nine entries, none of them 0; (4) with enough fuel
    [solve_sudoku] returns a grid or [None] on every 9x9 grid. *)
Theorem C8_full_assignment_or_None (iter_cells : list cell → list cell) :
  (∀ s, iter_cells s ≡ₚ s) →
  (∀ fuel depth assignment log self result assignment' log' self',
     csp_wf self →
     backtrack iter_cells fuel depth assignment log self
     = Returns ((result, assignment', log'), self') →
     match result with
     | Some full => size full = 81 ∧ full = assignment'
     | None => size assignment ≠ 81 ∧ assignment' = assignment
     end) ∧
  (∀ fuel self,
     csp_wf self → 82 ≤ fuel →
     ∃ result assignment' log',
       backtrack iter_cells fuel 0 ∅ [] self = Returns ((result, assignment', log'), self) ∧
       match result with
       | Some full => ∀ i j, is_Some (full !! (i, j)) ↔ i < 9 ∧ j < 9
       | None => True
       end) ∧
  (∀ fuel p res lengths trace,
     shape9 p →
     solve_sudoku iter_cells fuel p = Returns (res, lengths, trace) →
     match res with
     | Some g => shape9 g ∧ ∀ i j, i < 9 → j < 9 → grid_value g (i, j) ≠ 0%Z
     | None => True
     end) ∧
  (∀ fuel p,
     shape9 p → enough_fuel ≤ fuel →
     ∃ res lengths trace, solve_sudoku iter_cells fuel p = Returns (res, lengths, trace)).
Proof.
  intros Hperm. split_and!.
  - intros fuel depth a log self r a' log' self' Hwf Hrun.
    pose proof (backtrack_frame iter_cells Hperm self Hwf fuel depth a log) as Hframe.
    rewrite Hrun in Hframe. destruct Hframe as (_ & _ & Hr).
    destruct r as [full|]; [by destruct Hr|]. split; [|done].
    destruct fuel as [|fuel]; [done|]. rewrite backtrack_S in Hrun by done.
    destruct (size a =? 81) eqn:Hsize; [done|]. by apply Nat.eqb_neq.
  - intros fuel self Hwf Hfuel.
    destruct (backtrack_terminates iter_cells Hperm fuel self Hwf Hfuel)
      as [[[[r a'] log'] s'] Hrun].
    pose proof (backtrack_returns iter_cells Hperm _ _ _ Hwf Hrun) as (-> & _ & Hr).
    exists r, a', log'. split; [done|]. destruct r as [full|]; [|done].
    destruct Hr as (_ & Hsize & Hfull & _). intros i j. rewrite <-elem_of_all_cells. split.
    + by apply (consistent_assignment_keys self).
    + apply size_assignment_81; [|done]. intros c. by apply (consistent_assignment_keys self).
  - intros fuel p res lengths trace Hp Hrun. destruct res as [g|]; [|done].
    destruct (solve_sudoku_sound iter_cells Hperm fuel p g lengths trace Hp Hrun)
      as (Hshape & Hdom & _).
    split; [done|]. intros i j Hi Hj. eapply initial_domain_nonzero, Hdom.
    by apply elem_of_all_cells.
  - intros fuel p. by apply solve_sudoku_total.
Qed.

Lemma C8_witness :
  ∃ res lengths trace,
    solve_sudoku insertion_order enough_fuel puzzle_empty = Returns (res, lengths, trace) ∧
    match res with
    | Some g => shape9 g ∧ ∀ i j, i < 9 → j < 9 → grid_value g (i, j) ≠ 0%Z
    | None => True
    end.
Proof.
  destruct (C8_full_assignment_or_None insertion_order insertion_order_perm)
    as (_ & _ & Hgrid & Htotal).
  assert (shape9 puzzle_empty) as Hp by (apply shape9_check; vm_compute; reflexivity).
  destruct (Htotal enough_fuel puzzle_empty Hp (Nat.le_refl _)) as (res & lengths & trace & Hrun).
  exists res, lengths, trace. split; [exact Hrun|].
  exact (Hgrid enough_fuel puzzle_empty res lengths trace Hp Hrun).
Defined.

Lemma new_SudokuCSP_neighbors p csp :
  new_SudokuCSP p = Returns csp → neighbors csp = initialize_neighbors.
Proof.
  unfold new_SudokuCSP. destruct (initialize_domains p); [|done..]. by intros [= <-].
Qed.

(** C9: in every object that [__init__] builds, the neighbour set of a cell
    [(i, j)] of the grid is exactly the set of the other cells of the grid in
    its row, its column or its 3x3 block; it has 20 members; the relation is
    symmetric; and it is the same whatever the puzzle. *)
Theorem C9_neighbor_sets p csp i j :
  new_SudokuCSP p = Returns csp →
  i < 9 → j < 9 →
  ∃ ns,
    neighbors csp !! (i, j) = Some ns ∧
    NoDup ns ∧ length ns = 20 ∧
    (∀ i' j', (i', j') ∈ ns ↔ i' < 9 ∧ j' < 9 ∧ related (i, j) (i', j')) ∧
    (∀ i' j', (i', j') ∈ ns →
       ∃ ns', neighbors csp !! (i', j') = Some ns' ∧ (i, j) ∈ ns') ∧
    (∀ p' csp', new_SudokuCSP p' = Returns csp' → neighbors csp' = neighbors csp).
Proof.
  intros Hnew Hi Hj. apply new_SudokuCSP_neighbors in Hnew as Hn.
  assert ((i, j) ∈ all_cells) as Hc by by apply elem_of_all_cells.
  exists (nbrs (i, j)). rewrite Hn. split_and!.
  - by apply nbrs_lookup.
  - by apply nbrs_NoDup.
  - by apply nbrs_length.
  - intros i' j'. split.
    + intros Hin. pose proof (nbrs_in_grid _ Hc _ Hin) as Hg.
      apply nbrs_related in Hin; [|done..]. by apply elem_of_all_cells in Hg as [? ?].
    + intros (Hi' & Hj' & Hrel). apply nbrs_related; [done| |done]. by apply elem_of_all_cells.
  - intros i' j' Hin. exists (nbrs (i', j')). split.
    + apply nbrs_lookup. by eapply nbrs_in_grid.
    + by apply nbrs_sym.
  - intros p' csp' Hnew'. by apply new_SudokuCSP_neighbors in Hnew'.
Qed.

Lemma C9_witness :
  ∃ ns, neighbors csp_one_blank !! (4, 4) = Some ns ∧ length ns = 20.
Proof.
  destruct (C9_neighbor_sets puzzle_one_blank csp_one_blank 4 4)
    as (ns & Hns & _ & Hlen & _).
  - vm_compute. reflexivity.
  - lia.
  - lia.
  - exists ns. split; [exact Hns|exact Hlen].
Defined.

(** C10: on an object as [__init__] builds it and [ac3] maintains it, a call
    of [backtrack] (on any assignment, at any depth) or of
    [backtracking_search] that returns leaves [self.domains],
    [self.neighbors] and [self.puzzle] as they were. *)
Theorem C10_search_leaves_object_unchanged (iter_cells : list cell → list cell) self :
  (∀ s, iter_cells s ≡ₚ s) →
  csp_wf self →
  (∀ fuel depth assignment log r self',
     backtrack iter_cells fuel depth assignment log self = Returns (r, self') →
     domains self' = domains self ∧ neighbors self' = neighbors self ∧
     puzzle self' = puzzle self) ∧
  (∀ fuel r self',
     backtracking_search iter_cells fuel self = Returns (r, self') →
     domains self' = domains self ∧ neighbors self' = neighbors self ∧
     puzzle self' = puzzle self).
Proof.
  intros Hperm Hwf.
  assert (∀ fuel depth assignment log r self',
            backtrack iter_cells fuel depth assignment log self = Returns (r, self') →
            self' = self) as Hframe.
  { intros fuel depth a log [[r a'] log'] self' Hrun.
    pose proof (backtrack_frame iter_cells Hperm self Hwf fuel depth a log) as Hf.
    rewrite Hrun in Hf. by destruct Hf as (-> & _). }
  split.
  - intros fuel depth a log r self' Hrun. by rewrite (Hframe _ _ _ _ _ _ Hrun).
  - intros fuel r self' Hrun. unfold backtracking_search in Hrun. rewrite bind_eq in Hrun.
    destruct (backtrack _ _ _ _ _ _) as [[[[r1 a'] log'] s']| |] eqn:Hbt; try done.
    rewrite ret_eq in Hrun. simplify_eq. by rewrite (Hframe _ _ _ _ _ _ Hbt).
Qed.

Lemma C10_witness :
  domains (snd (returned ((None, []), empty_csp)
                         (backtracking_search insertion_order enough_fuel csp_one_blank)))
  = domains csp_one_blank.
Proof.
  destruct (C10_search_leaves_object_unchanged insertion_order csp_one_blank
              insertion_order_perm csp_one_blank_wf) as [_ Hsearch].
  destruct (Hsearch enough_fuel
              (fst (returned ((None, []), empty_csp)
                             (backtracking_search insertion_order enough_fuel csp_one_blank)))
              (snd (returned ((None, []), empty_csp)
                             (backtracking_search insertion_order enough_fuel csp_one_blank))))
    as (Hdom & _).
  - vm_compute. reflexivity.
  - exact Hdom.
Defined.

(** * Further properties of the code *)

(** ** [initialize_domains] and malformed grids *)

(** The grid has an entry at every cell that [initialize_domains] reads:
    [p[i][j]] exists for all [i], [j] below 9. *)
Definition has_block9 (p : list (list Z)) : Prop :=
  Forall (fun i => Forall (fun j => is_Some (p !! i ≫= fun row => row !! j)) range9) range9.

Global Instance has_block9_dec p : Decision (has_block9 p).
Proof. unfold has_block9. apply _. Defined.

Lemma has_block9_spec p :
  has_block9 p ↔ ∀ i j, i < 9 → j < 9 → is_Some (p !! i ≫= fun row => row !! j).
Proof.
  unfold has_block9, range9. rewrite Forall_forall. setoid_rewrite Forall_forall.
  setoid_rewrite elem_of_seq. split.
  - intros H i j Hi Hj. apply H; lia.
  - intros H i Hi j Hj. apply H; lia.
Qed.

Lemma shape9_has_block9 p : shape9 p → has_block9 p.
Proof.
  intros [Hlen Hrows]. apply has_block9_spec. intros i j Hi Hj.
  destruct (p !! i) as [row|] eqn:Hrow; [|apply lookup_ge_None in Hrow; lia].
  simpl. rewrite Forall_forall in Hrows.
  assert (length row = 9) as Hr by (apply Hrows; by eapply list_elem_of_lookup_2).
  apply lookup_lt_is_Some. lia.
Qed.

Lemma puzzle_at_lookup {St} p i j (s : St) :
  puzzle_at p i j s
  = match p !! i ≫= (fun row => row !! j) with
    | Some v => Returns (v, s)
    | None => Raises IndexError
    end.
Proof.
  unfold puzzle_at. destruct (p !! i) as [row|]; simpl; [|done]. by destruct (row !! j).
Qed.

Section InitializeDomainsGeneral.
Context (p : list (list Z)).

Let entry (c : cell) : cell * list Z := (c, initial_domain (grid_value p c)).

Lemma initialize_domains_row_general i js : ∀ d,
  NoDup (map fst d ++ map (fun j => (i, j)) js) →
  foldM (fun (_ : unit) j =>
      v <- puzzle_at p i j ;;
      if decide (v = 0%Z)
      then fun domains => Returns (tt, dict_set (i, j) full_domain domains)
      else v' <- puzzle_at p i j ;;
           fun domains => Returns (tt, dict_set (i, j) [v'] domains))
    js tt d
  = if decide (Forall (fun j => is_Some (p !! i ≫= fun row => row !! j)) js)
    then Returns (tt, d ++ map (fun j => entry (i, j)) js)
    else Raises IndexError.
Proof.
  induction js as [|j js IH]; intros d Hnd.
  { rewrite decide_True by constructor. simpl. by rewrite app_nil_r. }
  assert ((i, j) ∉ map fst d) as Hfresh.
  { apply NoDup_app in Hnd as (_ & Hd & _). intros Hin. apply (Hd _ Hin). left. }
  assert (NoDup ((map fst d ++ [(i, j)]) ++ map (fun j => (i, j)) js)) as Hnd'.
  { by rewrite <-app_assoc. }
  rewrite foldM_cons, bind_eq, puzzle_at_lookup.
  destruct (p !! i ≫= (fun row => row !! j)) as [v|] eqn:Hv.
  - assert (grid_value p (i, j) = v) as Hgv by (unfold grid_value; simpl; by rewrite Hv).
    assert (match (if decide (v = 0%Z)
                   then fun domains => Returns (tt, dict_set (i, j) full_domain domains)
                   else v' <- puzzle_at p i j ;;
                        fun domains => Returns (tt, dict_set (i, j) [v'] domains)) d with
            | Returns (acc', s') => Returns (acc', s')
            | Raises e => Raises e
            | OutOfFuel => OutOfFuel
            end = Returns (tt, d ++ [entry (i, j)])) as Hstep.
    { unfold entry, initial_domain. rewrite Hgv. destruct (decide (v = 0%Z)).
      - by rewrite dict_set_fresh.
      - rewrite bind_eq, puzzle_at_lookup, Hv. by rewrite dict_set_fresh. }
    destruct (if decide (v = 0%Z) then _ else _) as [[[] d']| |]; simplify_eq.
    rewrite IH by by rewrite map_app.
    destruct (decide (Forall _ js)) as [Hjs|Hjs].
    + rewrite decide_True by (constructor; [by rewrite Hv|done]). by rewrite <-app_assoc.
    + rewrite decide_False; [done|]. by intros [_ ?]%Forall_cons.
  - rewrite decide_False; [done|]. intros [Hj _]%Forall_cons. rewrite Hv in Hj. by destruct Hj.
Qed.

Lemma initialize_domains_rows_general rows : ∀ d,
  NoDup (map fst d ++ flat_map (fun i => map (fun j => (i, j)) range9) rows) →
  foldM (fun (_ : unit) i =>
    foldM (fun (_ : unit) j =>
      v <- puzzle_at p i j ;;
      if decide (v = 0%Z)
      then fun domains => Returns (tt, dict_set (i, j) full_domain domains)
      else v' <- puzzle_at p i j ;;
           fun domains => Returns (tt, dict_set (i, j) [v'] domains))
      range9 tt)
    rows tt d
  = if decide (Forall (fun i => Forall (fun j => is_Some (p !! i ≫= fun row => row !! j))
                                       range9) rows)
    then Returns (tt, d ++ map entry (flat_map (fun i => map (fun j => (i, j)) range9) rows))
    else Raises IndexError.
Proof.
  induction rows as [|i rows IH]; intros d Hnd.
  { rewrite decide_True by constructor. simpl. by rewrite app_nil_r. }
  change (flat_map ?f (i :: rows)) with (f i ++ flat_map f rows) in *.
  rewrite foldM_cons, initialize_domains_row_general.
  2:{ rewrite app_assoc in Hnd. by apply NoDup_app in Hnd as (? & _ & _). }
  destruct (decide (Forall _ range9)) as [Hi|Hi].
  - rewrite IH by by rewrite map_app, map_map, <-app_assoc.
    destruct (decide (Forall _ rows)) as [Hrows|Hrows].
    + rewrite decide_True by by constructor. by rewrite map_app, map_map, app_assoc.
    + rewrite decide_False; [done|]. by intros [_ ?]%Forall_cons.
  - rewrite decide_False; [done|]. by intros [? _]%Forall_cons.
Qed.
End InitializeDomainsGeneral.

Lemma initialize_domains_closed_form p :
  initialize_domains p
  = if decide (has_block9 p)
    then Returns (map (fun c => (c, initial_domain (grid_value p c))) all_cells_def)
    else Raises IndexError.
Proof.
  unfold initialize_domains.
  pose proof (initialize_domains_rows_general p range9 []) as Hrows.
  fold all_cells_def in Hrows. rewrite Hrows.
  - fold (has_block9 p). by destruct (decide (has_block9 p)).
  - rewrite <-all_cells_unseal. apply NoDup_all_cells.
Qed.

(** X1: [initialize_domains] reads exactly the entries [p[i][j]] with [i], [j]
    below 9.  When they all exist it returns the dict of the 81 cells in
    row-major order, a cell holding 0 mapped to [{1..9}] and a cell holding a
    clue [v] to [{v}] (whatever else the grid holds: further rows and columns
    are ignored); when one is missing it raises [IndexError]. *)
Theorem initialize_domains_spec p :
  initialize_domains p
  = if decide (has_block9 p)
    then Returns (map (fun c => (c, if decide (grid_value p c = 0%Z)
                                    then full_domain else [grid_value p c]))
                      all_cells_def)
    else Raises IndexError.
Proof. apply initialize_domains_closed_form. Qed.

(** X2: on a grid that lacks one of the entries [p[i][j]], [i], [j] below 9
    (fewer than nine rows, or a short row among the first nine),
    [SudokuCSP(p)] and [solve_sudoku(p)] raise [IndexError]: nothing is
    solved and nothing is returned. *)
Theorem malformed_grid_raises_IndexError (iter_cells : list cell → list cell) fuel p i j :
  i < 9 → j < 9 → p !! i ≫= (fun row => row !! j) = None →
  new_SudokuCSP p = Raises IndexError ∧
  solve_sudoku iter_cells fuel p = Raises IndexError.
Proof.
  intros Hi Hj Hnone.
  assert (new_SudokuCSP p = Raises IndexError) as Hnew.
  { unfold new_SudokuCSP. rewrite initialize_domains_closed_form, decide_False; [done|].
    intros Hb. rewrite has_block9_spec in Hb. specialize (Hb i j Hi Hj).
    rewrite Hnone in Hb. by destruct Hb. }
  split; [done|]. unfold solve_sudoku. by rewrite Hnew.
Qed.

Lemma malformed_grid_raises_IndexError_witness :
  new_SudokuCSP [[1; 2; 3]; [4; 5; 6]; [7; 8; 9]]%Z = Raises IndexError ∧
  solve_sudoku insertion_order enough_fuel [[1; 2; 3]; [4; 5; 6]; [7; 8; 9]]%Z
  = Raises IndexError.
Proof.
  apply (malformed_grid_raises_IndexError insertion_order enough_fuel
           [[1; 2; 3]; [4; 5; 6]; [7; 8; 9]]%Z 0 3).
  - lia.
  - lia.
  - reflexivity.
Defined.

(** ** [revise], [is_solved], [get_solution] *)

(** A cell of the grid. *)
Definition in_grid (c : cell) : Prop := c.1 < 9 ∧ c.2 < 9.

Lemma in_grid_all_cells c : in_grid c ↔ c ∈ all_cells.
Proof. destruct c as [i j]. symmetry. apply elem_of_all_cells. Qed.

Lemma revised_domain_nil_r di : revised_domain di [] = [].
Proof. unfold revised_domain. by induction di. Qed.

Lemma supported_singleton v x : supported [v] x = bool_decide (x ≠ v).
Proof.
  unfold supported. simpl. unfold constraint_satisfied. rewrite orb_false_r.
  destruct (Z.eqb_spec x v) as [->|Hne]; simpl.
  - symmetry. apply bool_decide_eq_false. naive_solver.
  - symmetry. by apply bool_decide_eq_true.
Qed.

Lemma revised_domain_singleton di v :
  revised_domain di [v] = filter (fun x => x ≠ v) di.
Proof.
  unfold revised_domain. induction di as [|x di IH]; [done|].
  cbn [List.filter]. rewrite supported_singleton, IH.
  destruct (decide (x = v)) as [->|Hne].
  - rewrite bool_decide_eq_false_2 by naive_solver.
    by rewrite filter_cons_False by naive_solver.
  - rewrite bool_decide_eq_true_2 by done. by rewrite filter_cons_True by done.
Qed.

Lemma forallb_supported_singleton di v :
  forallb (supported [v]) di = bool_decide (v ∉ di).
Proof.
  induction di as [|x di IH]; [done|].
  cbn [forallb]. rewrite IH, supported_singleton.
  destruct (decide (x = v)) as [->|Hne].
  - rewrite bool_decide_eq_false_2 by naive_solver. simpl.
    symmetry. apply bool_decide_eq_false. intros H. apply H. left.
  - rewrite bool_decide_eq_true_2 by done. simpl.
    apply bool_decide_ext. rewrite not_elem_of_cons. naive_solver.
Qed.

Lemma supported_two a b dj x : a ≠ b → supported (a :: b :: dj) x = true.
Proof.
  intros Hne. apply supported_spec. destruct (decide (x = a)) as [->|Hxa].
  - exists b. split; [|done]. right. left.
  - exists a. split; [left|done].
Qed.

(** X3: what one [revise(xi, xj)] does, for two different cells of the
    grid.  Against a domain of two or more values it removes nothing and
    returns [False]; against a singleton [{v}] it removes exactly [v] from
    the domain of [xi] and returns whether [v] was there; against an empty
    domain it empties the domain of [xi].  It never touches another domain,
    the keys of [self.domains], [self.neighbors] or [self.puzzle]. *)
Theorem revise_removes_the_singleton self xi xj :
  csp_wf self → in_grid xi → in_grid xj → xi ≠ xj →
  ∃ revised self',
    revise xi xj self = Returns (revised, self') ∧
    neighbors self' = neighbors self ∧ puzzle self' = puzzle self ∧
    map fst (domains self') = map fst (domains self) ∧
    (∀ c, c ≠ xi → dom_of self' c = dom_of self c) ∧
    match dom_of self xj with
    | [] => dom_of self' xi = [] ∧ revised = bool_decide (dom_of self xi ≠ [])
    | [v] =>
        dom_of self' xi = filter (fun x => x ≠ v) (dom_of self xi) ∧
        revised = bool_decide (v ∈ dom_of self xi)
    | _ :: _ :: _ => self' = self ∧ revised = false
    end.
Proof.
  intros Hwf Hxi%in_grid_all_cells Hxj%in_grid_all_cells Hne.
  rewrite revise_wf by done.
  pose proof (wf_NoDup _ Hwf xj) as Hnd.
  assert (map fst (domains (set_dom self xi
            (revised_domain (dom_of self xi) (dom_of self xj)))) = map fst (domains self))
    as Hkeys.
  { simpl. apply dict_set_keys. by rewrite (wf_keys _ Hwf). }
  assert (∀ c, c ≠ xi →
            dom_of (set_dom self xi (revised_domain (dom_of self xi) (dom_of self xj))) c
            = dom_of self c) as Hother.
  { intros c Hc. by rewrite dom_of_set_dom, decide_False. }
  destruct (dom_of self xj) as [|v [|w dj]] eqn:Hdj.
  - destruct (dom_of self xi) as [|x di] eqn:Hdi; simpl.
    + exists false, self. by rewrite Hdi.
    + eexists true, _. split; [done|]. split_and!; try done.
      by rewrite dom_of_set_dom, decide_True, revised_domain_nil_r.
  - rewrite forallb_supported_singleton. destruct (decide (v ∈ dom_of self xi)) as [Hv|Hv].
    + rewrite bool_decide_eq_false_2 by naive_solver.
      eexists true, _. split; [done|]. split_and!; try done.
      * by rewrite dom_of_set_dom, decide_True, revised_domain_singleton.
      * by rewrite bool_decide_eq_true_2.
    + rewrite bool_decide_eq_true_2 by done.
      exists false, self. split_and!; try done.
      * by rewrite filter_ne_not_elem.
      * by rewrite bool_decide_eq_false_2.
  - assert (v ≠ w) as Hvw.
    { apply NoDup_cons in Hnd as [Hv _]. intros ->. apply Hv. left. }
    assert (forallb (supported (v :: w :: dj)) (dom_of self xi) = true) as ->.
    { apply forallb_forall. intros x _. by apply supported_two. }
    by exists false, self.
Qed.

Lemma revise_removes_the_singleton_witness :
  ∃ revised self',
    revise (0, 0) (0, 1) csp_one_blank = Returns (revised, self') ∧
    neighbors self' = neighbors csp_one_blank ∧ puzzle self' = puzzle csp_one_blank ∧
    map fst (domains self') = map fst (domains csp_one_blank) ∧
    (∀ c, c ≠ (0, 0) → dom_of self' c = dom_of csp_one_blank c) ∧
    match dom_of csp_one_blank (0, 1) with
    | [] => dom_of self' (0, 0) = [] ∧
            revised = bool_decide (dom_of csp_one_blank (0, 0) ≠ [])
    | [v] =>
        dom_of self' (0, 0) = filter (fun x => x ≠ v) (dom_of csp_one_blank (0, 0)) ∧
        revised = bool_decide (v ∈ dom_of csp_one_blank (0, 0))
    | _ :: _ :: _ => self' = csp_one_blank ∧ revised = false
    end.
Proof.
  apply (revise_removes_the_singleton csp_one_blank (0, 0) (0, 1)).
  - apply csp_one_blank_wf.
  - split; simpl; lia.
  - split; simpl; lia.
  - discriminate.
Defined.

Lemma dict_get_None_keys {V} k (d : list (cell * V)) : k ∉ map fst d → dict_get k d = None.
Proof.
  induction d as [|[k0 v0] d IH]; simpl; [done|].
  rewrite not_elem_of_cons. intros [Hne Hk]. rewrite decide_False by done. by apply IH.
Qed.

(** X4: [revise] on a key that is not a cell of the grid.  If [xi] is not
    a cell, [self.domains[xi]] raises [KeyError].  If [xi] is a cell and
    [xj] is not, [self.domains[xj]] is only looked up inside the loop over
    the values of [xi]: the call raises [KeyError] unless the domain of
    [xi] is empty, in which case it returns [False]. *)
Theorem revise_unknown_cell_raises_KeyError (self : SudokuCSP) (xi xj : cell) :
  csp_wf self →
  (¬ in_grid xi → revise xi xj self = Raises KeyError) ∧
  (in_grid xi → ¬ in_grid xj →
   revise xi xj self
   = if decide (dom_of self xi = []) then Returns (false, self) else Raises KeyError).
Proof.
  intros Hwf.
  assert (∀ c, ¬ in_grid c → get_domain c self = Raises KeyError) as Hmissing.
  { intros c Hc. unfold get_domain. rewrite dict_get_None_keys; [done|].
    rewrite (wf_keys _ Hwf). by rewrite <-in_grid_all_cells. }
  split.
  - intros Hxi. unfold revise. by rewrite bind_eq, Hmissing.
  - intros Hxi%in_grid_all_cells Hxj. unfold revise.
    rewrite bind_eq, get_domain_wf by done.
    destruct (dom_of self xi) as [|x d]; [done|].
    rewrite decide_False by done. rewrite foldM_cons, bind_eq. by rewrite Hmissing.
Qed.

Lemma revise_unknown_cell_raises_KeyError_witness :
  (¬ in_grid (0, 0) → revise (0, 0) (0, 9) csp_one_blank = Raises KeyError) ∧
  (in_grid (0, 0) → ¬ in_grid (0, 9) →
   revise (0, 0) (0, 9) csp_one_blank
   = if decide (dom_of csp_one_blank (0, 0) = [])
     then Returns (false, csp_one_blank) else Raises KeyError).
Proof.
  apply (revise_unknown_cell_raises_KeyError csp_one_blank (0, 0) (0, 9)).
  apply csp_one_blank_wf.
Defined.

Lemma dict_get_elem_of_NoDup {V} k (v : V) d :
  NoDup (map fst d) → (k, v) ∈ d → dict_get k d = Some v.
Proof.
  induction d as [|[k0 v0] d IH]; simpl; intros Hnd Hin; [by apply elem_of_nil in Hin|].
  apply NoDup_cons in Hnd as [Hk0 Hnd]. apply elem_of_cons in Hin as [Heq|Hin].
  - simplify_eq. by rewrite decide_True.
  - rewrite decide_False; [by apply IH|]. intros ->. apply Hk0.
    apply list_elem_of_fmap. by exists (k, v).
Qed.

Lemma is_solved_singletons self :
  csp_wf self →
  ∃ solved, is_solved self = Returns (solved, self) ∧
            (solved = true ↔ ∀ c, in_grid c → length (dom_of self c) = 1).
Proof.
  intros Hwf. eexists. split; [done|]. split.
  - intros Hall c Hc%in_grid_all_cells. by apply is_solved_true.
  - intros Hall. apply forallb_forall. intros d Hd%list_elem_of_In.
    apply list_elem_of_fmap in Hd as ([c d'] & -> & Hin). simpl.
    assert (c ∈ all_cells) as Hc.
    { rewrite <-(wf_keys _ Hwf). apply list_elem_of_fmap. by exists (c, d'). }
    apply Nat.eqb_eq. rewrite <-(Hall c) by by apply in_grid_all_cells.
    unfold dom_of. rewrite (dict_get_elem_of_NoDup c d'); [done| |done].
    rewrite (wf_keys _ Hwf). apply NoDup_all_cells.
Qed.

(** X5: [is_solved] returns [True] exactly when the domain of every cell of
    the grid holds exactly one value, and it leaves the object alone. *)
Theorem is_solved_iff_all_singletons self :
  csp_wf self →
  ∃ solved, is_solved self = Returns (solved, self) ∧
            (solved = true ↔ ∀ c, in_grid c → length (dom_of self c) = 1).
Proof. apply is_solved_singletons. Qed.

Lemma is_solved_iff_all_singletons_witness :
  ∃ solved, is_solved csp_one_blank = Returns (solved, csp_one_blank) ∧
            (solved = true ↔ ∀ c, in_grid c → length (dom_of csp_one_blank c) = 1).
Proof. apply (is_solved_iff_all_singletons csp_one_blank). apply csp_one_blank_wf. Defined.

Lemma mapM_raises {St A B} (f : A → M St B) (g : A → B) (e : exn) (l : list A) s :
  (∀ x, x ∈ l → f x s = Returns (g x, s) ∨ f x s = Raises e) →
  (∃ x, x ∈ l ∧ f x s = Raises e) →
  mapM f l s = Raises e.
Proof.
  induction l as [|x l IH]; intros Hf (y & Hy & Hraise); [by apply elem_of_nil in Hy|].
  simpl. rewrite bind_eq. destruct (Hf x) as [Hx|Hx]; [left| |by rewrite Hx].
  rewrite Hx. rewrite bind_eq, IH; [done| |].
  - intros z Hz. apply Hf. by right.
  - apply elem_of_cons in Hy as [->|Hy]; [congruence|eauto].
Qed.

(** X6: [get_solution] reads the first value of every domain, row by row.
    When no cell of the grid has an empty domain it returns that grid and
    leaves the object alone; when some cell has an empty domain it raises
    [StopIteration] (from [next(iter(...))] on an empty set). *)
Theorem get_solution_spec self :
  csp_wf self →
  (nonempty self →
   get_solution self
   = Returns (grid_of (fun c => default 0%Z (head (dom_of self c))), self)) ∧
  (∀ c, in_grid c → dom_of self c = [] → get_solution self = Raises StopIteration).
Proof.
  intros Hwf. split; [by apply get_solution_wf|].
  intros [i j] [Hi Hj] Hempty. simpl in Hi, Hj.
  assert (∀ c, c ∈ all_cells →
            first_value c self = Returns (default 0%Z (head (dom_of self c)), self) ∨
            first_value c self = Raises StopIteration) as Hfirst.
  { intros c Hc. unfold first_value. rewrite bind_eq, get_domain_wf by done.
    destruct (dom_of self c); [by right|by left]. }
  assert (∀ i', i' < 9 →
            mapM (fun j => first_value (i', j)) range9 self
            = Returns (map (fun j => default 0%Z (head (dom_of self (i', j)))) range9, self) ∨
            mapM (fun j => first_value (i', j)) range9 self = Raises StopIteration) as Hrow.
  { intros i' Hi'.
    destruct (decide (Forall (fun j => dom_of self (i', j) ≠ []) range9)) as [Hall|Hex].
    - left. apply mapM_pure. intros j' Hj'. rewrite Forall_forall in Hall.
      specialize (Hall j' Hj'). apply elem_of_seq in Hj'.
      unfold first_value. rewrite bind_eq, get_domain_wf; [|done|apply elem_of_all_cells; lia].
      by destruct (dom_of self (i', j')).
    - right. apply not_Forall_Exists in Hex; [|apply _].
      apply Exists_exists in Hex as (j' & Hj' & Hnil).
      apply (mapM_raises _ (fun j => default 0%Z (head (dom_of self (i', j))))).
      + intros j'' Hj''. apply elem_of_seq in Hj''. apply Hfirst, elem_of_all_cells. lia.
      + exists j'. split; [done|]. apply elem_of_seq in Hj'.
        unfold first_value. rewrite bind_eq, get_domain_wf; [|done|apply elem_of_all_cells; lia].
        simpl in Hnil. destruct (dom_of self (i', j')); [done|]. by destruct Hnil. }
  unfold get_solution.
  apply (mapM_raises _ (fun i => map (fun j => default 0%Z (head (dom_of self (i, j)))) range9)).
  - intros i' Hi'. apply elem_of_seq in Hi'. apply Hrow. lia.
  - exists i. split; [apply elem_of_seq; lia|].
    apply (mapM_raises _ (fun j => default 0%Z (head (dom_of self (i, j))))).
    + intros j' Hj'. apply elem_of_seq in Hj'. apply Hfirst, elem_of_all_cells. lia.
    + exists j. split; [apply elem_of_seq; lia|].
      unfold first_value. rewrite bind_eq, get_domain_wf; [|done|by apply elem_of_all_cells].
      by rewrite Hempty.
Qed.

Lemma get_solution_spec_witness :
  (nonempty csp_one_blank →
   get_solution csp_one_blank
   = Returns (grid_of (fun c => default 0%Z (head (dom_of csp_one_blank c))), csp_one_blank)) ∧
  (∀ c, in_grid c → dom_of csp_one_blank c = [] →
        get_solution csp_one_blank = Raises StopIteration).
Proof. apply (get_solution_spec csp_one_blank). apply csp_one_blank_wf. Defined.

(** X7: a round trip.  From a 9x9 grid without empty cells [__init__] builds
    an object that [is_solved] accepts and from which [get_solution] reads
    the grid back, entry for entry. *)
Theorem full_grid_round_trip p csp :
  shape9 p →
  Forall (Forall (fun v => v ≠ 0%Z)) p →
  new_SudokuCSP p = Returns csp →
  is_solved csp = Returns (true, csp) ∧ get_solution csp = Returns (p, csp).
Proof.
  intros Hp Hfull Hnew.
  destruct (new_SudokuCSP_spec p csp Hp Hnew) as (Hwf & _ & Hdom).
  assert (∀ c, c ∈ all_cells → dom_of csp c = [grid_value p c]) as Hsingle.
  { intros [i j] Hc. rewrite Hdom by done. unfold initial_domain.
    rewrite decide_False; [done|]. unfold grid_value. simpl.
    destruct (p !! i) as [row|] eqn:Hrow; simpl.
    - destruct (row !! j) as [v|] eqn:Hv; simpl.
      + rewrite Forall_forall in Hfull. apply list_elem_of_lookup_2 in Hrow, Hv.
        specialize (Hfull row Hrow). rewrite Forall_forall in Hfull. by apply Hfull.
      + destruct Hp as [_ Hrows]. rewrite Forall_forall in Hrows.
        apply lookup_ge_None in Hv. apply list_elem_of_lookup_2 in Hrow.
        apply Hrows in Hrow. apply elem_of_all_cells in Hc. lia.
    - destruct Hp as [Hlen _]. apply lookup_ge_None in Hrow.
      apply elem_of_all_cells in Hc. lia. }
  split.
  - destruct (is_solved_singletons csp Hwf) as (b & Hb & Hiff). rewrite Hb.
    do 2 f_equal. apply Hiff. intros c Hc%in_grid_all_cells. by rewrite Hsingle.
  - rewrite get_solution_wf; [|done|].
    + do 2 f_equal. rewrite <-(grid_of_grid_value p) by done.
      unfold grid_of, range9. apply map_ext_in. intros i Hi%in_seq.
      apply map_ext_in. intros j Hj%in_seq. rewrite Hsingle; [done|].
      apply elem_of_all_cells. lia.
    + intros c Hc. by rewrite Hsingle.
Qed.

Definition csp_solved_grid : SudokuCSP :=
  returned empty_csp (new_SudokuCSP solved_one_blank).

Lemma full_grid_round_trip_witness :
  is_solved csp_solved_grid = Returns (true, csp_solved_grid) ∧
  get_solution csp_solved_grid = Returns (solved_one_blank, csp_solved_grid).
Proof.
  apply (full_grid_round_trip solved_one_blank csp_solved_grid).
  - apply shape9_check. vm_compute. reflexivity.
  - apply (bool_decide_unpack _). vm_compute. reflexivity.
  - vm_compute. reflexivity.
Defined.

(** ** The heuristics of the search *)

Lemma min_by_key_split {A} (l : list (nat * A)) : ∀ pre best mid,
  (∀ y, y ∈ pre → best.1 < y.1) → (∀ y, y ∈ mid → best.1 ≤ y.1) →
  ∃ pre' x post,
    pre ++ best :: mid ++ l = pre' ++ x :: post ∧ min_by_key best l = x.2 ∧
    (∀ y, y ∈ pre' → x.1 < y.1) ∧ (∀ y, y ∈ post → x.1 ≤ y.1).
Proof.
  induction l as [|z l IH]; intros pre best mid Hpre Hmid.
  - exists pre, best, mid. by rewrite app_nil_r.
  - cbn [min_by_key]. destruct (Nat.ltb_spec (fst z) (fst best)) as [Hlt|Hge].
    + destruct (IH (pre ++ best :: mid) z []) as (pre' & x & post & Heq & ?).
      * intros y [Hy|Hy]%elem_of_app; [specialize (Hpre y Hy); lia|].
        apply elem_of_cons in Hy as [->|Hy]; [lia|]. specialize (Hmid y Hy). lia.
      * intros y Hy. by apply elem_of_nil in Hy.
      * exists pre', x, post. split; [|done]. rewrite <-Heq. by rewrite <-app_assoc.
    + destruct (IH pre best (mid ++ [z])) as (pre' & x & post & Heq & ?); [done| |].
      * intros y [Hy|Hy]%elem_of_app; [by apply Hmid|].
        apply list_elem_of_singleton in Hy as ->. lia.
      * exists pre', x, post. split; [|done]. rewrite <-Heq. by rewrite <-app_assoc.
Qed.

Lemma filter_app_cons_inv {A} (P : A → Prop) `{∀ x, Decision (P x)} (l : list A) :
  ∀ pre x post,
    filter P l = pre ++ x :: post →
    ∃ l1 l2, l = l1 ++ x :: l2 ∧ filter P l1 = pre ∧ filter P l2 = post.
Proof.
  induction l as [|y l IH]; intros pre x post Heq.
  - by destruct pre.
  - rewrite filter_cons in Heq. destruct (decide (P y)) as [Hy|Hy].
    + destruct pre as [|p pre]; simpl in Heq; injection Heq as -> Heq.
      * by exists [], l.
      * destruct (IH _ _ _ Heq) as (l1 & l2 & -> & <- & <-).
        exists (p :: l1), l2. by rewrite filter_cons_True.
    + destruct (IH _ _ _ Heq) as (l1 & l2 & -> & <- & <-).
      exists (y :: l1), l2. by rewrite filter_cons_False.
Qed.

(** The position of a cell in row-major order, the order in which
    [initialize_domains] inserts the keys of [self.domains]. *)
Definition cell_index (c : cell) : nat := 9 * c.1 + c.2.

Lemma all_cells_by_index : all_cells = map (fun k => (k / 9, k mod 9)) (seq 0 81).
Proof. rewrite all_cells_unseal. by vm_compute. Qed.

Lemma all_cells_before l1 x l2 c :
  all_cells = l1 ++ x :: l2 → c ∈ l1 → cell_index c < cell_index x.
Proof.
  rewrite all_cells_by_index. intros Heq Hc.
  apply fmap_app_inv in Heq as (s1 & s2' & -> & Hx & Hseq).
  symmetry in Hx. apply fmap_cons_inv in Hx as (k & s2 & -> & _ & ->).
  apply list_elem_of_fmap in Hc as (k' & -> & Hk').
  assert (k' < k) as Hlt.
  { apply list_elem_of_lookup in Hk' as [n Hn].
    pose proof (lookup_lt_Some _ _ _ Hn) as Hlen.
    assert (seq 0 81 !! n = Some k') as Hn'.
    { by rewrite Hseq, lookup_app_l. }
    assert (seq 0 81 !! length s1 = Some k) as Hk.
    { by rewrite Hseq, list_lookup_middle. }
    apply lookup_seq in Hn' as [-> _]. apply lookup_seq in Hk as [-> _]. lia. }
  unfold cell_index. cbn [fst snd].
  pose proof (Nat.div_mod_eq k' 9). pose proof (Nat.div_mod_eq k 9). lia.
Qed.

(** X8: [select_unassigned_variable] implements the minimum-remaining-values
    rule.  When every cell of the grid is assigned it raises [ValueError]
    ([min] of an empty list); otherwise it returns an unassigned cell of the
    grid whose domain is smallest among the unassigned cells and, among those
    of the same size, the first in row-major order.  The object is left
    alone. *)
Theorem select_unassigned_variable_mrv (self : SudokuCSP) (assignment : gmap cell Z) :
  csp_wf self →
  ((∀ c, in_grid c → is_Some (assignment !! c)) →
   select_unassigned_variable assignment self = Raises ValueError) ∧
  (∀ c0, in_grid c0 → assignment !! c0 = None →
   ∃ var,
     select_unassigned_variable assignment self = Returns (var, self) ∧
     in_grid var ∧ assignment !! var = None ∧
     ∀ c, in_grid c → assignment !! c = None →
       length (dom_of self var) ≤ length (dom_of self c) ∧
       (length (dom_of self c) = length (dom_of self var) →
        cell_index var ≤ cell_index c)).
Proof.
  intros Hwf. rewrite select_unassigned_variable_wf by done. unfold mrv. split.
  - intros Hall. destruct (unassigned assignment) as [|c l] eqn:Hun; [done|].
    assert (c ∈ unassigned assignment) as Hc by (rewrite Hun; left).
    apply list_elem_of_filter in Hc as [Hnone Hc%in_grid_all_cells].
    destruct (Hall c Hc) as [v Hv]. congruence.
  - intros c0 Hc0 Hnone0.
    destruct (unassigned assignment) as [|first others] eqn:Hun.
    { assert (c0 ∈ unassigned assignment) as Hin.
      { apply list_elem_of_filter. split; [done|]. by apply in_grid_all_cells. }
      rewrite Hun in Hin. by apply elem_of_nil in Hin. }
    cbn [map].
    set (f := fun var : cell => (length (dom_of self var), var)).
    destruct (min_by_key_split (map f others) [] (f first) [])
      as (pre & x & post & Heq & Hmin & Hpre & Hpost).
    { intros y Hy. by apply elem_of_nil in Hy. }
    { intros y Hy. by apply elem_of_nil in Hy. }
    simpl in Heq. change (f first :: map f others) with (map f (first :: others)) in Heq.
    rewrite <-Hun in Heq.
    apply fmap_app_inv in Heq as (u1 & u2' & -> & Hx & Hsplit).
    symmetry in Hx. apply fmap_cons_inv in Hx as (var & u2 & -> & -> & ->).
    exists var. change (length (dom_of self first), first) with (f first).
    rewrite Hmin. simpl. split; [done|].
    assert (var ∈ unassigned assignment) as Hvar.
    { rewrite Hsplit. apply elem_of_app. right. left. }
    apply list_elem_of_filter in Hvar as [Hvnone Hvar%in_grid_all_cells].
    split; [done|]. split; [done|]. intros c Hc Hnone.
    unfold unassigned in Hsplit.
    apply filter_app_cons_inv in Hsplit as (l1 & l2 & Hcells & Hu1 & Hu2).
    apply in_grid_all_cells in Hc. pose proof Hc as Hc'. rewrite Hcells in Hc'.
    apply elem_of_app in Hc' as [Hc'|Hc'].
    + assert (c ∈ u1) as Hcu by (rewrite <-Hu1; by apply list_elem_of_filter).
      specialize (Hpre (f c)). simpl in Hpre.
      assert (length (dom_of self var) < length (dom_of self c)); [|lia].
      apply Hpre. apply list_elem_of_fmap. by exists c.
    + apply elem_of_cons in Hc' as [->|Hc']; [done|].
      assert (c ∈ u2) as Hcu by (rewrite <-Hu2; by apply list_elem_of_filter).
      specialize (Hpost (f c)). simpl in Hpost. split.
      * apply Hpost. apply list_elem_of_fmap. by exists c.
      * intros _. apply list_elem_of_split in Hc' as (a & b & ->).
        assert (cell_index var < cell_index c); [|lia].
        apply (all_cells_before (l1 ++ var :: a) c b).
        -- by rewrite Hcells, <-app_assoc.
        -- apply elem_of_app. right. left.
Qed.

(** The assignment the search starts from. *)
Definition empty_assignment : gmap cell Z := ∅.

Lemma select_unassigned_variable_mrv_witness :
  ∃ var,
    select_unassigned_variable empty_assignment csp_one_blank = Returns (var, csp_one_blank) ∧
    in_grid var ∧ empty_assignment !! var = None ∧
    ∀ c, in_grid c → empty_assignment !! c = None →
      length (dom_of csp_one_blank var) ≤ length (dom_of csp_one_blank c) ∧
      (length (dom_of csp_one_blank c) = length (dom_of csp_one_blank var) →
       cell_index var ≤ cell_index c).
Proof.
  apply (proj2 (select_unassigned_variable_mrv csp_one_blank empty_assignment csp_one_blank_wf) (0, 0)).
  - split; simpl; lia.
  - reflexivity.
Defined.

(** X9: [is_consistent] looks only at the assignment, never at the domains.
    For a cell of the grid it returns [True] exactly when no other cell of
    the same row, column or block is assigned [value], and leaves the object
    alone.  For a key outside the grid the [defaultdict] of neighbours
    answers with a fresh empty set, so the call returns [True] and stores
    that empty set in [self.neighbors]. *)
Theorem is_consistent_checks_assigned_neighbors
    (iter_cells : list cell → list cell) (self : SudokuCSP) (var : cell) (value : Z)
    (assignment : gmap cell Z) :
  (∀ s, iter_cells s ≡ₚ s) →
  csp_wf self →
  (in_grid var →
   ∃ ok, is_consistent iter_cells var value assignment self = Returns (ok, self) ∧
         (ok = true ↔ ∀ c, in_grid c → related var c → assignment !! c ≠ Some value)) ∧
  (¬ in_grid var →
   is_consistent iter_cells var value assignment self
   = Returns (true, {| puzzle := puzzle self; domains := domains self;
                       neighbors := <[var := []]> (neighbors self) |})).
Proof.
  intros Hperm Hwf. split.
  - intros Hvar%in_grid_all_cells. eexists. split; [by apply is_consistent_wf|].
    rewrite (consistent_with_spec iter_cells Hperm). split.
    + intros Hall c Hc%in_grid_all_cells Hrel. apply Hall.
      exact (proj2 (nbrs_related var Hvar c Hc) Hrel).
    + intros Hall c Hc. pose proof (nbrs_in_grid var Hvar c Hc) as Hgrid.
      apply Hall; [by apply in_grid_all_cells|].
      exact (proj1 (nbrs_related var Hvar c Hgrid) Hc).
  - intros Hvar. unfold is_consistent, get_neighbors. rewrite bind_eq.
    rewrite (wf_neighbors _ Hwf).
    destruct (initialize_neighbors !! var) as [ns|] eqn:Hns.
    { destruct Hvar. apply in_grid_all_cells, dom_initialize_neighbors. by rewrite Hns. }
    rewrite ret_eq. by rewrite (proj1 (Permutation_nil_r _) (Hperm [])).
Qed.

Lemma is_consistent_checks_assigned_neighbors_witness :
  (in_grid (0, 0) →
   ∃ ok, is_consistent insertion_order (0, 0) 5 empty_assignment csp_one_blank = Returns (ok, csp_one_blank) ∧
         (ok = true ↔
          ∀ c, in_grid c → related (0, 0) c → empty_assignment !! c ≠ Some 5%Z)) ∧
  (¬ in_grid (0, 0) →
   is_consistent insertion_order (0, 0) 5 empty_assignment csp_one_blank
   = Returns (true, {| puzzle := puzzle csp_one_blank; domains := domains csp_one_blank;
                       neighbors := <[(0, 0) := []]> (neighbors csp_one_blank) |})).
Proof.
  apply (is_consistent_checks_assigned_neighbors insertion_order csp_one_blank (0, 0) 5 empty_assignment).
  - apply insertion_order_perm.
  - apply csp_one_blank_wf.
Defined.

Lemma foldl_add_sum {A} (w : A → nat) (step : nat → A → nat) (l : list A) : ∀ acc,
  (∀ count x, step count x = count + w x) →
  foldl step acc l = acc + sum_list (map w l).
Proof.
  induction l as [|x l IH]; intros acc Hstep; simpl; [lia|].
  rewrite IH, Hstep by done. lia.
Qed.

Lemma sum_list_map_perm {A} (w : A → nat) (l l' : list A) :
  l ≡ₚ l' → sum_list (map w l) = sum_list (map w l').
Proof. induction 1; simpl; lia. Qed.

Lemma sum_list_indicator {A} (P : A → Prop) `{∀ x, Decision (P x)} (w : A → nat) (l : list A) :
  (∀ x, x ∈ l → w x = if decide (P x) then 1 else 0) →
  sum_list (map w l) = length (filter P l).
Proof.
  induction l as [|x l IH]; intros Hw; [done|].
  simpl. rewrite filter_cons, (Hw x) by left. rewrite IH.
  - by destruct (decide (P x)).
  - intros y Hy. apply Hw. by right.
Qed.

Lemma length_filter_equal (value : Z) (d : list Z) :
  NoDup d →
  length (List.filter (fun y => negb (constraint_satisfied value y)) d)
  = if decide (value ∈ d) then 1 else 0.
Proof.
  induction d as [|y d IH]; intros Hnd; [done|].
  apply NoDup_cons in Hnd as [Hy Hnd]. cbn [List.filter].
  unfold constraint_satisfied at 1. rewrite negb_involutive.
  destruct (Z.eqb_spec value y) as [->|Hne].
  - rewrite decide_True by left. simpl. f_equal.
    rewrite IH by done. by rewrite decide_False.
  - rewrite IH by done. destruct (decide (value ∈ d)) as [Hin|Hin].
    + rewrite decide_True; [done|]. by right.
    + rewrite decide_False; [done|]. rewrite not_elem_of_cons. naive_solver.
Qed.

(** The number of unassigned neighbours of [var] whose domain still holds
    [value]. *)
Definition conflicts (self : SudokuCSP) (assignment : gmap cell Z) (var : cell) (value : Z)
  : nat :=
  length (filter (fun c => assignment !! c = None ∧ value ∈ dom_of self c) (nbrs var)).

Lemma count_of_conflicts (iter_cells : list cell → list cell) (self : SudokuCSP)
    (var : cell) (value : Z) (assignment : gmap cell Z) :
  (∀ s, iter_cells s ≡ₚ s) → csp_wf self →
  count_of iter_cells self var value assignment = conflicts self assignment var value.
Proof.
  intros Hperm Hwf. unfold count_of, conflicts.
  rewrite (foldl_add_sum (fun neighbor =>
    match assignment !! neighbor with
    | None => length (List.filter (fun neighbor_value =>
                                     negb (constraint_satisfied value neighbor_value))
                                  (dom_of self neighbor))
    | Some _ => 0
    end)).
  - rewrite (sum_list_map_perm _ _ _ (Hperm (nbrs var))). simpl.
    apply sum_list_indicator. intros c _.
    rewrite length_filter_equal by apply (wf_NoDup _ Hwf).
    destruct (assignment !! c) as [v|].
    + rewrite decide_False; [done|]. by intros [? _].
    + destruct (decide (value ∈ dom_of self c)).
      * by rewrite decide_True.
      * rewrite decide_False; [done|]. by intros [_ ?].
  - intros count x. destruct (assignment !! x); lia.
Qed.

(** X10: [count_constraints] returns the number of unassigned neighbours of
    [var] whose domain still contains [value], whatever the order in which
    the neighbour set is iterated; assigned neighbours are not counted.  The
    object is left alone. *)
Theorem count_constraints_counts_open_neighbors
    (iter_cells : list cell → list cell) (self : SudokuCSP) (var : cell) (value : Z)
    (assignment : gmap cell Z) :
  (∀ s, iter_cells s ≡ₚ s) →
  csp_wf self → in_grid var →
  count_constraints iter_cells var value assignment self
  = Returns (length (filter (fun c => assignment !! c = None ∧ value ∈ dom_of self c)
                            (nbrs var)), self) ∧
  ∀ c, c ∈ nbrs var ↔ in_grid c ∧ related var c.
Proof.
  intros Hperm Hwf Hvar%in_grid_all_cells. split.
  - rewrite (count_constraints_wf iter_cells Hperm) by done.
    by rewrite count_of_conflicts.
  - intros c. rewrite in_grid_all_cells. split.
    + intros Hc. pose proof (nbrs_in_grid var Hvar c Hc) as Hgrid.
      split; [done|]. exact (proj1 (nbrs_related var Hvar c Hgrid) Hc).
    + intros [Hgrid Hrel]. exact (proj2 (nbrs_related var Hvar c Hgrid) Hrel).
Qed.

Lemma count_constraints_counts_open_neighbors_witness :
  count_constraints insertion_order (0, 0) 5 empty_assignment csp_one_blank
  = Returns (length (filter (fun c => empty_assignment !! c = None ∧
                                      5%Z ∈ dom_of csp_one_blank c)
                            (nbrs (0, 0))), csp_one_blank) ∧
  ∀ c, c ∈ nbrs (0, 0) ↔ in_grid c ∧ related (0, 0) c.
Proof.
  apply (count_constraints_counts_open_neighbors insertion_order csp_one_blank (0, 0) 5 empty_assignment).
  - apply insertion_order_perm.
  - apply csp_one_blank_wf.
  - split; simpl; lia.
Defined.

(** Keys in ascending order. *)
Fixpoint ascending {A} (l : list (nat * A)) : Prop :=
  match l with
  | [] => True
  | x :: l' => Forall (fun y => x.1 ≤ y.1) l' ∧ ascending l'
  end.

Lemma insert_by_key_ascending {A} (x : nat * A) l :
  ascending l → ascending (insert_by_key x l).
Proof.
  induction l as [|y l IH]; simpl; [done|]. intros [Hy Hl].
  destruct (Nat.leb_spec (fst x) (fst y)) as [Hle|Hgt]; simpl.
  - split_and!; [|done..]. constructor; [done|].
    eapply Forall_impl; [done|]. simpl. intros z Hz. lia.
  - split; [|by apply IH].
    rewrite (insert_by_key_perm x l). constructor; [lia|done].
Qed.

Lemma sort_by_key_ascending {A} (l : list (nat * A)) : ascending (sort_by_key l).
Proof.
  unfold sort_by_key. induction l as [|x l IH]; simpl; [done|].
  by apply insert_by_key_ascending.
Qed.

Lemma ascending_lookup {A} (l : list (nat * A)) : ∀ k1 k2 x1 x2,
  ascending l → l !! k1 = Some x1 → l !! k2 = Some x2 → k1 < k2 → x1.1 ≤ x2.1.
Proof.
  induction l as [|y l IH]; intros k1 k2 x1 x2 Hasc H1 H2 Hlt; [done|].
  destruct Hasc as [Hy Hl]. destruct k2 as [|k2]; [lia|]. simpl in H2.
  destruct k1 as [|k1]; simpl in H1.
  - simplify_eq. rewrite Forall_forall in Hy. apply Hy. by eapply list_elem_of_lookup_2.
  - eapply (IH k1 k2); eauto. lia.
Qed.

Lemma insert_by_key_stable {A} (x : nat * A) l n :
  filter (fun y => y.1 = n) (insert_by_key x l) = filter (fun y => y.1 = n) (x :: l).
Proof.
  induction l as [|y l IH]; simpl; [done|].
  destruct (Nat.leb_spec (fst x) (fst y)) as [Hle|Hgt]; [done|].
  rewrite filter_cons, IH. rewrite !(filter_cons _ x), (filter_cons _ y).
  destruct (decide (y.1 = n)), (decide (x.1 = n)); try done. simpl in *. lia.
Qed.

Lemma sort_by_key_stable {A} (l : list (nat * A)) n :
  filter (fun y => y.1 = n) (sort_by_key l) = filter (fun y => y.1 = n) l.
Proof.
  unfold sort_by_key. induction l as [|x l IH]; simpl; [done|].
  rewrite insert_by_key_stable, !filter_cons. by rewrite IH.
Qed.

Lemma filter_keyed {A} (k : A → nat) (l : list (nat * A)) n :
  Forall (fun x => x.1 = k x.2) l →
  map snd (filter (fun x => x.1 = n) l) = filter (fun v => k v = n) (map snd l).
Proof.
  induction 1 as [|x l Hx Hl IH]; [done|].
  simpl. rewrite !filter_cons. rewrite <-Hx.
  destruct (decide (x.1 = n)); simpl; by rewrite IH.
Qed.

(** X11: [least_constraining_values] returns the values of the domain of
    [var], each once, in ascending order of the number of unassigned
    neighbours whose domain contains the value; values with the same count
    keep the order in which the domain is iterated (the sort is stable).
    The object is left alone. *)
Theorem least_constraining_values_sorted
    (iter_cells : list cell → list cell) (self : SudokuCSP) (var : cell)
    (assignment : gmap cell Z) :
  (∀ s, iter_cells s ≡ₚ s) →
  csp_wf self → in_grid var →
  ∃ values,
    least_constraining_values iter_cells var assignment self = Returns (values, self) ∧
    values ≡ₚ dom_of self var ∧
    (∀ k1 k2 v1 v2,
       values !! k1 = Some v1 → values !! k2 = Some v2 → k1 < k2 →
       conflicts self assignment var v1 ≤ conflicts self assignment var v2) ∧
    (∀ n, filter (fun v => conflicts self assignment var v = n) values
          = filter (fun v => conflicts self assignment var v = n) (dom_of self var)).
Proof.
  intros Hperm Hwf Hvar%in_grid_all_cells.
  rewrite (least_constraining_values_wf iter_cells Hperm) by done.
  eexists. split; [done|]. split; [apply lcv_perm|].
  unfold lcv.
  set (k := fun v => conflicts self assignment var v).
  assert (map (fun value => (count_of iter_cells self var value assignment, value))
              (dom_of self var)
          = map (fun v => (k v, v)) (dom_of self var)) as ->.
  { apply map_ext. intros v. by rewrite count_of_conflicts. }
  set (keyed := map (fun v => (k v, v)) (dom_of self var)).
  assert (Forall (fun x => x.1 = k x.2) keyed) as Hkeyed.
  { apply Forall_forall. intros x (v & -> & _)%list_elem_of_fmap. done. }
  assert (Forall (fun x => x.1 = k x.2) (sort_by_key keyed)) as Hsorted.
  { by rewrite sort_by_key_perm. }
  split.
  - intros k1 k2 v1 v2 H1 H2 Hlt.
    apply list_lookup_fmap_Some_1 in H1 as (x1 & -> & H1).
    apply list_lookup_fmap_Some_1 in H2 as (x2 & -> & H2).
    rewrite Forall_forall in Hsorted.
    rewrite <-(Hsorted x1), <-(Hsorted x2) by by eapply list_elem_of_lookup_2.
    eapply ascending_lookup; eauto. apply sort_by_key_ascending.
  - intros n. rewrite <-(filter_keyed k) by done.
    rewrite sort_by_key_stable, (filter_keyed k) by done.
    unfold keyed. rewrite map_map. simpl. by rewrite map_id.
Qed.

Lemma least_constraining_values_sorted_witness :
  ∃ values,
    least_constraining_values insertion_order (0, 0) empty_assignment csp_one_blank
    = Returns (values, csp_one_blank) ∧
    values ≡ₚ dom_of csp_one_blank (0, 0) ∧
    (∀ k1 k2 v1 v2,
       values !! k1 = Some v1 → values !! k2 = Some v2 → k1 < k2 →
       conflicts csp_one_blank empty_assignment (0, 0) v1 ≤ conflicts csp_one_blank empty_assignment (0, 0) v2) ∧
    (∀ n, filter (fun v => conflicts csp_one_blank empty_assignment (0, 0) v = n) values
          = filter (fun v => conflicts csp_one_blank empty_assignment (0, 0) v = n)
                   (dom_of csp_one_blank (0, 0))).
Proof.
  apply (least_constraining_values_sorted insertion_order csp_one_blank (0, 0) empty_assignment).
  - apply insertion_order_perm.
  - apply csp_one_blank_wf.
  - split; simpl; lia.
Defined.

(** ** [ac3] as a whole *)

(** A candidate solution: a value for every cell, different on any two
    cells that share a row, a column or a block. *)
Lemma proper_related (σ : cell → Z) :
  proper σ ↔ ∀ c c', in_grid c → in_grid c' → related c c' → σ c ≠ σ c'.
Proof.
  unfold proper. split.
  - intros Hσ c c' Hc%in_grid_all_cells Hc'%in_grid_all_cells Hrel.
    apply Hσ; [done|]. exact (proj2 (nbrs_related c Hc c' Hc') Hrel).
  - intros Hσ c c' Hc Hc'. pose proof (nbrs_in_grid c Hc c' Hc') as Hgrid.
    apply Hσ; [by apply in_grid_all_cells..|].
    exact (proj1 (nbrs_related c Hc c' Hgrid) Hc').
Qed.

(** The lengths recorded so far, followed by the length of the queue now. *)
Definition steps_ok (l : list Z) : Prop :=
  head l = Some 1620%Z ∧
  Forall (fun n => (0 ≤ n)%Z) l ∧
  ∀ k a b, l !! k = Some a → l !! S k = Some b → b = (a - 1)%Z ∨ b = (a + 18)%Z.

Lemma steps_ok_snoc l a b :
  steps_ok (l ++ [a]) → (0 ≤ b)%Z → b = (a - 1)%Z ∨ b = (a + 18)%Z →
  steps_ok ((l ++ [a]) ++ [b]).
Proof.
  intros (Hhead & Hpos & Hadj) Hb Hab. split_and!.
  - destruct l; simpl in *; done.
  - apply Forall_app. split; [done|]. by constructor.
  - intros k a' b' Ha' Hb'.
    assert (length (l ++ [a]) = S (length l)) as Hlen.
    { rewrite length_app. simpl. lia. }
    destruct (decide (S k < S (length l))) as [Hlt|Hge].
    + rewrite lookup_app_l in Ha', Hb' by lia. by eapply Hadj.
    + pose proof (lookup_lt_Some _ _ _ Hb') as Hk.
      rewrite length_app, Hlen in Hk. simpl in Hk.
      assert (k = length l) as -> by lia.
      rewrite lookup_app_l in Ha' by lia.
      rewrite list_lookup_middle in Ha' by done.
      rewrite lookup_app_r in Hb' by lia. rewrite Hlen, Nat.sub_diag in Hb'.
      by simplify_eq/=.
Qed.

Lemma steps_ok_final l :
  steps_ok (l ++ [0%Z]) →
  head l = Some 1620%Z ∧
  (∀ k a b, l !! k = Some a → l !! S k = Some b → b = (a - 1)%Z ∨ b = (a + 18)%Z) ∧
  last l = Some 1%Z.
Proof.
  intros (Hhead & Hpos & Hadj). split_and!.
  - destruct l; simpl in *; [done|done].
  - intros k a b Ha Hb. apply (Hadj k).
    + by apply lookup_app_l_Some.
    + by apply lookup_app_l_Some.
  - destruct l as [|x l _] using rev_ind; [done|].
    rewrite last_snoc. f_equal.
    apply Forall_app in Hpos as [Hpos _]. apply Forall_app in Hpos as [_ Hx].
    apply Forall_inv in Hx.
    destruct (Hadj (length l) x 0%Z) as [?|?]; [| |lia..].
    + rewrite lookup_app_l by (rewrite length_app; simpl; lia).
      by rewrite list_lookup_middle.
    + rewrite lookup_app_r by (rewrite length_app; simpl; lia).
      rewrite length_app. simpl. by replace (S (length l) - (length l + 1)) with 0 by lia.
Qed.

Section AC3Run.
Context (iter_cells : list cell → list cell).
Context (iter_cells_perm : ∀ s, iter_cells s ≡ₚ s).

Lemma ac3_run_facts fuel self result lengths self' :
  csp_wf self →
  ac3 iter_cells fuel self = Returns ((result, lengths), self') →
  (if result then last lengths = Some 1%Z
   else ∃ c, c ∈ all_cells ∧ dom_of self' c = []) ∧
  head lengths = Some 1620%Z ∧
  (∀ k a b, lengths !! k = Some a → lengths !! S k = Some b →
            b = (a - 1)%Z ∨ b = (a + 18)%Z).
Proof.
  intros Hwf Hrun. unfold ac3 in Hrun.
  rewrite bind_eq, initial_queue_wf in Hrun by done.
  pose (P := fun st : ac3_state =>
    ac3_inv st ∧ steps_ok (st.1.2 ++ [Z.of_nat (length st.1.1)])).
  destruct (ac3_loop_ind iter_cells P fuel (all_arcs iter_cells) [] self (result, lengths) self')
    as ([[q ls] s] & [Hinv Hsteps] & _ & Hlast); [| |done|].
  { intros [[q0 ls0] s0] [[q1 ls1] s1] [Hinv Hsteps] Hstep. split.
    - by eapply ac3_step_inv.
    - destruct (ac3_step_cases _ _ _ _ _ Hinv Hstep)
        as (xi & xj & rest & -> & Hxi & Hxj & _ & _ & Hls & Hcases).
      simpl in *. subst ls1. apply steps_ok_snoc; [done|lia|].
      destruct Hcases as [(_ & -> & _)|(_ & _ & -> & _)].
      + left. simpl. lia.
      + right. rewrite length_app, requeued_length by done. simpl. lia. }
  { split.
    - split; [done|]. simpl. apply Forall_forall. intros a. by apply elem_of_all_arcs.
    - simpl. rewrite all_arcs_length by done. split_and!; [done| |].
      + constructor; [lia|constructor].
      + intros [|k] a b Ha Hb; done. }
  simpl in *.
  destruct (ac3_final_cases _ _ _ _ _ _ Hinv Hlast)
    as [(-> & ? & ->)|(xi & xj & rest & -> & Hxi & Hxj & Hd & Hdi & ? & ->)]; simplify_eq.
  - simpl in Hsteps. apply steps_ok_final in Hsteps as (? & ? & ?). done.
  - destruct Hsteps as (Hhead & _ & Hadj). split_and!; [|done..].
    exists xi. split; [done|]. by rewrite dom_of_set_dom, decide_True.
Qed.

End AC3Run.

(** X12: [ac3] always returns on the objects [__init__] builds: the loop
    ends within [1620 + 20 * total] turns, where [total] is the sum of the
    sizes of the domains.  It changes neither [self.neighbors],
    [self.puzzle] nor the keys of [self.domains].  When it returns [True]
    every arc is consistent: each value left for a cell has a different
    value left in every cell sharing a row, column or block.  When it
    returns [False] some cell is left with an empty domain. *)
Theorem ac3_returns_arc_consistent_or_empty
    (iter_cells : list cell → list cell) fuel (self : SudokuCSP) :
  (∀ s, iter_cells s ≡ₚ s) →
  csp_wf self → 1620 + 20 * total self < fuel →
  ∃ result lengths self',
    ac3 iter_cells fuel self = Returns ((result, lengths), self') ∧
    neighbors self' = neighbors self ∧ puzzle self' = puzzle self ∧
    map fst (domains self') = map fst (domains self) ∧
    if result
    then ∀ c c', in_grid c → in_grid c' → related c c' →
           ∀ x, x ∈ dom_of self' c → ∃ y, y ∈ dom_of self' c' ∧ x ≠ y
    else ∃ c, in_grid c ∧ dom_of self' c = [].
Proof.
  intros Hperm Hwf Hfuel.
  destruct (ac3_terminates iter_cells Hperm fuel self Hwf Hfuel)
    as (result & lengths & self' & Hrun).
  exists result, lengths, self'. split; [done|].
  destruct (ac3_spec iter_cells Hperm _ _ _ _ _ Hwf Hrun) as (Hwf' & Hpz & _ & _ & Htrue).
  destruct (ac3_run_facts iter_cells Hperm _ _ _ _ _ Hwf Hrun) as (Hres & _).
  split_and!.
  - by rewrite (wf_neighbors _ Hwf), (wf_neighbors _ Hwf').
  - done.
  - by rewrite (wf_keys _ Hwf), (wf_keys _ Hwf').
  - destruct result.
    + destruct (Htrue eq_refl) as [Hac _].
      intros c c' Hc%in_grid_all_cells Hc'%in_grid_all_cells Hrel.
      apply (Hac (c, c')). split; [done|]. simpl.
      exact (proj2 (nbrs_related c Hc c' Hc') Hrel).
    + destruct Hres as (c & Hc & Hempty). exists c. by rewrite in_grid_all_cells.
Qed.

Lemma ac3_returns_arc_consistent_or_empty_witness :
  ∃ result lengths self',
    ac3 insertion_order (S (1620 + 20 * total csp_one_blank)) csp_one_blank
    = Returns ((result, lengths), self') ∧
    neighbors self' = neighbors csp_one_blank ∧ puzzle self' = puzzle csp_one_blank ∧
    map fst (domains self') = map fst (domains csp_one_blank) ∧
    if result
    then ∀ c c', in_grid c → in_grid c' → related c c' →
           ∀ x, x ∈ dom_of self' c → ∃ y, y ∈ dom_of self' c' ∧ x ≠ y
    else ∃ c, in_grid c ∧ dom_of self' c = [].
Proof.
  apply (ac3_returns_arc_consistent_or_empty insertion_order
           (S (1620 + 20 * total csp_one_blank)) csp_one_blank).
  - apply insertion_order_perm.
  - apply csp_one_blank_wf.
  - apply Nat.lt_succ_diag_r.
Defined.

(** X13: [ac3] never removes a value that some solution uses.  If [σ]
    gives every cell a value of its domain, different on cells that share a
    row, column or block, then [ac3] returns [True] and [σ] still lies
    within the domains; and if [is_solved] then accepts the object,
    [get_solution] reads exactly the grid of [σ]: a puzzle that propagation
    alone solves has no other solution. *)
Theorem ac3_keeps_every_solution
    (iter_cells : list cell → list cell) fuel (self : SudokuCSP) (σ : cell → Z) :
  (∀ s, iter_cells s ≡ₚ s) →
  csp_wf self → 1620 + 20 * total self < fuel →
  (∀ c c', in_grid c → in_grid c' → related c c' → σ c ≠ σ c') →
  (∀ c, in_grid c → σ c ∈ dom_of self c) →
  ∃ lengths self',
    ac3 iter_cells fuel self = Returns ((true, lengths), self') ∧
    (∀ c, in_grid c → σ c ∈ dom_of self' c) ∧
    (is_solved self' = Returns (true, self') →
     get_solution self' = Returns (grid_of σ, self')).
Proof.
  intros Hperm Hwf Hfuel Hσ%proper_related Hin.
  assert (within σ self) as Hwithin.
  { intros c Hc. by apply Hin, in_grid_all_cells. }
  destruct (ac3_terminates iter_cells Hperm fuel self Hwf Hfuel)
    as (result & lengths & self' & Hrun).
  destruct (ac3_spec iter_cells Hperm _ _ _ _ _ Hwf Hrun) as (Hwf' & _ & _ & Hkeep & _).
  destruct (Hkeep σ Hσ Hwithin) as [-> Hwithin'].
  exists lengths, self'. split; [done|]. split.
  - intros c Hc%in_grid_all_cells. by apply Hwithin'.
  - intros Hsolved.
    destruct (is_solved_singletons self' Hwf') as (b & Hb & Hiff).
    assert (b = true) as -> by congruence.
    assert (∀ c, c ∈ all_cells → dom_of self' c = [σ c]) as Hsingle.
    { intros c Hc. specialize (Hwithin' c Hc).
      pose proof (proj1 Hiff eq_refl c (proj2 (in_grid_all_cells c) Hc)) as Hlen.
      destruct (dom_of self' c) as [|v [|w d]]; simplify_eq/=.
      by apply list_elem_of_singleton in Hwithin' as ->. }
    rewrite get_solution_wf; [|done|].
    + do 2 f_equal. unfold grid_of, range9.
      apply map_ext_in. intros i Hi%in_seq. apply map_ext_in. intros j Hj%in_seq.
      rewrite Hsingle; [done|]. apply elem_of_all_cells. lia.
    + intros c Hc. by rewrite Hsingle.
Qed.

Lemma solved_one_blank_proper :
  ∀ c c', in_grid c → in_grid c' → related c c' →
    grid_value solved_one_blank c ≠ grid_value solved_one_blank c'.
Proof.
  apply proper_related. intros c c' Hc Hc'.
  assert (Forall (fun c => Forall (fun c' => grid_value solved_one_blank c
                                             ≠ grid_value solved_one_blank c') (nbrs c))
                 all_cells) as Hall.
  { rewrite all_cells_unseal, nbrs_unseal. apply (bool_decide_unpack _). by vm_compute. }
  rewrite Forall_forall in Hall. specialize (Hall c Hc).
  rewrite Forall_forall in Hall. by apply Hall.
Qed.

Lemma solved_one_blank_within :
  ∀ c, in_grid c → grid_value solved_one_blank c ∈ dom_of csp_one_blank c.
Proof.
  intros c Hc%in_grid_all_cells.
  assert (Forall (fun c => grid_value solved_one_blank c ∈ dom_of csp_one_blank c)
                 all_cells) as Hall.
  { rewrite all_cells_unseal. apply (bool_decide_unpack _). by vm_compute. }
  rewrite Forall_forall in Hall. by apply Hall.
Qed.

Lemma ac3_keeps_every_solution_witness :
  ∃ lengths self',
    ac3 insertion_order (S (1620 + 20 * total csp_one_blank)) csp_one_blank
    = Returns ((true, lengths), self') ∧
    (∀ c, in_grid c → grid_value solved_one_blank c ∈ dom_of self' c) ∧
    (is_solved self' = Returns (true, self') →
     get_solution self' = Returns (grid_of (grid_value solved_one_blank), self')).
Proof.
  apply (ac3_keeps_every_solution insertion_order
           (S (1620 + 20 * total csp_one_blank)) csp_one_blank
           (grid_value solved_one_blank)).
  - apply insertion_order_perm.
  - apply csp_one_blank_wf.
  - apply Nat.lt_succ_diag_r.
  - apply solved_one_blank_proper.
  - apply solved_one_blank_within.
Defined.

(** X14: the list of queue lengths that [ac3] returns.  Its first entry is
    1620 (81 cells with 20 neighbours each); every later entry is the one
    before it minus 1 (the arc popped changed nothing) or plus 18 (the arc
    popped pruned a domain, and 19 arcs were appended); and when [ac3]
    returns [True] the last entry is 1. *)
Theorem ac3_queue_lengths_shape
    (iter_cells : list cell → list cell) fuel (self : SudokuCSP) :
  (∀ s, iter_cells s ≡ₚ s) →
  csp_wf self → 1620 + 20 * total self < fuel →
  ∃ result lengths self',
    ac3 iter_cells fuel self = Returns ((result, lengths), self') ∧
    head lengths = Some 1620%Z ∧
    (∀ k a b, lengths !! k = Some a → lengths !! S k = Some b →
              b = (a - 1)%Z ∨ b = (a + 18)%Z) ∧
    (result = true → last lengths = Some 1%Z).
Proof.
  intros Hperm Hwf Hfuel.
  destruct (ac3_terminates iter_cells Hperm fuel self Hwf Hfuel)
    as (result & lengths & self' & Hrun).
  exists result, lengths, self'. split; [done|].
  destruct (ac3_run_facts iter_cells Hperm _ _ _ _ _ Hwf Hrun) as (Hres & Hhead & Hadj).
  split_and!; [done..|]. by intros ->.
Qed.

Lemma ac3_queue_lengths_shape_witness :
  ∃ result lengths self',
    ac3 insertion_order (S (1620 + 20 * total csp_one_blank)) csp_one_blank
    = Returns ((result, lengths), self') ∧
    head lengths = Some 1620%Z ∧
    (∀ k a b, lengths !! k = Some a → lengths !! S k = Some b →
              b = (a - 1)%Z ∨ b = (a + 18)%Z) ∧
    (result = true → last lengths = Some 1%Z).
Proof.
  apply (ac3_queue_lengths_shape insertion_order
           (S (1620 + 20 * total csp_one_blank)) csp_one_blank).
  - apply insertion_order_perm.
  - apply csp_one_blank_wf.
  - apply Nat.lt_succ_diag_r.
Defined.

(** ** The search and the solver *)

(** X15: [backtracking_search] is sound and complete over the domains of
    the object.  It always returns and leaves the object alone.  A dict it
    returns assigns every cell of the grid a value of that cell's domain,
    and no two cells sharing a row, column or block get the same value.
    It returns [None] only when no such assignment exists. *)
Theorem backtracking_search_sound_and_complete
    (iter_cells : list cell → list cell) fuel (self : SudokuCSP) :
  (∀ s, iter_cells s ≡ₚ s) →
  csp_wf self → 82 ≤ fuel →
  ∃ result trace,
    backtracking_search iter_cells fuel self = Returns ((result, trace), self) ∧
    match result with
    | Some full =>
        ∀ c, in_grid c →
          ∃ v, full !! c = Some v ∧ v ∈ dom_of self c ∧
               ∀ c', in_grid c' → related c c' → full !! c' ≠ Some v
    | None =>
        ∀ σ : cell → Z,
          (∀ c c', in_grid c → in_grid c' → related c c' → σ c ≠ σ c') →
          ¬ ∀ c, in_grid c → σ c ∈ dom_of self c
    end.
Proof.
  intros Hperm Hwf Hfuel.
  destruct (backtrack_terminates iter_cells Hperm fuel self Hwf Hfuel)
    as [[[[r a'] log'] s'] Hrun].
  pose proof (backtrack_returns iter_cells Hperm _ _ _ Hwf Hrun) as (-> & _ & Hr).
  exists r, (reverse log'). split.
  { unfold backtracking_search. by rewrite bind_eq, Hrun. }
  destruct r as [full|].
  - destruct Hr as (_ & Hsize & Hfull & _). intros c Hc%in_grid_all_cells.
    destruct (size_assignment_81 full c) as [v Hv]; [|done..|].
    { intros c0. by apply (consistent_assignment_keys self). }
    exists v. split; [done|]. destruct (Hfull c v Hv) as (_ & Hdom & Hdiff).
    split; [done|]. intros c' Hc'%in_grid_all_cells Hrel.
    apply Hdiff. exact (proj2 (nbrs_related c Hc c' Hc') Hrel).
  - destruct Hr as [_ Hnone]. intros σ Hσ%proper_related Hin.
    apply (Hnone σ); [done| |done].
    intros c Hc. by apply Hin, in_grid_all_cells.
Qed.

Lemma backtracking_search_sound_and_complete_witness :
  ∃ result trace,
    backtracking_search insertion_order 82 csp_one_blank
    = Returns ((result, trace), csp_one_blank) ∧
    match result with
    | Some full =>
        ∀ c, in_grid c →
          ∃ v, full !! c = Some v ∧ v ∈ dom_of csp_one_blank c ∧
               ∀ c', in_grid c' → related c c' → full !! c' ≠ Some v
    | None =>
        ∀ σ : cell → Z,
          (∀ c c', in_grid c → in_grid c' → related c c' → σ c ≠ σ c') →
          ¬ ∀ c, in_grid c → σ c ∈ dom_of csp_one_blank c
    end.
Proof.
  apply (backtracking_search_sound_and_complete insertion_order 82 csp_one_blank).
  - apply insertion_order_perm.
  - apply csp_one_blank_wf.
  - apply Nat.le_refl.
Defined.

(** X16: [solve_sudoku] decides solvability.  On a 9x9 grid with entries
    0..9 it always returns; a grid it returns is a completion of the input
    (each of 1..9 once in every row, column and block, the clues kept), and
    it returns [None] only when the input has no completion at all. *)
Theorem solve_sudoku_None_only_if_unsolvable
    (iter_cells : list cell → list cell) fuel p :
  (∀ s, iter_cells s ≡ₚ s) →
  sudoku_grid p → enough_fuel ≤ fuel →
  ∃ res lengths trace,
    solve_sudoku iter_cells fuel p = Returns (res, lengths, trace) ∧
    match res with
    | Some g => completion p g
    | None => ∀ g, ¬ completion p g
    end.
Proof.
  intros Hperm Hp Hfuel. pose proof Hp as [Hshape _].
  destruct (solve_sudoku_total iter_cells Hperm fuel p Hshape Hfuel)
    as (res & lengths & trace & Hrun).
  exists res, lengths, trace. split; [done|]. destruct res as [g|].
  - by eapply solve_sudoku_completion.
  - intros g Hg.
    destruct (solve_sudoku_complete iter_cells Hperm fuel p g Hshape Hg Hfuel)
      as (g' & lengths' & trace' & Hrun').
    congruence.
Qed.

Lemma solve_sudoku_None_only_if_unsolvable_witness :
  ∃ res lengths trace,
    solve_sudoku insertion_order enough_fuel puzzle_two_fives
    = Returns (res, lengths, trace) ∧
    match res with
    | Some g => completion puzzle_two_fives g
    | None => ∀ g, ¬ completion puzzle_two_fives g
    end.
Proof.
  apply (solve_sudoku_None_only_if_unsolvable insertion_order enough_fuel puzzle_two_fives).
  - apply insertion_order_perm.
  - apply sudoku_grid_check_true. vm_compute. reflexivity.
  - apply Nat.le_refl.
Defined.

Lemma solve_sudoku_finds_some_solution
    (iter_cells : list cell → list cell) fuel p (σ : cell → Z) :
  (∀ s, iter_cells s ≡ₚ s) →
  shape9 p → proper σ →
  (∀ c, c ∈ all_cells → σ c ∈ initial_domain (grid_value p c)) →
  enough_fuel ≤ fuel →
  ∃ g lengths trace, solve_sudoku iter_cells fuel p = Returns (Some g, lengths, trace).
Proof.
  intros Hperm Hp Hproper Hdom Hfuel.
  destruct (new_SudokuCSP_facts p Hp) as (s0 & Hnew & Hwf0 & _ & Hdom0 & Hne0 & Htotal).
  rewrite (solve_sudoku_eq _ _ _ _ Hnew).
  destruct (ac3_terminates iter_cells Hperm fuel s0 Hwf0) as (r & ls & s1 & Hac3).
  { unfold enough_fuel in Hfuel. lia. }
  rewrite Hac3.
  destruct (ac3_spec _ Hperm _ _ _ _ _ Hwf0 Hac3) as (Hwf1 & _ & Hsub & Hsol & Htrue).
  destruct (Hsol σ Hproper) as [-> Hin1].
  { intros c Hc. rewrite Hdom0 by done. by apply Hdom. }
  destruct (Htrue eq_refl) as [Hcons Hne1]. specialize (Hne1 Hne0).
  destruct (forallb _ _) eqn:Hsolved.
  - rewrite get_solution_wf by done. eauto.
  - destruct (backtrack_terminates iter_cells Hperm fuel s1 Hwf1) as [[[[[a|] a'] log] s'] Hbt].
    { unfold enough_fuel in Hfuel. lia. }
    + rewrite Hbt.
      pose proof (backtrack_returns iter_cells Hperm _ _ _ Hwf1 Hbt) as (_ & _ & _ & Hsize & _).
      rewrite Hsize. simpl. eauto.
    + pose proof (backtrack_returns iter_cells Hperm _ _ _ Hwf1 Hbt) as (_ & _ & _ & Hno).
      destruct (Hno σ Hproper Hin1). intros c v. by rewrite lookup_empty.
Qed.

(** X17: the entries of the input are not validated.  On any grid of nine
    rows of nine integers [solve_sudoku] returns; every non-zero entry,
    whatever integer it is, is taken as a clue and kept in a returned grid,
    the cells that were 0 receive values 1..9, and cells that share a row,
    column or block receive different values.  It returns [None] only when
    no such filling exists. *)
Theorem solve_sudoku_keeps_unchecked_entries
    (iter_cells : list cell → list cell) fuel p :
  (∀ s, iter_cells s ≡ₚ s) →
  shape9 p → enough_fuel ≤ fuel →
  ∃ res lengths trace,
    solve_sudoku iter_cells fuel p = Returns (res, lengths, trace) ∧
    match res with
    | Some g =>
        shape9 g ∧ keeps_clues p g ∧
        (∀ c, in_grid c → grid_value p c = 0%Z → (1 ≤ grid_value g c ≤ 9)%Z) ∧
        (∀ c c', in_grid c → in_grid c' → related c c' → grid_value g c ≠ grid_value g c')
    | None =>
        ∀ σ : cell → Z,
          (∀ c c', in_grid c → in_grid c' → related c c' → σ c ≠ σ c') →
          ¬ ∀ c, in_grid c →
                 if decide (grid_value p c = 0%Z) then (1 ≤ σ c ≤ 9)%Z
                 else σ c = grid_value p c
    end.
Proof.
  intros Hperm Hp Hfuel.
  destruct (solve_sudoku_total iter_cells Hperm fuel p Hp Hfuel)
    as (res & lengths & trace & Hrun).
  exists res, lengths, trace. split; [done|]. destruct res as [g|].
  - destruct (solve_sudoku_sound iter_cells Hperm fuel p g lengths trace Hp Hrun)
      as (Hshape & Hdom & Hproper).
    split_and!; [done| | |by apply proper_related].
    + intros i j Hi Hj Hclue.
      assert ((i, j) ∈ all_cells) as Hc by by apply elem_of_all_cells.
      specialize (Hdom _ Hc). apply elem_of_initial_domain in Hdom.
      by rewrite decide_False in Hdom.
    + intros c Hc%in_grid_all_cells Hzero.
      specialize (Hdom _ Hc). apply elem_of_initial_domain in Hdom.
      by rewrite decide_True in Hdom.
  - intros σ Hσ%proper_related Hin.
    destruct (solve_sudoku_finds_some_solution iter_cells fuel p σ Hperm Hp Hσ)
      as (g & lengths' & trace' & Hrun'); [|done|congruence].
    intros c Hc%in_grid_all_cells. apply elem_of_initial_domain. by apply Hin.
Qed.

(** A grid with a clue that is no digit. *)
Definition puzzle_unchecked : list (list Z) :=
  [42; 0; 0; 0; 0; 0; 0; 0; 0]%Z :: replicate 8 (replicate 9 0%Z).

Lemma solve_sudoku_keeps_unchecked_entries_witness :
  ∃ res lengths trace,
    solve_sudoku insertion_order enough_fuel puzzle_unchecked
    = Returns (res, lengths, trace) ∧
    match res with
    | Some g =>
        shape9 g ∧ keeps_clues puzzle_unchecked g ∧
        (∀ c, in_grid c → grid_value puzzle_unchecked c = 0%Z →
              (1 ≤ grid_value g c ≤ 9)%Z) ∧
        (∀ c c', in_grid c → in_grid c' → related c c' → grid_value g c ≠ grid_value g c')
    | None =>
        ∀ σ : cell → Z,
          (∀ c c', in_grid c → in_grid c' → related c c' → σ c ≠ σ c') →
          ¬ ∀ c, in_grid c →
                 if decide (grid_value puzzle_unchecked c = 0%Z) then (1 ≤ σ c ≤ 9)%Z
                 else σ c = grid_value puzzle_unchecked c
    end.
Proof.
  apply (solve_sudoku_keeps_unchecked_entries insertion_order enough_fuel puzzle_unchecked).
  - apply insertion_order_perm.
  - apply shape9_check. vm_compute. reflexivity.
  - apply Nat.le_refl.
Defined.

(** X18: two equal clues in cells that share a row, a column or a block
    are found by [ac3]: [solve_sudoku] returns [None] and never enters the
    search. *)
Theorem equal_clues_in_a_unit_give_None
    (iter_cells : list cell → list cell) fuel p (c c' : cell) :
  (∀ s, iter_cells s ≡ₚ s) →
  shape9 p → in_grid c → in_grid c' → related c c' →
  grid_value p c ≠ 0%Z → grid_value p c = grid_value p c' →
  enough_fuel ≤ fuel →
  ∃ lengths, solve_sudoku iter_cells fuel p = Returns (None, lengths, []).
Proof.
  intros Hperm Hp Hc%in_grid_all_cells Hc'%in_grid_all_cells Hrel Hclue Heq Hfuel.
  destruct (equal_clues_fail iter_cells fuel p c c' Hperm Hp Hc) as (csp & ls & csp1 & Hnew & Hac3);
    [|done..|].
  { exact (proj2 (nbrs_related c Hc c' Hc') Hrel). }
  exists ls. by eapply solve_sudoku_ac3_failed.
Qed.

(** A grid with two 7s in the top-left block, in different rows and
    columns. *)
Definition puzzle_block_clash : list (list Z) :=
  [7; 0; 0; 0; 0; 0; 0; 0; 0]%Z :: [0; 7; 0; 0; 0; 0; 0; 0; 0]%Z
  :: replicate 7 (replicate 9 0%Z).

Lemma equal_clues_in_a_unit_give_None_witness :
  ∃ lengths,
    solve_sudoku insertion_order enough_fuel puzzle_block_clash = Returns (None, lengths, []).
Proof.
  apply (equal_clues_in_a_unit_give_None insertion_order enough_fuel puzzle_block_clash
           (0, 0) (1, 1)).
  - apply insertion_order_perm.
  - apply shape9_check. vm_compute. reflexivity.
  - split; simpl; lia.
  - split; simpl; lia.
  - split; [discriminate|]. right. right. split; reflexivity.
  - vm_compute. discriminate.
  - vm_compute. reflexivity.
  - apply Nat.le_refl.
Defined.

(** * Independence of the iteration order *)

(** ** [ac3] is confluent *)

(** A family of values, some for each cell, in which every value has a
    different value in the family of every neighbour. *)
Definition support_closed (D : cell → Z → Prop) : Prop :=
  ∀ c x, D c x → c ∈ all_cells ∧ ∀ c', c' ∈ nbrs c → ∃ y, D c' y ∧ x ≠ y.

Definition inside (D : cell → Z → Prop) (self : SudokuCSP) : Prop :=
  ∀ c x, D c x → x ∈ dom_of self c.

Lemma sublist_NoDup_ext {A} (l : list A) : ∀ l1 l2,
  NoDup l → l1 `sublist_of` l → l2 `sublist_of` l →
  (∀ x, x ∈ l1 ↔ x ∈ l2) → l1 = l2.
Proof.
  induction l as [|a l IH]; intros l1 l2 Hnd H1 H2 Heq.
  - apply sublist_nil_r in H1, H2. by subst.
  - apply NoDup_cons in Hnd as [Ha Hnd].
    apply sublist_cons_r in H1 as [H1|(l1' & -> & H1)];
      apply sublist_cons_r in H2 as [H2|(l2' & -> & H2)].
    + by apply IH.
    + destruct Ha. eapply elem_of_sublist; [|exact H1]. apply Heq. left.
    + destruct Ha. eapply elem_of_sublist; [|exact H2]. apply Heq. left.
    + f_equal. apply IH; [done..|]. intros x. split; intros Hx.
      * assert (x ∈ a :: l2') as Hx' by (apply Heq; by right).
        apply elem_of_cons in Hx' as [->|?]; [|done].
        destruct Ha. by eapply elem_of_sublist.
      * assert (x ∈ a :: l1') as Hx' by (apply Heq; by right).
        apply elem_of_cons in Hx' as [->|?]; [|done].
        destruct Ha. by eapply elem_of_sublist.
Qed.

Lemma dict_ext {V} (d1 : list (cell * V)) : ∀ d2,
  map fst d1 = map fst d2 → NoDup (map fst d1) →
  (∀ k, k ∈ map fst d1 → dict_get k d1 = dict_get k d2) →
  d1 = d2.
Proof.
  induction d1 as [|[k1 v1] d1 IH]; intros [|[k2 v2] d2] Hkeys Hnd Hget; try done.
  simpl in Hkeys. injection Hkeys as -> Hkeys.
  apply NoDup_cons in Hnd as [Hk Hnd].
  pose proof (Hget k2 ltac:(left)) as Hv. simpl in Hv. rewrite !decide_True in Hv by done.
  injection Hv as ->. f_equal. apply IH; [done..|].
  intros k Hin. specialize (Hget k ltac:(by right)). simpl in Hget.
  rewrite !decide_False in Hget; [done|by intros ->..].
Qed.

Lemma csp_ext (s1 s2 : SudokuCSP) :
  csp_wf s1 → csp_wf s2 → puzzle s1 = puzzle s2 →
  (∀ c, c ∈ all_cells → dom_of s1 c = dom_of s2 c) →
  s1 = s2.
Proof.
  intros Hwf1 Hwf2 Hpz Hdom.
  assert (domains s1 = domains s2) as Hd.
  { apply dict_ext.
    - by rewrite (wf_keys _ Hwf1), (wf_keys _ Hwf2).
    - rewrite (wf_keys _ Hwf1). apply NoDup_all_cells.
    - intros k Hk. rewrite (wf_keys _ Hwf1) in Hk. specialize (Hdom k Hk).
      unfold dom_of in Hdom.
      destruct (proj2 (dict_get_is_Some k (domains s1))) as [d1 H1];
        [by rewrite (wf_keys _ Hwf1)|].
      destruct (proj2 (dict_get_is_Some k (domains s2))) as [d2 H2];
        [by rewrite (wf_keys _ Hwf2)|].
      rewrite H1, H2 in Hdom |- *. simpl in Hdom. by subst. }
  pose proof (wf_neighbors _ Hwf1) as Hn1. pose proof (wf_neighbors _ Hwf2) as Hn2.
  destruct s1, s2. simpl in *. by subst.
Qed.

Section Confluence.
Context (iter_cells : list cell → list cell).
Context (iter_cells_perm : ∀ s, iter_cells s ≡ₚ s).

Lemma ac3_step_inside (D : cell → Z → Prop) st st' :
  support_closed D → ac3_inv st → inside D st.2 → ac3_step iter_cells st st' →
  inside D st'.2.
Proof.
  destruct st as [[q ls] s], st' as [[q' ls'] s']. intros HD Hinv Hin Hstep.
  destruct (ac3_step_cases _ _ _ _ _ Hinv Hstep)
    as (xi & xj & rest & -> & Hxi & Hxj & Hxj' & Hne & Hls &
        [(Hall & Hq & ->)|(Hall & Hd & Hq & ->)]); [done|].
  intros c x Hx. simpl. rewrite dom_of_set_dom. case_decide; [subst|by apply Hin].
  apply elem_of_revised_domain. split; [by apply Hin|].
  destruct (HD _ _ Hx) as [_ Hsupp]. destruct (Hsupp xj Hxj) as (y & Hy & Hxy).
  apply supported_spec. exists y. split; [by apply Hin|done].
Qed.

(** What a run of [ac3] does to the support-closed families inside the
    domains it starts from: all of them survive a run that returns [True];
    a run that returns [False] has met a cell, with values at the start,
    that has no value in any of them. *)
Lemma ac3_run_closure fuel s0 result lengths s' :
  csp_wf s0 →
  ac3 iter_cells fuel s0 = Returns ((result, lengths), s') →
  (result = true → ∀ c, dom_of s' c = [] → dom_of s0 c = []) ∧
  (∀ D, support_closed D → inside D s0 →
     if result then inside D s'
     else ∃ xi, xi ∈ all_cells ∧ dom_of s0 xi ≠ [] ∧ ∀ x, ¬ D xi x).
Proof.
  intros Hwf Hrun. unfold ac3 in Hrun.
  rewrite bind_eq, initial_queue_wf in Hrun by done.
  pose (P := fun st : ac3_state =>
    ac3_inv st ∧
    (∀ c, dom_of st.2 c `sublist_of` dom_of s0 c) ∧
    (∀ c, dom_of st.2 c = [] → dom_of s0 c = []) ∧
    (∀ D, support_closed D → inside D s0 → inside D st.2)).
  destruct (ac3_loop_ind iter_cells P fuel (all_arcs iter_cells) [] s0 (result, lengths) s')
    as ([[q ls] s] & (Hinv & Hsub & Hempty & Hkeep) & _ & Hlast); [| |done|].
  { intros st st' (Hinv & Hsub & Hempty & Hkeep) Hstep. split_and!.
    - by eapply ac3_step_inv.
    - intros c. etrans; [by eapply ac3_step_shrinks|done].
    - destruct st as [[q0 ls0] s0'], st' as [[q1 ls1] s1].
      destruct (ac3_step_cases _ _ _ _ _ Hinv Hstep)
        as (xi & xj & rest & -> & _ & _ & _ & _ & _ &
            [(_ & _ & ->)|(_ & Hd & _ & ->)]); [done|].
      simpl in *. intros c. rewrite dom_of_set_dom. case_decide; [done|apply Hempty].
    - intros D HD Hin. eapply ac3_step_inside; eauto. }
  { split_and!; try done.
    split; [done|]. simpl. apply Forall_forall. intros a. by apply elem_of_all_arcs. }
  simpl in *.
  destruct (ac3_final_cases _ _ _ _ _ _ Hinv Hlast)
    as [(-> & ? & ->)|(xi & xj & rest & -> & Hxi & Hxj & Hd & Hdi & ? & ->)]; simplify_eq.
  - done.
  - split; [done|]. intros D HD Hin. exists xi. split_and!; [done| |].
    + intros Hnil. specialize (Hsub xi). rewrite Hnil in Hsub.
      by apply sublist_nil_r in Hsub.
    + intros x Hx.
      assert (x ∈ revised_domain (dom_of s xi) (dom_of s xj)) as Hin'.
      { apply elem_of_revised_domain. split; [by apply (Hkeep D)|].
        destruct (HD _ _ Hx) as [_ Hsupp]. destruct (Hsupp xj Hxj) as (y & Hy & Hxy).
        apply supported_spec. exists y. split; [by apply (Hkeep D)|done]. }
      rewrite Hd in Hin'. by apply elem_of_nil in Hin'.
Qed.

End Confluence.

Section TwoOrders.
Context (iter1 iter2 : list cell → list cell).
Context (iter1_perm : ∀ s, iter1 s ≡ₚ s) (iter2_perm : ∀ s, iter2 s ≡ₚ s).

Lemma ac3_confluent_one_way (iterA iterB : list cell → list cell)
    fuelA fuelB s0 lA sA rB lB sB :
  (∀ s, iterA s ≡ₚ s) → (∀ s, iterB s ≡ₚ s) →
  csp_wf s0 →
  ac3 iterA fuelA s0 = Returns ((true, lA), sA) →
  ac3 iterB fuelB s0 = Returns ((rB, lB), sB) →
  rB = true ∧ ∀ c x, c ∈ all_cells → x ∈ dom_of sA c → x ∈ dom_of sB c.
Proof.
  intros HpA HpB Hwf HA HB.
  destruct (ac3_spec iterA HpA _ _ _ _ _ Hwf HA) as (HwfA & _ & HsubA & _ & HtrueA).
  destruct (HtrueA eq_refl) as [Hcons _].
  destruct (ac3_run_closure iterA HpA _ _ _ _ _ Hwf HA) as [HemptyA _].
  destruct (ac3_run_closure iterB HpB _ _ _ _ _ Hwf HB) as [_ HkeepB].
  set (D := fun (c : cell) (x : Z) => c ∈ all_cells ∧ x ∈ dom_of sA c).
  assert (support_closed D) as HD.
  { intros c x [Hc Hx]. split; [done|]. intros c' Hc'.
    destruct (Hcons (c, c') (conj Hc Hc') x Hx) as (y & Hy & Hxy).
    exists y. split; [|done]. split; [by eapply nbrs_in_grid|done]. }
  assert (inside D s0) as HD0.
  { intros c x [_ Hx]. eapply elem_of_sublist; [exact Hx|apply HsubA]. }
  specialize (HkeepB D HD HD0). destruct rB.
  - split; [done|]. intros c x Hc Hx. by apply HkeepB.
  - exfalso. destruct HkeepB as (xi & Hxi & Hne & Hnone).
    apply Hne, (HemptyA eq_refl).
    destruct (dom_of sA xi) as [|x d] eqn:Hdom; [done|].
    destruct (Hnone x). split; [done|]. rewrite Hdom. left.
Qed.

(** Two runs of [ac3] on the same object, whatever the two iteration
    orders, return the same flag and, when it is [True], leave the same
    object. *)
Lemma ac3_confluent fuel1 fuel2 s0 r1 l1 s1 r2 l2 s2 :
  csp_wf s0 →
  ac3 iter1 fuel1 s0 = Returns ((r1, l1), s1) →
  ac3 iter2 fuel2 s0 = Returns ((r2, l2), s2) →
  r1 = r2 ∧ (r1 = true → s1 = s2).
Proof.
  intros Hwf H1 H2.
  destruct (ac3_spec iter1 iter1_perm _ _ _ _ _ Hwf H1) as (Hwf1 & Hpz1 & Hsub1 & _).
  destruct (ac3_spec iter2 iter2_perm _ _ _ _ _ Hwf H2) as (Hwf2 & Hpz2 & Hsub2 & _).
  destruct r1, r2.
  - split; [done|]. intros _.
    destruct (ac3_confluent_one_way iter1 iter2 _ _ _ _ _ _ _ _ iter1_perm iter2_perm Hwf H1 H2)
      as [_ H12].
    destruct (ac3_confluent_one_way iter2 iter1 _ _ _ _ _ _ _ _ iter2_perm iter1_perm Hwf H2 H1)
      as [_ H21].
    apply csp_ext; [done..|congruence|]. intros c Hc.
    apply (sublist_NoDup_ext (dom_of s0 c)); [apply (wf_NoDup _ Hwf)|done..|].
    intros x. split; eauto.
  - by destruct (ac3_confluent_one_way iter1 iter2 _ _ _ _ _ _ _ _
                   iter1_perm iter2_perm Hwf H1 H2).
  - by destruct (ac3_confluent_one_way iter2 iter1 _ _ _ _ _ _ _ _
                   iter2_perm iter1_perm Hwf H2 H1).
  - done.
Qed.

(** ** The search does not depend on the order *)

Lemma consistent_with_order (a : gmap cell Z) (var : cell) (value : Z) :
  consistent_with iter1 a var value = consistent_with iter2 a var value.
Proof.
  apply Bool.eq_true_iff_eq.
  by rewrite (consistent_with_spec iter1 iter1_perm), (consistent_with_spec iter2 iter2_perm).
Qed.

Lemma lcv_order (self : SudokuCSP) (var : cell) (a : gmap cell Z) :
  csp_wf self → lcv iter1 self var a = lcv iter2 self var a.
Proof.
  intros Hwf. unfold lcv. do 2 f_equal. apply map_ext. intros v.
  by rewrite !count_of_conflicts.
Qed.

Lemma try_values_order (self : SudokuCSP)
    (rec1 rec2 : gmap cell Z → list event →
                 M SudokuCSP (option (gmap cell Z) * gmap cell Z * list event))
    (var : cell) (values : list Z) :
  csp_wf self → var ∈ all_cells →
  (∀ a log, rec1 a log self = rec2 a log self) →
  (∀ a log, frame_ok self a log (rec1 a log self)) →
  ∀ a log, try_values iter1 rec1 var values a log self
           = try_values iter2 rec2 var values a log self.
Proof.
  intros Hwf Hvar Hrec Hframe. induction values as [|value values IH]; intros a0 log; [done|].
  rewrite !try_values_cons by done. rewrite <-consistent_with_order.
  destruct (consistent_with iter1 a0 var value); [|apply IH].
  rewrite <-Hrec. specialize (Hframe (<[var := value]> a0) (Assign var value :: log)).
  destruct (rec1 _ _ _) as [[[[[r|] a'] log'] s']| |]; try done.
  destruct Hframe as (-> & _ & _). destruct (a' !! var); [apply IH|done].
Qed.

Lemma backtrack_order (self : SudokuCSP) fuel : ∀ depth a log,
  csp_wf self →
  backtrack iter1 fuel depth a log self = backtrack iter2 fuel depth a log self.
Proof.
  induction fuel as [|fuel IH]; intros depth a log Hwf; [done|].
  rewrite !backtrack_S by done. destruct (size a =? 81); [done|].
  destruct (mrv self a) as [var|] eqn:Hmrv; [|done].
  apply mrv_Some in Hmrv as [Hvar _]. rewrite <-lcv_order by done.
  apply try_values_order; try done.
  - intros. by apply IH.
  - intros a1 log1.
    pose proof (backtrack_frame iter1 iter1_perm self Hwf fuel (S depth) a1 log1) as Hf.
    destruct (backtrack _ _ _ _ _ _) as [[[[r a'] log'] s']| |]; try done.
    destruct Hf as (-> & (new & ->) & Hr). split_and!; try done.
    exists (new ++ [Enter (S depth)]). by rewrite <-app_assoc.
Qed.

Lemma solve_sudoku_order fuel p res1 lengths1 trace1 res2 lengths2 trace2 :
  shape9 p →
  solve_sudoku iter1 fuel p = Returns (res1, lengths1, trace1) →
  solve_sudoku iter2 fuel p = Returns (res2, lengths2, trace2) →
  res1 = res2 ∧ trace1 = trace2.
Proof.
  intros Hp H1 H2.
  destruct (new_SudokuCSP_facts p Hp) as (s0 & Hnew & Hwf0 & _).
  rewrite (solve_sudoku_eq iter1 _ _ _ Hnew) in H1.
  rewrite (solve_sudoku_eq iter2 _ _ _ Hnew) in H2.
  destruct (ac3 iter1 fuel s0) as [[[r1 l1] s1]| |] eqn:Hac1; try done.
  destruct (ac3 iter2 fuel s0) as [[[r2 l2] s2]| |] eqn:Hac2; try (by destruct r1).
  destruct (ac3_confluent _ _ _ _ _ _ _ _ _ Hwf0 Hac1 Hac2) as [<- Hsame].
  destruct r1; [|by simplify_eq].
  specialize (Hsame eq_refl). subst s2.
  destruct (ac3_spec iter1 iter1_perm _ _ _ _ _ Hwf0 Hac1) as (Hwf1 & _).
  destruct (forallb _ _).
  - destruct (get_solution s1) as [[g ?]| |]; by simplify_eq.
  - rewrite <-backtrack_order in H2 by done.
    destruct (backtrack iter1 fuel 0 ∅ [] s1) as [[[[[a|] a'] log] s']| |]; by simplify_eq.
Qed.

End TwoOrders.

(** ** The claim *)

(** Iterating every set of cells backwards. *)
Definition reverse_order (s : list cell) : list cell := reverse s.

Lemma reverse_order_perm s : reverse_order s ≡ₚ s.
Proof. apply reverse_Permutation. Qed.

(** The queue lengths do depend on the order in which the neighbour sets
    are iterated: on the grid with two 5s in row 0, [ac3] fails at the
    first arc in insertion order and at the twentieth in reverse order. *)
Lemma queue_lengths_depend_on_order :
  run_lengths (solve_sudoku insertion_order enough_fuel puzzle_two_fives) = [1620%Z] ∧
  length (run_lengths (solve_sudoku reverse_order enough_fuel puzzle_two_fives)) = 20.
Proof. split; by vm_compute. Qed.

(** C7: [solve_sudoku] is deterministic.  The order in which the sets of
    cells are iterated is a parameter of a run.  Whatever that order is in
    each of two runs on the same grid, both runs return, with the same
    outcome (the same solved grid, or [None]) and the same search trace (the
    same cells chosen and values tried, in the same sequence).  The queue
    lengths are the same as well when the two runs iterate the 81 neighbour
    sets and the differences [neighbors[xi] - {xj}] in the same order, and
    then the two runs agree for every fuel, whatever they do. *)
Theorem C7_solve_sudoku_deterministic (iter1 iter2 : list cell → list cell) p :
  (∀ s, iter1 s ≡ₚ s) → (∀ s, iter2 s ≡ₚ s) →
  shape9 p →
  (∀ fuel1 fuel2, enough_fuel ≤ fuel1 → enough_fuel ≤ fuel2 →
     ∃ res lengths1 lengths2 trace,
       solve_sudoku iter1 fuel1 p = Returns (res, lengths1, trace) ∧
       solve_sudoku iter2 fuel2 p = Returns (res, lengths2, trace) ∧
       ((∀ c, c ∈ all_cells → iter1 (nbrs c) = iter2 (nbrs c)) →
        (∀ c xj, c ∈ all_cells →
           iter1 (filter (fun c' => c' ≠ xj) (nbrs c))
           = iter2 (filter (fun c' => c' ≠ xj) (nbrs c))) →
        lengths1 = lengths2)) ∧
  ((∀ c, c ∈ all_cells → iter1 (nbrs c) = iter2 (nbrs c)) →
   (∀ c xj, c ∈ all_cells →
      iter1 (filter (fun c' => c' ≠ xj) (nbrs c))
      = iter2 (filter (fun c' => c' ≠ xj) (nbrs c))) →
   ∀ fuel, solve_sudoku iter1 fuel p = solve_sudoku iter2 fuel p).
Proof.
  intros Hperm1 Hperm2 Hp. split.
  - intros fuel1 fuel2 Hfuel1 Hfuel2.
    destruct (solve_sudoku_total iter1 Hperm1 fuel1 p Hp Hfuel1) as (res & ls1 & tr & Hrun1).
    destruct (solve_sudoku_total iter2 Hperm2 fuel2 p Hp Hfuel2) as (res' & ls2 & tr' & Hrun2).
    pose proof (solve_sudoku_fuel_mono iter1 fuel1 (fuel1 + fuel2) p _ ltac:(lia) Hrun1) as Hup1.
    pose proof (solve_sudoku_fuel_mono iter2 fuel2 (fuel1 + fuel2) p _ ltac:(lia) Hrun2) as Hup2.
    destruct (solve_sudoku_order iter1 iter2 Hperm1 Hperm2 _ _ _ _ _ _ _ _ Hp Hup1 Hup2)
      as [<- <-].
    exists res, ls1, ls2, tr. split_and!; [done..|].
    intros Hnbrs Hdiff.
    rewrite (solve_sudoku_ext iter1 iter2 Hperm1 Hperm2 Hnbrs Hdiff _ _ Hp) in Hup1.
    congruence.
  - intros Hnbrs Hdiff fuel. by apply solve_sudoku_ext.
Qed.

Lemma C7_witness :
  ∃ res lengths1 lengths2 trace,
    solve_sudoku insertion_order enough_fuel puzzle_empty
    = Returns (res, lengths1, trace) ∧
    solve_sudoku reverse_order (S enough_fuel) puzzle_empty
    = Returns (res, lengths2, trace).
Proof.
  destruct (C7_solve_sudoku_deterministic insertion_order reverse_order puzzle_empty)
    as [Hsame _].
  - apply insertion_order_perm.
  - apply reverse_order_perm.
  - apply shape9_check. vm_compute. reflexivity.
  - destruct (Hsame enough_fuel (S enough_fuel)) as (res & l1 & l2 & tr & H1 & H2 & _).
    + apply Nat.le_refl.
    + apply Nat.le_succ_diag_r.
    + exists res, l1, l2, tr. split; [exact H1|exact H2].
Defined.
